(** * The extension-host mirror of the editor tab model

    A shallow embedding of [ExtHostEditorTab], [ExtHostEditorTabGroup] and
    [ExtHostEditorTabs] (extHostEditorTabs.ts).  The three classes are mutable
    JavaScript objects that point at each other (a group holds its tabs, a
    tab holds its group, a public API object closes over the internal object
    it was made for), so the embedding is a heap of objects addressed by
    location, threaded through a state-and-exception monad. *)

From stdpp Require Import base numbers option list strings gmap.

(** ** Values exchanged with the main thread *)

(** Object references.  JavaScript's [===] on objects is equality of
    locations. *)
Definition loc := nat.

(** Modelled from the spec: [UriComponents], [URI] and [URI.revive]
    (vs/base/common/uri) are not under src.  A resource locator is kept as
    its five components and [URI.revive] wraps them into a [URI]. *)
Record UriComponents := {
  scheme : string;
  authority : string;
  path : string;
  query : string;
  fragment : string
}.

Inductive URI := URI_from (components : UriComponents).

Definition URI_revive (components : UriComponents) : URI := URI_from components.

(** Modelled from the spec: the [TabInputKind] tags and the input records of
    extHost.protocol are not under src.  The seven tags are the seven [case]
    labels of [_initInput]; every other value of the tag (the protocol's
    unknown input, or a tag a newer main thread may send) is
    [OtherInputKind]. *)
Inductive TabInputKind :=
  | TextInput
  | TextDiffInput
  | CustomEditorInput
  | WebviewEditorInput
  | NotebookInput
  | NotebookDiffInput
  | TerminalEditorInput
  | OtherInputKind (tag : Z).

(** The input descriptor of a tab record: a union discriminated by [kind],
    each member carrying the fields that [_initInput] reads for it. *)
Inductive TabInputDto :=
  | TextInputDto (uri : UriComponents)
  | TextDiffInputDto (original modified : UriComponents)
  | CustomEditorInputDto (uri : UriComponents) (viewType : string)
  | WebviewEditorInputDto (viewType : string)
  | NotebookInputDto (uri : UriComponents) (notebookType : string)
  | NotebookDiffInputDto (original modified : UriComponents) (notebookType : string)
  | TerminalEditorInputDto
  | OtherInputDto (tag : Z).

Definition kind (input : TabInputDto) : TabInputKind :=
  match input with
  | TextInputDto _ => TextInput
  | TextDiffInputDto _ _ => TextDiffInput
  | CustomEditorInputDto _ _ => CustomEditorInput
  | WebviewEditorInputDto _ => WebviewEditorInput
  | NotebookInputDto _ _ => NotebookInput
  | NotebookDiffInputDto _ _ _ => NotebookDiffInput
  | TerminalEditorInputDto => TerminalEditorInput
  | OtherInputDto tag => OtherInputKind tag
  end.

(** The public tab kinds of extHostTypes, [AnyTabInput] in the source. *)
Inductive AnyTabInput :=
  | TextTabInput (uri : URI)
  | TextDiffTabInput (original modified : URI)
  | CustomEditorTabInput (uri : URI) (viewType : string)
  | WebviewEditorTabInput (viewType : string)
  | NotebookEditorTabInput (uri : URI) (notebookType : string)
  | NotebookDiffEditorTabInput (original modified : URI) (notebookType : string)
  | TerminalEditorTabInput.

Module IEditorTabDto.
Record t := mk {
  id : string;
  label : string;
  isActive : bool;
  isDirty : bool;
  isPinned : bool;
  isPreview : bool;
  input : TabInputDto
}.
End IEditorTabDto.

Module IEditorTabGroupDto.
Record t := mk {
  isActive : bool;
  viewColumn : Z;
  tabs : list IEditorTabDto.t;
  groupId : Z
}.
End IEditorTabGroupDto.

(** Modelled from the spec: [TabModelOperationKind] and [TabOperation] of
    extHost.protocol are not under src.  [acceptTabOperation] tests for
    [TAB_OPEN], then for [TAB_CLOSE], and treats what is left as an update. *)
Inductive TabModelOperationKind := TAB_OPEN | TAB_CLOSE | TAB_UPDATE.

Module TabOperation.
Record t := mk {
  kind : TabModelOperationKind;
  index : Z;
  tabDto : IEditorTabDto.t;
  groupId : Z
}.
End TabOperation.

Global Instance TabModelOperationKind_eq_dec : EqDecision TabModelOperationKind.
Proof. solve_decision. Defined.

(** ** Objects on the heap *)

(** The fields of class [ExtHostEditorTab].  [_activeTabIdGetter] is the
    closure [() => this.activeTabId()] made by the owning group; it is kept
    as the group it captured. *)
Module Tab.
Record t := mk {
  _apiObject : option loc;
  _dto : IEditorTabDto.t;
  _input : option AnyTabInput;
  _parentGroup : loc;
  _activeTabIdGetter : loc
}.

Definition tabId (this : t) : string := IEditorTabDto.id (_dto this).

(** [_initInput]: the switch over [this._dto.input.kind]. *)
Definition _initInput (this : t) : option AnyTabInput :=
  match IEditorTabDto.input (_dto this) with
  | TextInputDto uri => Some (TextTabInput (URI_revive uri))
  | TextDiffInputDto original modified =>
      Some (TextDiffTabInput (URI_revive original) (URI_revive modified))
  | CustomEditorInputDto uri viewType =>
      Some (CustomEditorTabInput (URI_revive uri) viewType)
  | WebviewEditorInputDto viewType => Some (WebviewEditorTabInput viewType)
  | NotebookInputDto uri notebookType =>
      Some (NotebookEditorTabInput (URI_revive uri) notebookType)
  | NotebookDiffInputDto original modified notebookType =>
      Some (NotebookDiffEditorTabInput (URI_revive original) (URI_revive modified) notebookType)
  | TerminalEditorInputDto => Some TerminalEditorTabInput
  | OtherInputDto _ => None
  end.

Definition set_dto (dto : IEditorTabDto.t) (this : t) : t :=
  mk (_apiObject this) dto (_input this) (_parentGroup this) (_activeTabIdGetter this).

Definition set_input (i : option AnyTabInput) (this : t) : t :=
  mk (_apiObject this) (_dto this) i (_parentGroup this) (_activeTabIdGetter this).

Definition set_apiObject (o : option loc) (this : t) : t :=
  mk o (_dto this) (_input this) (_parentGroup this) (_activeTabIdGetter this).

(** [acceptDtoUpdate] on the fields: [this._dto = dto] and then
    [this._input = this._initInput()]. *)
Definition acceptDtoUpdate (dto : IEditorTabDto.t) (this : t) : t :=
  let this1 := set_dto dto this in
  set_input (_initInput this1) this1.

(** The constructor: the two closures are stored and [acceptDtoUpdate]
    gives [_dto] and [_input] their first values ([_dto] has none before,
    so the record is started from [dto] itself). *)
Definition new (dto : IEditorTabDto.t) (parentGroup : loc) (activeTabIdGetter : loc) : t :=
  acceptDtoUpdate dto (mk None dto None parentGroup activeTabIdGetter).
End Tab.

(** The fields of class [ExtHostEditorTabGroup].  [_activeGroupIdGetter] is
    the closure [() => this._activeGroupId] over the one store, so it needs
    no field of its own. *)
Module Group.
Record t := mk {
  _apiObject : option loc;
  _dto : IEditorTabGroupDto.t;
  _tabs : list loc;
  _activeTabId : string
}.

Definition groupId (this : t) : Z := IEditorTabGroupDto.groupId (_dto this).

Definition set_apiObject (o : option loc) (this : t) : t :=
  mk o (_dto this) (_tabs this) (_activeTabId this).
Definition set_dto (dto : IEditorTabGroupDto.t) (this : t) : t :=
  mk (_apiObject this) dto (_tabs this) (_activeTabId this).
Definition set_tabs (ts : list loc) (this : t) : t :=
  mk (_apiObject this) (_dto this) ts (_activeTabId this).
Definition set_activeTabId (a : string) (this : t) : t :=
  mk (_apiObject this) (_dto this) (_tabs this) a.
End Group.

(** The objects handed to extension code.  Each is an object literal whose
    getters close over [that]; [frozen] records that [Object.freeze] was
    applied to it.  [Foreign] is an object that extension code made itself;
    [has_tabs] says whether it has a [tabs] property. *)
Inductive ApiShape :=
  | TabApi (that : loc)
  | TabGroupApi (that : loc)
  | TabGroupsApi
  | Foreign (has_tabs : bool).

Record ApiObject := { shape : ApiShape; frozen : bool }.

Definition Object_freeze (o : ApiObject) : ApiObject :=
  {| shape := shape o; frozen := true |}.

(** What the two emitters fired and what was sent over the RPC proxy. *)
Inductive Event :=
  | onDidChangeTabs (tabs : list loc)
  | onDidChangeTabGroups (groups : list loc).

Inductive Request :=
  | closeTab (tabIds : list string) (preserveFocus : option bool)
  | closeGroup (groupIds : list Z) (preserveFocus : option bool)
  | moveTab (tabId : string) (index : Z) (viewColumn : Z) (preserveFocus : option bool).

(** The errors of the module, one per [throw] site, and the [TypeError] of
    JavaScript for a write to a frozen object. *)
Inductive Error :=
  | TabCloseIndexDoesNotExist (index : Z)
  | INVALID_tab
  | AssertionFailed
  | UpdateGroupBeforeCreation
  | UpdateTabsBeforeCreation
  | MoveInvalidTab
  | TabCloseInvalidTab
  | GroupCloseInvalidGroup
  | TypeError.

(** The heap and the fields of the one [ExtHostEditorTabs] instance. *)
Record State := mkState {
  next : loc;
  tabs : gmap loc Tab.t;
  groups : gmap loc Group.t;
  objects : gmap loc ApiObject;
  _activeGroupId : option Z;
  _extHostTabGroups : list loc;
  _apiObject : option loc;
  fired : list Event;
  sent : list Request
}.

Definition initial : State :=
  mkState 0 ∅ ∅ ∅ None [] None [] [].

Definition set_next (n : loc) (s : State) : State :=
  mkState n (tabs s) (groups s) (objects s) (_activeGroupId s)
    (_extHostTabGroups s) (_apiObject s) (fired s) (sent s).
Definition set_tabs (m : gmap loc Tab.t) (s : State) : State :=
  mkState (next s) m (groups s) (objects s) (_activeGroupId s)
    (_extHostTabGroups s) (_apiObject s) (fired s) (sent s).
Definition set_groups (m : gmap loc Group.t) (s : State) : State :=
  mkState (next s) (tabs s) m (objects s) (_activeGroupId s)
    (_extHostTabGroups s) (_apiObject s) (fired s) (sent s).
Definition set_objects (m : gmap loc ApiObject) (s : State) : State :=
  mkState (next s) (tabs s) (groups s) m (_activeGroupId s)
    (_extHostTabGroups s) (_apiObject s) (fired s) (sent s).
Definition set_activeGroupId (a : option Z) (s : State) : State :=
  mkState (next s) (tabs s) (groups s) (objects s) a
    (_extHostTabGroups s) (_apiObject s) (fired s) (sent s).
Definition set_extHostTabGroups (gs : list loc) (s : State) : State :=
  mkState (next s) (tabs s) (groups s) (objects s) (_activeGroupId s)
    gs (_apiObject s) (fired s) (sent s).
Definition set_apiObject (o : option loc) (s : State) : State :=
  mkState (next s) (tabs s) (groups s) (objects s) (_activeGroupId s)
    (_extHostTabGroups s) o (fired s) (sent s).
Definition set_fired (es : list Event) (s : State) : State :=
  mkState (next s) (tabs s) (groups s) (objects s) (_activeGroupId s)
    (_extHostTabGroups s) (_apiObject s) es (sent s).
Definition set_sent (rs : list Request) (s : State) : State :=
  mkState (next s) (tabs s) (groups s) (objects s) (_activeGroupId s)
    (_extHostTabGroups s) (_apiObject s) (fired s) rs.

(** ** The monad

    A computation runs from a state to an outcome and the state it left
    behind.  A [throw] keeps the writes made before it, as in JavaScript.
    [Stuck] is the outcome of following a reference that is not on the heap;
    JavaScript has no such reference and no reachable state has one. *)
Inductive Outcome (A : Type) :=
  | Ok (a : A)
  | Throw (e : Error)
  | Stuck.
Arguments Ok {A} a.
Arguments Throw {A} e.
Arguments Stuck {A}.

Definition M (A : Type) : Type := State → Outcome A * State.

Global Instance M_ret : MRet M := λ A a s, (Ok a, s).

Global Instance M_bind : MBind M := λ A B f m s,
  match m s with
  | (Ok a, s') => f a s'
  | (Throw e, s') => (Throw e, s')
  | (Stuck, s') => (Stuck, s')
  end.

Definition throw {A} (e : Error) : M A := λ s, (Throw e, s).
Definition stuck {A} : M A := λ s, (Stuck, s).
Definition gets {A} (f : State → A) : M A := λ s, (Ok (f s), s).
Definition modify (f : State → State) : M unit := λ s, (Ok tt, f s).

(** Following a reference. *)
Definition deref {A} (f : State → option A) : M A := λ s,
  match f s with
  | Some a => (Ok a, s)
  | None => (Stuck, s)
  end.

(** A new object gets the next unused location. *)
Definition fresh : M loc := λ s, (Ok (next s), set_next (S (next s)) s).

Definition when (b : bool) (m : M unit) : M unit := if b then m else mret tt.

(** [for (const x of l) body]. *)
Fixpoint for_of {A} (l : list A) (body : A → M unit) : M unit :=
  match l with
  | [] => mret tt
  | x :: l' => body x;; for_of l' body
  end.

(** [l.map(f)]. *)
Fixpoint Array_map {A B} (f : A → M B) (l : list A) : M (list B) :=
  match l with
  | [] => mret []
  | x :: l' => y ← f x; ys ← Array_map f l'; mret (y :: ys)
  end.

(** [l.find(p)]. *)
Fixpoint Array_find {A} (p : A → M bool) (l : list A) : M (option A) :=
  match l with
  | [] => mret None
  | x :: l' => p x ≫= λ b : bool, if b then mret (Some x) else Array_find p l'
  end.

(** [l.splice(start, deleteCount, ...items)]: the removed elements and the
    array afterwards.  A negative [start] counts from the end and a [start]
    past the end is the end. *)
Definition relative_start (len : nat) (start : Z) : nat :=
  if (start <? 0)%Z then Z.to_nat (Z.max (Z.of_nat len + start) 0)
  else Z.to_nat (Z.min start (Z.of_nat len)).

Definition splice {A} (l : list A) (start : Z) (deleteCount : nat) (items : list A)
  : list A * list A :=
  let k := relative_start (length l) start in
  (take deleteCount (drop k l), take k l ++ items ++ drop (k + deleteCount) l).
Global Arguments splice : simpl never.

(** Modelled from the spec: [assertIsDefined] (vs/base/common/types) is not
    under src; it fails when its argument is undefined and returns the
    argument otherwise. *)
Definition assertIsDefined {A} (arg : option A) : M A :=
  match arg with
  | Some a => mret a
  | None => throw AssertionFailed
  end.

(** [Emitter.fire] and the calls on the proxy are seen through their
    traces. *)
Definition fire (e : Event) : M unit := modify (λ s, set_fired (fired s ++ [e]) s).
Definition send (r : Request) : M unit := modify (λ s, set_sent (sent s ++ [r]) s).

Definition get_tab (l : loc) : M Tab.t := deref (λ s, tabs s !! l).
Definition put_tab (l : loc) (t : Tab.t) : M unit :=
  modify (λ s, set_tabs (<[l := t]> (tabs s)) s).
Definition get_group (l : loc) : M Group.t := deref (λ s, groups s !! l).
Definition put_group (l : loc) (g : Group.t) : M unit :=
  modify (λ s, set_groups (<[l := g]> (groups s)) s).
Definition update_group (l : loc) (f : Group.t → Group.t) : M unit :=
  g ← get_group l; put_group l (f g).
Definition get_object (l : loc) : M ApiObject := deref (λ s, objects s !! l).
Definition put_object (l : loc) (o : ApiObject) : M unit :=
  modify (λ s, set_objects (<[l := o]> (objects s)) s).

(** [obj.property = value] by extension code.  Modules run in strict mode,
    where assigning to a property of a frozen object is a [TypeError]; what
    extension code writes into objects of its own is not part of the
    model. *)
Definition assign_property (obj : loc) : M unit :=
  o ← get_object obj;
  if frozen o then throw TypeError else mret ().

(** ** class ExtHostEditorTabGroup, the part the tab getters call *)

(** [activeTabId()]. *)
Definition activeTabId (this : loc) : M string :=
  g ← get_group this; mret (Group._activeTabId g).

(** [get apiObject()] of a group: made on the first read, frozen, and kept
    in [_apiObject]. *)
Definition Group_apiObject (this : loc) : M loc :=
  g ← get_group this;
  match Group._apiObject g with
  | Some obj => mret obj
  | None =>
      obj ← fresh;
      put_object obj (Object_freeze {| shape := TabGroupApi this; frozen := false |});;
      put_group this (Group.set_apiObject (Some obj) g);;
      mret obj
  end.

(** ** class ExtHostEditorTab *)
Module ExtHostEditorTab.

Definition new (dto : IEditorTabDto.t) (parentGroup : loc) (activeTabIdGetter : loc) : M loc :=
  this ← fresh;
  put_tab this (Tab.new dto parentGroup activeTabIdGetter);;
  mret this.

(** [get apiObject()]. *)
Definition apiObject (this : loc) : M loc :=
  t ← get_tab this;
  match Tab._apiObject t with
  | Some obj => mret obj
  | None =>
      obj ← fresh;
      put_object obj (Object_freeze {| shape := TabApi this; frozen := false |});;
      put_tab this (Tab.set_apiObject (Some obj) t);;
      mret obj
  end.

Definition tabId (this : loc) : M string :=
  t ← get_tab this; mret (Tab.tabId t).

Definition acceptDtoUpdate (this : loc) (dto : IEditorTabDto.t) : M unit :=
  t ← get_tab this; put_tab this (Tab.acceptDtoUpdate dto t).

(** The getters of the public object [obj]; each reads through [that]. *)
Definition that (obj : loc) : M Tab.t :=
  o ← get_object obj;
  match shape o with
  | TabApi that => get_tab that
  | _ => stuck
  end.

Definition isActive (obj : loc) : M bool :=
  t ← that obj;
  a ← activeTabId (Tab._activeTabIdGetter t);
  mret (bool_decide (IEditorTabDto.id (Tab._dto t) = a)).

Definition label (obj : loc) : M string :=
  t ← that obj; mret (IEditorTabDto.label (Tab._dto t)).

Definition kind (obj : loc) : M (option AnyTabInput) :=
  t ← that obj; mret (Tab._input t).

Definition isDirty (obj : loc) : M bool :=
  t ← that obj; mret (IEditorTabDto.isDirty (Tab._dto t)).

Definition isPinned (obj : loc) : M bool :=
  t ← that obj; mret (IEditorTabDto.isPinned (Tab._dto t)).

Definition isPreview (obj : loc) : M bool :=
  t ← that obj; mret (IEditorTabDto.isPreview (Tab._dto t)).

Definition group (obj : loc) : M loc :=
  t ← that obj; Group_apiObject (Tab._parentGroup t).

End ExtHostEditorTab.

(** [for (const x of l) { ... return ...; }]: the loop ends at the first
    iteration that returns. *)
Fixpoint for_of_return {A B} (l : list A) (body : A → M (option B)) : M (option B) :=
  match l with
  | [] => mret None
  | x :: l' =>
      body x ≫= λ r : option B,
      match r with
      | Some b => mret (Some b)
      | None => for_of_return l' body
      end
  end.

(** [for (const x of l) { acc.push(f(x)); }]. *)
Fixpoint for_of_push {A B} (l : list A) (f : A → M B) (acc : list B) : M (list B) :=
  match l with
  | [] => mret acc
  | x :: l' => y ← f x; for_of_push l' f (acc ++ [y])
  end.

(** ** class ExtHostEditorTabGroup *)
Module ExtHostEditorTabGroup.

(** The constructor.  [this] exists, with no tabs and the empty active tab
    id, before the loop over [dto.tabs] runs. *)
Definition new (dto : IEditorTabGroupDto.t) : M loc :=
  this ← fresh;
  put_group this (Group.mk None dto [] "");;
  for_of (IEditorTabGroupDto.tabs dto) (λ tabDto,
    when (IEditorTabDto.isActive tabDto)
      (update_group this (Group.set_activeTabId (IEditorTabDto.id tabDto)));;
    tab ← ExtHostEditorTab.new tabDto this this;
    update_group this (λ g, Group.set_tabs (Group._tabs g ++ [tab]) g));;
  mret this.

Definition apiObject (this : loc) : M loc := Group_apiObject this.

Definition groupId (this : loc) : M Z :=
  g ← get_group this; mret (Group.groupId g).

Definition tabs (this : loc) : M (list loc) :=
  g ← get_group this; mret (Group._tabs g).

Definition acceptGroupDtoUpdate (this : loc) (dto : IEditorTabGroupDto.t) : M unit :=
  update_group this (Group.set_dto dto).

(** [extHostTab => extHostTab.tabId === id]. *)
Definition has_tabId (id : string) (extHostTab : loc) : M bool :=
  tabId ← ExtHostEditorTab.tabId extHostTab; mret (bool_decide (tabId = id)).

Definition acceptTabOperation (this : loc) (operation : TabOperation.t) : M loc :=
  let tabDto := TabOperation.tabDto operation in
  if decide (TabOperation.kind operation = TAB_OPEN) then
    tab ← ExtHostEditorTab.new tabDto this this;
    update_group this (λ g,
      Group.set_tabs (splice (Group._tabs g) (TabOperation.index operation) 0 [tab]).2 g);;
    when (IEditorTabDto.isActive tabDto)
      (tabId ← ExtHostEditorTab.tabId tab;
       update_group this (Group.set_activeTabId tabId));;
    mret tab
  else if decide (TabOperation.kind operation = TAB_CLOSE) then
    g ← get_group this;
    let spliced := splice (Group._tabs g) (TabOperation.index operation) 1 [] in
    put_group this (Group.set_tabs spliced.2 g);;
    match head spliced.1 with
    | None => throw (TabCloseIndexDoesNotExist (TabOperation.index operation))
    | Some tab =>
        tabId ← ExtHostEditorTab.tabId tab;
        active ← activeTabId this;
        when (bool_decide (tabId = active))
          (update_group this (Group.set_activeTabId ""));;
        mret tab
    end
  else
    ts ← tabs this;
    found ← Array_find (has_tabId (IEditorTabDto.id tabDto)) ts;
    match found with
    | None => throw INVALID_tab
    | Some tab =>
        active ← activeTabId this;
        (if IEditorTabDto.isActive tabDto then
           update_group this (Group.set_activeTabId (IEditorTabDto.id tabDto))
         else if bool_decide (active = IEditorTabDto.id tabDto)
                 && negb (IEditorTabDto.isActive tabDto) then
           update_group this (Group.set_activeTabId "")
         else mret tt);;
        ExtHostEditorTab.acceptDtoUpdate tab tabDto;;
        mret tab
    end.

(** The getters of the public object [obj] of a group.  ([viewColumn] goes
    through typeConverters, which is not under src, and is left out.) *)
Definition that (obj : loc) : M loc :=
  o ← get_object obj;
  match shape o with
  | TabGroupApi that => mret that
  | _ => stuck
  end.

Definition isActive (obj : loc) : M bool :=
  this ← that obj;
  id ← groupId this;
  active ← gets _activeGroupId;
  mret (bool_decide (Some id = active)).

Definition activeTab (obj : loc) : M (option loc) :=
  this ← that obj;
  ts ← tabs this;
  active ← activeTabId this;
  found ← Array_find (has_tabId active) ts;
  match found with
  | Some tab => api ← ExtHostEditorTab.apiObject tab; mret (Some api)
  | None => mret None
  end.

Definition tabs_getter (obj : loc) : M (list loc) :=
  this ← that obj;
  ts ← tabs this;
  Array_map ExtHostEditorTab.apiObject ts.

End ExtHostEditorTabGroup.

(** ** class ExtHostEditorTabs *)
Module ExtHostEditorTabs.

(** [this._extHostTabGroups.find(group => group.groupId === groupId)]. *)
Definition has_groupId (groupId : Z) (group : loc) : M bool :=
  id ← ExtHostEditorTabGroup.groupId group; mret (bool_decide (id = groupId)).

Definition find_group (groupId : Z) : M (option loc) :=
  gs ← gets _extHostTabGroups; Array_find (has_groupId groupId) gs.

(** [$acceptEditorTabModel]. *)
Definition acceptEditorTabModel (tabGroups : list IEditorTabGroupDto.t) : M unit :=
  gs ← Array_map ExtHostEditorTabGroup.new tabGroups;
  modify (set_extHostTabGroups gs);;
  activeTabGroupId ← assertIsDefined
    (IEditorTabGroupDto.groupId <$> List.find IEditorTabGroupDto.isActive tabGroups);
  current ← gets _activeGroupId;
  when (bool_decide (current ≠ Some activeTabGroupId))
    (modify (set_activeGroupId (Some activeTabGroupId)));;
  gs ← gets _extHostTabGroups;
  apis ← Array_map ExtHostEditorTabGroup.apiObject gs;
  fire (onDidChangeTabGroups apis).

(** [$acceptTabGroupUpdate]. *)
Definition acceptTabGroupUpdate (groupDto : IEditorTabGroupDto.t) : M unit :=
  found ← find_group (IEditorTabGroupDto.groupId groupDto);
  match found with
  | None => throw UpdateGroupBeforeCreation
  | Some group =>
      ExtHostEditorTabGroup.acceptGroupDtoUpdate group groupDto;;
      when (IEditorTabGroupDto.isActive groupDto)
        (modify (set_activeGroupId (Some (IEditorTabGroupDto.groupId groupDto))));;
      api ← ExtHostEditorTabGroup.apiObject group;
      fire (onDidChangeTabGroups [api])
  end.

(** [$acceptTabOperation]. *)
Definition acceptTabOperation (operation : TabOperation.t) : M unit :=
  found ← find_group (TabOperation.groupId operation);
  match found with
  | None => throw UpdateTabsBeforeCreation
  | Some group =>
      tab ← ExtHostEditorTabGroup.acceptTabOperation group operation;
      if decide (TabOperation.kind operation ≠ TAB_CLOSE) then
        api ← ExtHostEditorTab.apiObject tab;
        fire (onDidChangeTabs [api])
      else mret tt
  end.

(** [tab => tab.apiObject === apiTab], the test of the inner loop. *)
Definition is_apiObject_of_tab (apiTab : loc) (tab : loc) : M (option loc) :=
  api ← ExtHostEditorTab.apiObject tab;
  mret (if bool_decide (api = apiTab) then Some tab else None).

Definition _findExtHostTabFromApi (apiTab : loc) : M (option loc) :=
  gs ← gets _extHostTabGroups;
  for_of_return gs (λ group,
    ts ← ExtHostEditorTabGroup.tabs group;
    for_of_return ts (is_apiObject_of_tab apiTab)).

Definition is_apiObject_of_group (apiTabGroup : loc) (candidate : loc) : M bool :=
  api ← ExtHostEditorTabGroup.apiObject candidate;
  mret (bool_decide (api = apiTabGroup)).

Definition _findExtHostTabGroupFromApi (apiTabGroup : loc) : M (option loc) :=
  gs ← gets _extHostTabGroups;
  Array_find (is_apiObject_of_group apiTabGroup) gs.

(** [_closeTabs].  [reply] is what the promise of [$closeTab] resolves to;
    the main thread decides it. *)
Definition _closeTabs (tabs : list loc) (preserveFocus : option bool) (reply : bool) : M bool :=
  extHostTabIds ← for_of_push tabs (λ tab,
    extHostTab ← _findExtHostTabFromApi tab;
    match extHostTab with
    | None => throw TabCloseInvalidTab
    | Some extHostTab => ExtHostEditorTab.tabId extHostTab
    end) [];
  send (closeTab extHostTabIds preserveFocus);;
  mret reply.

Definition _closeGroups (groups : list loc) (preserveFocus : option bool) (reply : bool) : M bool :=
  extHostGroupIds ← for_of_push groups (λ group,
    extHostGroup ← _findExtHostTabGroupFromApi group;
    match extHostGroup with
    | None => throw GroupCloseInvalidGroup
    | Some extHostGroup => ExtHostEditorTabGroup.groupId extHostGroup
    end) [];
  send (closeGroup extHostGroupIds preserveFocus);;
  mret reply.

(** [isTabGroup]: [obj.tabs !== undefined].  On a group's public object the
    test runs the [tabs] getter. *)
Definition isTabGroup (obj : loc) : M bool :=
  o ← get_object obj;
  match shape o with
  | TabGroupApi _ => ExtHostEditorTabGroup.tabs_getter obj;; mret true
  | TabApi _ | TabGroupsApi => mret false
  | Foreign has_tabs => mret has_tabs
  end.

(** The argument of [close]: one object or an array of them. *)
Inductive CloseArg :=
  | One (o : loc)
  | Many (os : list loc).

Definition close (tabOrTabGroup : CloseArg) (preserveFocus : option bool) (reply : bool) : M bool :=
  let tabsOrTabGroups :=
    match tabOrTabGroup with One o => [o] | Many os => os end in
  match tabsOrTabGroups with
  | [] => mret true
  | first :: _ =>
      isTabGroup first ≫= λ b : bool,
      if b then _closeGroups tabsOrTabGroups preserveFocus reply
      else _closeTabs tabsOrTabGroups preserveFocus reply
  end.

(** [move].  The request carries the view column as given; its conversion
    by typeConverters is not under src. *)
Definition move (tab : loc) (viewColumn : Z) (index : Z) (preserveFocus : option bool) : M unit :=
  extHostTab ← _findExtHostTabFromApi tab;
  match extHostTab with
  | None => throw MoveInvalidTab
  | Some extHostTab =>
      tabId ← ExtHostEditorTab.tabId extHostTab;
      send (moveTab tabId index viewColumn preserveFocus)
  end.

(** [get tabGroups()] and the two getters of the object it returns. *)
Definition tabGroups : M loc :=
  gets _apiObject ≫= λ memo : option loc,
  match memo with
  | Some obj => mret obj
  | None =>
      obj ← fresh;
      put_object obj (Object_freeze {| shape := TabGroupsApi; frozen := false |});;
      modify (set_apiObject (Some obj));;
      mret obj
  end.

Definition groups_getter : M (list loc) :=
  gs ← gets _extHostTabGroups;
  Array_map ExtHostEditorTabGroup.apiObject gs.

Definition activeTabGroup : M loc :=
  activeTabGroupId ← gets _activeGroupId;
  gs ← gets _extHostTabGroups;
  found ← Array_find (λ candidate,
    id ← ExtHostEditorTabGroup.groupId candidate;
    mret (bool_decide (Some id = activeTabGroupId))) gs;
  match found with
  | Some group => api ← ExtHostEditorTabGroup.apiObject group; assertIsDefined (Some api)
  | None => assertIsDefined None
  end.

End ExtHostEditorTabs.

(** ** What extension code and the main thread can do

    The calls that reach the module: the three notifications of the main
    thread, the reads and commands of extension code on the public objects,
    and extension code making an object of its own. *)
Inductive Call :=
  | AcceptEditorTabModel (tabGroups : list IEditorTabGroupDto.t)
  | AcceptTabGroupUpdate (groupDto : IEditorTabGroupDto.t)
  | AcceptTabOperation (operation : TabOperation.t)
  | GetTabGroups
  | GetGroups
  | GetActiveTabGroup
  | CallClose (tabOrTabGroup : ExtHostEditorTabs.CloseArg) (preserveFocus : option bool) (reply : bool)
  | CallMove (tab : loc) (viewColumn index : Z) (preserveFocus : option bool)
  | GetGroupIsActive (obj : loc)
  | GetGroupActiveTab (obj : loc)
  | GetGroupTabs (obj : loc)
  | GetTabIsActive (obj : loc)
  | GetTabGroup (obj : loc)
  | AssignProperty (obj : loc)
  | NewForeignObject (has_tabs : bool).

Definition void {A} (m : M A) : M unit := m;; mret tt.

Definition run (c : Call) : M unit :=
  match c with
  | AcceptEditorTabModel tabGroups => ExtHostEditorTabs.acceptEditorTabModel tabGroups
  | AcceptTabGroupUpdate groupDto => ExtHostEditorTabs.acceptTabGroupUpdate groupDto
  | AcceptTabOperation operation => ExtHostEditorTabs.acceptTabOperation operation
  | GetTabGroups => void ExtHostEditorTabs.tabGroups
  | GetGroups => void ExtHostEditorTabs.groups_getter
  | GetActiveTabGroup => void ExtHostEditorTabs.activeTabGroup
  | CallClose arg preserveFocus reply => void (ExtHostEditorTabs.close arg preserveFocus reply)
  | CallMove tab viewColumn index preserveFocus =>
      ExtHostEditorTabs.move tab viewColumn index preserveFocus
  | GetGroupIsActive obj => void (ExtHostEditorTabGroup.isActive obj)
  | GetGroupActiveTab obj => void (ExtHostEditorTabGroup.activeTab obj)
  | GetGroupTabs obj => void (ExtHostEditorTabGroup.tabs_getter obj)
  | GetTabIsActive obj => void (ExtHostEditorTab.isActive obj)
  | GetTabGroup obj => void (ExtHostEditorTab.group obj)
  | AssignProperty obj => assign_property obj
  | NewForeignObject has_tabs =>
      obj ← fresh;
      put_object obj {| shape := Foreign has_tabs; frozen := false |};;
      mret ()
  end.

(** The states the module can be in: those that calls lead to from the
    state of a new instance, whether a call returned or threw. *)
Inductive reachable : State → Prop :=
  | reachable_initial : reachable initial
  | reachable_step s c : reachable s → reachable (run c s).2.

(** ** Reading the heap *)

(** [arr[i]] for an integer [i]: nothing is at a negative index or past the
    end. *)
Definition at_index {A} (l : list A) (i : Z) : option A :=
  if (i <? 0)%Z then None else l !! Z.to_nat i.

(** What [ts.find(tab => tab.tabId === id)] finds in a tab heap. *)
Fixpoint find_tabId (h : gmap loc Tab.t) (id : string) (ts : list loc) : Outcome (option loc) :=
  match ts with
  | [] => Ok None
  | tab :: ts' =>
      match h !! tab with
      | None => Stuck
      | Some t => if bool_decide (Tab.tabId t = id) then Ok (Some tab) else find_tabId h id ts'
      end
  end.

(** What [gs.find(group => group.groupId === groupId)] finds in a group
    heap. *)
Fixpoint find_groupId (h : gmap loc Group.t) (groupId : Z) (gs : list loc) : Outcome (option loc) :=
  match gs with
  | [] => Ok None
  | group :: gs' =>
      match h !! group with
      | None => Stuck
      | Some g =>
          if bool_decide (Group.groupId g = groupId) then Ok (Some group)
          else find_groupId h groupId gs'
      end
  end.

(** The rule of the update branch for the active tab id: the id before, the
    incoming record, the id after. *)
Definition updated_activeTabId (active : string) (dto : IEditorTabDto.t) : string :=
  if IEditorTabDto.isActive dto then IEditorTabDto.id dto
  else if bool_decide (active = IEditorTabDto.id dto) then ""
  else active.

(** *** What the constructor of a group builds

    The constructor takes the next location for the group and the
    locations after it for the tabs, in the order of [dto.tabs]. *)

(** The tab heap after the loop over [dtos], the first tab going to [n]. *)
Fixpoint alloc_tabs (this : loc) (n : loc) (dtos : list IEditorTabDto.t)
    (h : gmap loc Tab.t) : gmap loc Tab.t :=
  match dtos with
  | [] => h
  | dto :: dtos' => alloc_tabs this (S n) dtos' (<[n := Tab.new dto this this]> h)
  end.

(** The active tab id after the loop: the id of the last record flagged
    active, or what it was before. *)
Definition last_active (active : string) (dtos : list IEditorTabDto.t) : string :=
  foldl (λ a dto, if IEditorTabDto.isActive dto then IEditorTabDto.id dto else a) active dtos.

(** The state after [new ExtHostEditorTabGroup(dto, ...)]. *)
Definition built (dto : IEditorTabGroupDto.t) (s : State) : State :=
  let n := next s in
  let dtos := IEditorTabGroupDto.tabs dto in
  set_groups
    (<[n := Group.mk None dto (seq (S n) (length dtos)) (last_active "" dtos)]> (groups s))
    (set_tabs (alloc_tabs n (S n) dtos (tabs s))
       (set_next (S n + length dtos) s)).

(** The locations of the groups that [tabGroups.map(...)] makes, and the
    state after it. *)
Fixpoint group_locs (n : loc) (tabGroups : list IEditorTabGroupDto.t) : list loc :=
  match tabGroups with
  | [] => []
  | dto :: tabGroups' =>
      n :: group_locs (S n + length (IEditorTabGroupDto.tabs dto)) tabGroups'
  end.

Definition built_all (tabGroups : list IEditorTabGroupDto.t) (s : State) : State :=
  foldl (λ s dto, built dto s) s tabGroups.

(** The group at [group] and its tabs are as the constructor made them from
    [dto], and lie below the next location. *)
Definition built_at (s : State) (group : loc) (dto : IEditorTabGroupDto.t) : Prop :=
  let dtos := IEditorTabGroupDto.tabs dto in
  groups s !! group
    = Some (Group.mk None dto (seq (S group) (length dtos)) (last_active "" dtos))
  ∧ (∀ i tabDto, dtos !! i = Some tabDto →
       tabs s !! (S group + i) = Some (Tab.new tabDto group group))
  ∧ S group + length dtos ≤ next s.

(** A group mirror at [group] that was built from the record [dto]: it
    holds the record, and its tabs hold the tab records, in order. *)
Definition mirrors (s : State) (group : loc) (dto : IEditorTabGroupDto.t) : Prop :=
  ∃ g, groups s !! group = Some g
    ∧ Group._dto g = dto
    ∧ Forall2 (λ tab tabDto, ∃ t, tabs s !! tab = Some t ∧ Tab._dto t = tabDto)
        (Group._tabs g) (IEditorTabGroupDto.tabs dto).

(** ** The example scenario of the specification

    A snapshot of one active group, number 1, whose only tab "a" is active;
    then tab "b" is opened inactive at index 1; then an update marks "a"
    inactive; then the tab at index 0 is closed. *)
Module Scenario.

Definition record (id : string) (isActive : bool) : IEditorTabDto.t :=
  IEditorTabDto.mk id id isActive false false false
    (TextInputDto {| scheme := "file"; authority := ""; path := id; query := ""; fragment := "" |}).

Definition snapshot : list IEditorTabGroupDto.t :=
  [IEditorTabGroupDto.mk true 0 [record "a" true] 1].

Definition open_b : TabOperation.t := TabOperation.mk TAB_OPEN 1 (record "b" false) 1.
Definition update_a : TabOperation.t := TabOperation.mk TAB_UPDATE 0 (record "a" false) 1.
Definition close_0 : TabOperation.t := TabOperation.mk TAB_CLOSE 0 (record "a" false) 1.

Definition after_snapshot : State := (ExtHostEditorTabs.acceptEditorTabModel snapshot initial).2.
Definition after_open : State := (ExtHostEditorTabs.acceptTabOperation open_b after_snapshot).2.
Definition after_update : State := (ExtHostEditorTabs.acceptTabOperation update_a after_open).2.
Definition after_close : State := (ExtHostEditorTabs.acceptTabOperation close_0 after_update).2.

End Scenario.

(** *** What the first read of [apiObject] builds *)

(** The state after the first read of [apiObject] on the tab at [this],
    whose fields are [t]: the frozen object is at the next location and the
    tab remembers it. *)
Definition memo_tab (this : loc) (t : Tab.t) (s : State) : State :=
  set_tabs (<[this := Tab.set_apiObject (Some (next s)) t]> (tabs s))
    (set_objects (<[next s := {| shape := TabApi this; frozen := true |}]> (objects s))
       (set_next (S (next s)) s)).

Definition memo_group (this : loc) (g : Group.t) (s : State) : State :=
  set_groups (<[this := Group.set_apiObject (Some (next s)) g]> (groups s))
    (set_objects (<[next s := {| shape := TabGroupApi this; frozen := true |}]> (objects s))
       (set_next (S (next s)) s)).

(** ** Well-formed states

    What holds of the heap between calls: locations in use lie below the
    next one; the store lists groups that exist; the tabs a group lists
    exist and were made with that group as their parent and as the group
    their [_activeTabIdGetter] asks; a memoized public object is the frozen
    object made for the tab or group that memoizes it. *)
Record wf (s : State) : Prop := {
  wf_tabs_below : ∀ l, is_Some (tabs s !! l) → l < next s;
  wf_groups_below : ∀ l, is_Some (groups s !! l) → l < next s;
  wf_objects_below : ∀ l, is_Some (objects s !! l) → l < next s;
  wf_store : Forall (λ group, is_Some (groups s !! group)) (_extHostTabGroups s);
  wf_group_tabs : ∀ group g, groups s !! group = Some g →
    Forall (λ tab, ∃ t, tabs s !! tab = Some t ∧ Tab._activeTabIdGetter t = group)
      (Group._tabs g);
  wf_tab_group : ∀ tab t, tabs s !! tab = Some t →
    is_Some (groups s !! Tab._activeTabIdGetter t)
    ∧ Tab._parentGroup t = Tab._activeTabIdGetter t;
  wf_tab_api : ∀ tab t api, tabs s !! tab = Some t → Tab._apiObject t = Some api →
    objects s !! api = Some {| shape := TabApi tab; frozen := true |};
  wf_group_api : ∀ group g api, groups s !! group = Some g → Group._apiObject g = Some api →
    objects s !! api = Some {| shape := TabGroupApi group; frozen := true |}
}.

(** ** States that differ by public objects only

    Reading [apiObject] may make a public object and remember it; nothing
    else of the model changes.  [extends s s1]: [s1] is [s] up to public
    objects made since. *)

(** A tab and a group without the memo of their public object. *)
Definition tab_fields (t : Tab.t) : IEditorTabDto.t * option AnyTabInput * loc * loc :=
  (Tab._dto t, Tab._input t, Tab._parentGroup t, Tab._activeTabIdGetter t).

Definition group_fields (g : Group.t) : IEditorTabGroupDto.t * list loc * string :=
  (Group._dto g, Group._tabs g, Group._activeTabId g).

Record extends (s s1 : State) : Prop := {
  ext_next : next s ≤ next s1;
  ext_tabs : ∀ l, tab_fields <$> tabs s1 !! l = tab_fields <$> tabs s !! l;
  ext_groups : ∀ l, group_fields <$> groups s1 !! l = group_fields <$> groups s !! l;
  ext_objects : ∀ l o, objects s !! l = Some o → objects s1 !! l = Some o;
  ext_tab_memo : ∀ l t1 api, tabs s1 !! l = Some t1 → Tab._apiObject t1 = Some api →
    api < next s → ∃ t, tabs s !! l = Some t ∧ Tab._apiObject t = Some api;
  ext_group_memo : ∀ l g1 api, groups s1 !! l = Some g1 → Group._apiObject g1 = Some api →
    api < next s → ∃ g, groups s !! l = Some g ∧ Group._apiObject g = Some api;
  ext_activeGroupId : _activeGroupId s1 = _activeGroupId s;
  ext_extHostTabGroups : _extHostTabGroups s1 = _extHostTabGroups s;
  ext_fired : fired s1 = fired s;
  ext_sent : sent s1 = sent s
}.

(** ** Resolving a public object

    [api] resolves when it is the public object of a tab of a group that
    the store lists, respectively of a group that the store lists.  A stale
    object (of a tab that was closed, or from before a snapshot) and an
    object of extension code's own do not resolve. *)
Definition resolves_tab (s : State) (api : loc) : Prop :=
  ∃ group g tab t,
    group ∈ _extHostTabGroups s ∧ groups s !! group = Some g
    ∧ tab ∈ Group._tabs g ∧ tabs s !! tab = Some t
    ∧ Tab._apiObject t = Some api.

Definition resolves_group (s : State) (api : loc) : Prop :=
  ∃ group g,
    group ∈ _extHostTabGroups s ∧ groups s !! group = Some g
    ∧ Group._apiObject g = Some api.

(** ** What extension code observes *)

(** The [isActive] flags of the tabs of a group, read as extension code
    reads them: the [tabs] of the public object of the group, then
    [isActive] of each. *)
Definition observe_tabs_isActive (groupObj : loc) : M (list bool) :=
  tabObjs ← ExtHostEditorTabGroup.tabs_getter groupObj;
  Array_map ExtHostEditorTab.isActive tabObjs.

(** The [isActive] flags of the groups: [tabGroups.groups], then
    [isActive] of each. *)
Definition observe_groups_isActive : M (list bool) :=
  groupObjs ← ExtHostEditorTabs.groups_getter;
  Array_map ExtHostEditorTabGroup.isActive groupObjs.

(** What the [isActive] getter of the public object of the tab at [tab],
    and of the group at [group], computes in state [s]. *)
Definition tab_reports (s : State) (tab : loc) : option bool :=
  t ← tabs s !! tab;
  g ← groups s !! Tab._activeTabIdGetter t;
  Some (bool_decide (IEditorTabDto.id (Tab._dto t) = Group._activeTabId g)).

Definition group_reports (s : State) (group : loc) : option bool :=
  g ← groups s !! group;
  Some (bool_decide (Some (Group.groupId g) = _activeGroupId s)).

Definition count_true (flags : list bool) : nat :=
  length (filter (λ b, b = true) flags).

(** The ids of the tabs a group lists, and the ids of the groups the store
    lists. *)
Definition tab_ids (s : State) (g : Group.t) : list string :=
  omap (λ tab, Tab.tabId <$> tabs s !! tab) (Group._tabs g).

Definition group_ids (s : State) : list Z :=
  omap (λ group, Group.groupId <$> groups s !! group) (_extHostTabGroups s).

(** ** Reads

    [grows s s1]: [s1] is [s] up to public objects made since, and a tab or
    a group that remembers its public object in [s] remembers the same one
    in [s1]. *)
Record grows (s s1 : State) : Prop := {
  grows_extends : extends s s1;
  grows_tab_memo : ∀ l t api, tabs s !! l = Some t → Tab._apiObject t = Some api →
    ∃ t1, tabs s1 !! l = Some t1 ∧ Tab._apiObject t1 = Some api;
  grows_group_memo : ∀ l g api, groups s !! l = Some g → Group._apiObject g = Some api →
    ∃ g1, groups s1 !! l = Some g1 ∧ Group._apiObject g1 = Some api
}.

(** The calls that read: the getters of the public objects. *)
Definition is_read (c : Call) : bool :=
  match c with
  | GetTabGroups | GetGroups | GetActiveTabGroup
  | GetGroupIsActive _ | GetGroupActiveTab _ | GetGroupTabs _
  | GetTabIsActive _ | GetTabGroup _ => true
  | _ => false
  end.

(** The notifications of the main thread. *)
Definition is_notification (c : Call) : bool :=
  match c with
  | AcceptEditorTabModel _ | AcceptTabGroupUpdate _ | AcceptTabOperation _ => true
  | _ => false
  end.

(** No group lists a tab twice. *)
Definition nodup_tabs (s : State) : Prop :=
  ∀ group g, groups s !! group = Some g → NoDup (Group._tabs g).

(** Every group of [s1] is a group of [s] with the same list of tabs. *)
Definition tabs_kept (s s1 : State) : Prop :=
  ∀ group g1, groups s1 !! group = Some g1 →
    ∃ g, groups s !! group = Some g ∧ Group._tabs g1 = Group._tabs g.

(** The objects that the module makes, as against those of extension
    code. *)
Definition made_by_module (o : ApiObject) : bool :=
  match shape o with Foreign _ => false | _ => true end.

(** ** Predicates on computations *)

(** [inv I m]: running [m] keeps [I], whatever the outcome. *)
Definition inv {A} (I : State → Prop) (m : M A) : Prop :=
  ∀ s, I s → I (m s).2.

(** [wp m Q s]: the outcome and final state of [m] from [s] satisfy [Q]. *)
Definition wp {A} (m : M A) (Q : Outcome A → State → Prop) (s : State) : Prop :=
  Q (m s).1 (m s).2.

(** ** Reasoning about computations *)

Section rules.
Context {A B : Type}.
Implicit Types (I : State → Prop) (m : M A) (f : A → M B).

Lemma inv_ret I (a : A) : inv I (mret a : M A).
Proof. by intros s. Qed.

Lemma inv_bind I m f : inv I m → (∀ a, inv I (f a)) → inv I (m ≫= f).
Proof.
  intros Hm Hf s Hs. specialize (Hm s Hs).
  unfold mbind, M_bind. destruct (m s) as [[a|e|] s1]; simpl in *; auto.
  by apply Hf.
Qed.

Lemma inv_throw I e : inv I (throw e : M A).
Proof. by intros s. Qed.

Lemma inv_stuck I : inv I (stuck : M A).
Proof. by intros s. Qed.

Lemma inv_gets I (g : State → A) : inv I (gets g).
Proof. by intros s. Qed.

Lemma inv_deref I (g : State → option A) : inv I (deref g).
Proof. intros s Hs. unfold deref. by destruct (g s). Qed.

Lemma wp_ret (a : A) Q s : Q (Ok a) s → wp (mret a : M A) Q s.
Proof. done. Qed.

Lemma wp_bind m f (Q : Outcome B → State → Prop) s :
  wp m (λ r s1, match r with
                | Ok a => wp (f a) Q s1
                | Throw e => Q (Throw e) s1
                | Stuck => Q Stuck s1
                end) s →
  wp (m ≫= f) Q s.
Proof.
  unfold wp, mbind, M_bind. by destruct (m s) as [[a|e|] s1].
Qed.

Lemma wp_wand m (Q Q' : Outcome A → State → Prop) s :
  wp m Q s → (∀ r s1, Q r s1 → Q' r s1) → wp m Q' s.
Proof. unfold wp. auto. Qed.

Lemma wp_deref (g : State → option A) Q s :
  match g s with Some a => Q (Ok a) s | None => Q Stuck s end →
  wp (deref g) Q s.
Proof. unfold wp, deref. by destruct (g s). Qed.

Lemma bind_Ok m f s a s1 : m s = (Ok a, s1) → (m ≫= f) s = f a s1.
Proof. unfold mbind, M_bind. by intros ->. Qed.

Lemma bind_Throw m f s e s1 : m s = (Throw e, s1) → (m ≫= f) s = (Throw e, s1).
Proof. unfold mbind, M_bind. by intros ->. Qed.

Lemma bind_Stuck m f s s1 : m s = (Stuck, s1) → (m ≫= f) s = (Stuck, s1).
Proof. unfold mbind, M_bind. by intros ->. Qed.

(** A bind that returned went through a first part that returned. *)
Lemma bind_Ok_inv m f s b s2 :
  (m ≫= f) s = (Ok b, s2) → ∃ a s1, m s = (Ok a, s1) ∧ f a s1 = (Ok b, s2).
Proof.
  unfold mbind, M_bind. destruct (m s) as [[a|e|] s1]; [eauto | done | done].
Qed.

End rules.

Lemma inv_modify I (f : State → State) : (∀ s, I s → I (f s)) → inv I (modify f).
Proof. intros H s Hs. by apply H. Qed.

Lemma inv_fresh I : (∀ s, I s → I (set_next (S (next s)) s)) → inv I fresh.
Proof. intros H s Hs. by apply H. Qed.

Lemma inv_when I b m : inv I m → inv I (when b m).
Proof. destruct b; [done | by intros _ s]. Qed.

Lemma inv_for_of {A} I (l : list A) body :
  (∀ x, inv I (body x)) → inv I (for_of l body).
Proof.
  intros H. induction l as [|x l IH]; simpl; [by intros s | ].
  apply inv_bind; auto.
Qed.

Lemma inv_Array_map {A B} I (f : A → M B) l :
  (∀ x, inv I (f x)) → inv I (Array_map f l).
Proof.
  intros H. induction l as [|x l IH]; simpl; [by intros s | ].
  apply inv_bind; [done | intros y].
  apply inv_bind; [done | intros ys]. apply inv_ret.
Qed.

Lemma inv_Array_find {A} I (p : A → M bool) l :
  (∀ x, inv I (p x)) → inv I (Array_find p l).
Proof.
  intros H. induction l as [|x l IH]; simpl; [by intros s | ].
  apply inv_bind; [done | intros [|]]; [apply inv_ret | done].
Qed.

Lemma inv_for_of_return {A B} I (l : list A) (body : A → M (option B)) :
  (∀ x, inv I (body x)) → inv I (for_of_return l body).
Proof.
  intros H. induction l as [|x l IH]; simpl; [by intros s | ].
  apply inv_bind; [done | intros [b|]]; [apply inv_ret | done].
Qed.

Lemma inv_for_of_push {A B} I (l : list A) (f : A → M B) acc :
  (∀ x, inv I (f x)) → inv I (for_of_push l f acc).
Proof.
  intros H. revert acc. induction l as [|x l IH]; intros acc; simpl; [by intros s | ].
  apply inv_bind; [done | intros y]. apply IH.
Qed.

Lemma wp_eq {A} (m : M A) s x : wp m (λ r s1, (r, s1) = x) s → m s = x.
Proof. unfold wp. by destruct (m s). Qed.

Lemma wp_run {A} (m : M A) Q s r s1 : wp m Q s → m s = (r, s1) → Q r s1.
Proof. unfold wp. intros H E. by rewrite E in H. Qed.

Lemma inv_of_wp {A} (I : State → Prop) (m : M A) :
  (∀ s, I s → wp m (λ _ s1, I s1) s) → inv I m.
Proof. done. Qed.

Lemma wp_of_inv {A} (I : State → Prop) (m : M A) s :
  inv I m → I s → wp m (λ _ s1, I s1) s.
Proof. intros H. apply H. Qed.

(** The form used to take apart a run that is known to have happened. *)
Lemma wp_inv {A} (m : M A) s r s1 (P : Prop) :
  wp m (λ r' s', (r', s') = (r, s1) → P) s → m s = (r, s1) → P.
Proof. unfold wp. intros H E. rewrite E in H. by apply H. Qed.

Lemma wp_of_run {A} (m : M A) (Q : Outcome A → State → Prop) s r s1 :
  m s = (r, s1) → Q r s1 → wp m Q s.
Proof. unfold wp. by intros ->. Qed.

Lemma wp_gets {A} (g : State → A) Q s : Q (Ok (g s)) s → wp (gets g) Q s.
Proof. done. Qed.

Lemma wp_modify f Q s : Q (Ok ()) (f s) → wp (modify f) Q s.
Proof. done. Qed.

Lemma wp_fresh Q s : Q (Ok (next s)) (set_next (S (next s)) s) → wp fresh Q s.
Proof. done. Qed.

Lemma wp_throw {A} e Q s : Q (Throw e) s → wp (throw e : M A) Q s.
Proof. done. Qed.

Lemma wp_stuck {A} Q s : Q Stuck s → wp (stuck : M A) Q s.
Proof. done. Qed.

Lemma wp_when (b : bool) m Q s :
  (if b then wp m Q s else Q (Ok ()) s) → wp (when b m) Q s.
Proof. by destruct b. Qed.

(** Runs a goal [wp m Q s] forward through the binds and the primitives of
    [m]; a read of the heap is looked up in the hypotheses or split in two
    cases. *)
Ltac wp_lookup :=
  cbn;
  repeat first [ rewrite lookup_insert_eq | rewrite lookup_insert_ne by (done || lia) ];
  lazymatch goal with
  | H : ?x = _ |- match ?x with _ => _ end => rewrite H
  | |- match ?x with _ => _ end => destruct x eqn:?
  | _ => idtac
  end.

Ltac wp_step :=
  lazymatch goal with
  | |- wp (mbind _ _) _ _ => apply wp_bind
  | |- wp (mret _) _ _ => apply wp_ret
  | |- wp (gets _) _ _ => apply wp_gets
  | |- wp (modify _) _ _ => apply wp_modify
  | |- wp fresh _ _ => apply wp_fresh
  | |- wp (throw _) _ _ => apply wp_throw
  | |- wp stuck _ _ => apply wp_stuck
  | |- wp (deref _) _ _ => apply wp_deref; wp_lookup
  | |- wp (when _ _) _ _ => apply wp_when
  | |- wp (get_tab _) _ _ => unfold get_tab
  | |- wp (put_tab _ _) _ _ => unfold put_tab
  | |- wp (get_group _) _ _ => unfold get_group
  | |- wp (put_group _ _) _ _ => unfold put_group
  | |- wp (update_group _ _) _ _ => unfold update_group
  | |- wp (get_object _) _ _ => unfold get_object
  | |- wp (put_object _ _) _ _ => unfold put_object
  | |- wp (activeTabId _) _ _ => unfold activeTabId
  | |- wp (fire _) _ _ => unfold fire
  | |- wp (send _) _ _ => unfold send
  | |- wp (ExtHostEditorTab.tabId _) _ _ => unfold ExtHostEditorTab.tabId
  | |- wp (ExtHostEditorTab.acceptDtoUpdate _ _) _ _ => unfold ExtHostEditorTab.acceptDtoUpdate
  | |- wp (ExtHostEditorTabGroup.tabs _) _ _ => unfold ExtHostEditorTabGroup.tabs
  | |- wp (ExtHostEditorTabGroup.groupId _) _ _ => unfold ExtHostEditorTabGroup.groupId
  | |- wp (let _ := _ in _) _ _ => cbv zeta
  | |- wp (match _ with _ => _ end) _ _ => progress cbn
  end.

Ltac wp_go := repeat wp_step.

(** Uses a known run [H : m s = (r, s1)] for the computation at the head of
    the goal. *)
Tactic Notation "wp_use" uconstr(H) :=
  eapply wp_of_run; [ apply H | cbv beta iota ].
Tactic Notation "wp_use" uconstr(H) "by" tactic(tac) :=
  eapply wp_of_run; [ apply H; tac | cbv beta iota ].

(** Making an object: the write goes to the location that [fresh] gave. *)
Lemma inv_alloc_object {A} I (O : loc → ApiObject) (rest : loc → M A) :
  (∀ s, I s → I (set_objects (<[next s := O (next s)]> (objects s)) (set_next (S (next s)) s))) →
  (∀ obj, inv I (rest obj)) →
  inv I (fresh ≫= λ obj, put_object obj (O obj) ≫= λ _, rest obj).
Proof.
  intros Hput Hrest s Hs. unfold mbind, M_bind. cbn.
  apply Hrest. by apply Hput.
Qed.

(** Takes a goal [inv I m] apart along the structure of [m]; what is left
    are the writes, as goals [I s → I (f s)]. *)
Ltac inv_step :=
  lazymatch goal with
  | |- inv _ (mret _) => apply inv_ret
  | |- inv _ (throw _) => apply inv_throw
  | |- inv _ stuck => apply inv_stuck
  | |- inv _ (gets _) => apply inv_gets
  | |- inv _ (deref _) => apply inv_deref
  | |- inv _ (mbind _ fresh) =>
      first [ apply inv_alloc_object; [ intros ? ? | intros ? ]
            | apply inv_bind; [ | intros ? ] ]
  | |- inv _ (mbind _ _) => apply inv_bind; [ | intros ? ]
  | |- inv _ (put_object _ _) => unfold put_object
  | |- inv _ (when _ _) => apply inv_when
  | |- inv _ (for_of _ _) => apply inv_for_of; intros ?
  | |- inv _ (Array_map _ _) => apply inv_Array_map; intros ?
  | |- inv _ (Array_find _ _) => apply inv_Array_find; intros ?
  | |- inv _ (for_of_return _ _) => apply inv_for_of_return; intros ?
  | |- inv _ (for_of_push _ _ _) => apply inv_for_of_push; intros ?
  | |- inv _ (modify _) => apply inv_modify; intros ? ?
  | |- inv _ fresh => apply inv_fresh; intros ? ?
  | |- inv _ (match ?x with _ => _ end) => destruct x
  | |- inv _ (let _ := _ in _) => cbv zeta
  end.

Ltac inv_unfold :=
  unfold void, run,
    ExtHostEditorTabs.acceptEditorTabModel, ExtHostEditorTabs.acceptTabGroupUpdate,
    ExtHostEditorTabs.acceptTabOperation, ExtHostEditorTabs.find_group,
    ExtHostEditorTabs.has_groupId, ExtHostEditorTabs._findExtHostTabFromApi,
    ExtHostEditorTabs.is_apiObject_of_tab, ExtHostEditorTabs._findExtHostTabGroupFromApi,
    ExtHostEditorTabs.is_apiObject_of_group, ExtHostEditorTabs._closeTabs,
    ExtHostEditorTabs._closeGroups, ExtHostEditorTabs.isTabGroup, ExtHostEditorTabs.close,
    ExtHostEditorTabs.move, ExtHostEditorTabs.tabGroups, ExtHostEditorTabs.groups_getter,
    ExtHostEditorTabs.activeTabGroup,
    ExtHostEditorTabGroup.new, ExtHostEditorTabGroup.apiObject, ExtHostEditorTabGroup.groupId,
    ExtHostEditorTabGroup.tabs, ExtHostEditorTabGroup.acceptGroupDtoUpdate,
    ExtHostEditorTabGroup.has_tabId, ExtHostEditorTabGroup.acceptTabOperation,
    ExtHostEditorTabGroup.that, ExtHostEditorTabGroup.isActive,
    ExtHostEditorTabGroup.activeTab, ExtHostEditorTabGroup.tabs_getter,
    ExtHostEditorTab.new, ExtHostEditorTab.apiObject, ExtHostEditorTab.tabId,
    ExtHostEditorTab.acceptDtoUpdate, ExtHostEditorTab.that, ExtHostEditorTab.isActive,
    ExtHostEditorTab.group,
    Group_apiObject, activeTabId, assertIsDefined, fire, send,
    get_tab, put_tab, get_group, put_group, update_group, get_object, assign_property.

Ltac inv_tac := repeat first [ inv_step | progress inv_unfold ].

(** *** What a call leaves alone *)

(** Locations are handed out in increasing order. *)
Lemma next_mono c n : inv (λ s, n ≤ next s) (run c).
Proof. destruct c; inv_tac; simpl; lia. Qed.

(** ** Tab kinds *)

(** C9: [_initInput] is a total mapping from the input descriptor of the
    backing record to the public kind.  Each of the seven known tags gives
    the constructor of that kind applied to the fields of the descriptor
    (resource locators revived), and every other tag gives undefined; no
    case fails. *)
Theorem initInput_total (this : Tab.t) :
  let input := IEditorTabDto.input (Tab._dto this) in
  match kind input with
  | TextInput =>
      ∃ uri, input = TextInputDto uri
        ∧ Tab._initInput this = Some (TextTabInput (URI_revive uri))
  | TextDiffInput =>
      ∃ original modified, input = TextDiffInputDto original modified
        ∧ Tab._initInput this
          = Some (TextDiffTabInput (URI_revive original) (URI_revive modified))
  | CustomEditorInput =>
      ∃ uri viewType, input = CustomEditorInputDto uri viewType
        ∧ Tab._initInput this = Some (CustomEditorTabInput (URI_revive uri) viewType)
  | WebviewEditorInput =>
      ∃ viewType, input = WebviewEditorInputDto viewType
        ∧ Tab._initInput this = Some (WebviewEditorTabInput viewType)
  | NotebookInput =>
      ∃ uri notebookType, input = NotebookInputDto uri notebookType
        ∧ Tab._initInput this = Some (NotebookEditorTabInput (URI_revive uri) notebookType)
  | NotebookDiffInput =>
      ∃ original modified notebookType,
        input = NotebookDiffInputDto original modified notebookType
        ∧ Tab._initInput this
          = Some (NotebookDiffEditorTabInput (URI_revive original) (URI_revive modified)
                    notebookType)
  | TerminalEditorInput =>
      input = TerminalEditorInputDto ∧ Tab._initInput this = Some TerminalEditorTabInput
  | OtherInputKind _ => Tab._initInput this = None
  end.
Proof.
  unfold Tab._initInput. cbv zeta.
  destruct (IEditorTabDto.input (Tab._dto this)); simpl; eauto 8.
Qed.

(** ** Finding a tab by id *)


(** ** Finding a tab by id *)

Lemma Array_find_has_tabId id ts s :
  Array_find (ExtHostEditorTabGroup.has_tabId id) ts s = (find_tabId (tabs s) id ts, s).
Proof.
  apply wp_eq. induction ts as [|tab ts IH]; simpl; [done | ].
  unfold ExtHostEditorTabGroup.has_tabId. wp_go; [ | done].
  by case_bool_decide.
Qed.

Lemma find_tabId_Some h id ts tab :
  find_tabId h id ts = Ok (Some tab) →
  tab ∈ ts ∧ ∃ t, h !! tab = Some t ∧ Tab.tabId t = id.
Proof.
  induction ts as [|x ts IH]; simpl; [done | ].
  destruct (h !! x) as [t|] eqn:Hx; [ | done].
  case_bool_decide as Hid.
  - intros [= <-]. split; [left | eauto].
  - intros H. destruct (IH H) as [? ?]. split; [by right | done].
Qed.

(** Replacing a record by one with the same id changes no search by id. *)
Lemma find_tabId_insert h id ts tab t t' :
  h !! tab = Some t → Tab.tabId t' = Tab.tabId t →
  find_tabId (<[tab := t']> h) id ts = find_tabId h id ts.
Proof.
  intros Ht Hid. induction ts as [|x ts IH]; simpl; [done | ].
  destruct (decide (tab = x)) as [<-|Hne].
  - rewrite lookup_insert_eq, Ht, Hid. by rewrite IH.
  - rewrite lookup_insert_ne by done. by rewrite IH.
Qed.

(** ** Writing a value that is already there *)

Lemma set_groups_id s l g : groups s !! l = Some g → set_groups (<[l := g]> (groups s)) s = s.
Proof. intros H. unfold set_groups. rewrite insert_id by done. by destruct s. Qed.

Lemma set_activeTabId_id g : Group.set_activeTabId (Group._activeTabId g) g = g.
Proof. by destruct g. Qed.

Lemma set_tabs_id g : Group.set_tabs (Group._tabs g) g = g.
Proof. by destruct g. Qed.

Lemma updated_activeTabId_twice active dto :
  IEditorTabDto.isActive dto = false →
  updated_activeTabId (updated_activeTabId active dto) dto = updated_activeTabId active dto.
Proof.
  unfold updated_activeTabId. intros ->.
  repeat case_bool_decide; congruence.
Qed.

Lemma acceptDtoUpdate_twice dto t :
  Tab.acceptDtoUpdate dto (Tab.acceptDtoUpdate dto t) = Tab.acceptDtoUpdate dto t.
Proof. done. Qed.

(** ** The update branch of [acceptTabOperation] of a group *)

(** The whole effect of an update on a group that has the tab: the record
    of the tab is replaced and the active tab id follows
    [updated_activeTabId]. *)
Lemma acceptTabOperation_update this operation s g tab t :
  TabOperation.kind operation = TAB_UPDATE →
  groups s !! this = Some g →
  let dto := TabOperation.tabDto operation in
  find_tabId (tabs s) (IEditorTabDto.id dto) (Group._tabs g) = Ok (Some tab) →
  tabs s !! tab = Some t →
  ExtHostEditorTabGroup.acceptTabOperation this operation s =
    (Ok tab,
     set_tabs (<[tab := Tab.acceptDtoUpdate dto t]> (tabs s))
       (set_groups
          (<[this := Group.set_activeTabId
                       (updated_activeTabId (Group._activeTabId g) dto) g]> (groups s))
          s)).
Proof.
  intros Hkind Hg dto Hfind Ht. apply wp_eq.
  unfold ExtHostEditorTabGroup.acceptTabOperation. rewrite Hkind.
  do 2 (case_decide; [done | ]). fold dto.
  wp_go. eapply wp_of_run; [apply Array_find_has_tabId | ]. simpl. rewrite Hfind.
  wp_go. unfold updated_activeTabId.
  destruct (IEditorTabDto.isActive dto); simpl.
  - by wp_go.
  - case_bool_decide; simpl.
    + by wp_go.
    + wp_go. by rewrite set_activeTabId_id, set_groups_id.
Qed.

(** An update is accepted exactly when the group has a tab with that id. *)
Lemma acceptTabOperation_update_Ok this operation s g tab s1 :
  TabOperation.kind operation = TAB_UPDATE →
  groups s !! this = Some g →
  ExtHostEditorTabGroup.acceptTabOperation this operation s = (Ok tab, s1) →
  find_tabId (tabs s) (IEditorTabDto.id (TabOperation.tabDto operation)) (Group._tabs g)
    = Ok (Some tab).
Proof.
  intros Hkind Hg. apply wp_inv.
  unfold ExtHostEditorTabGroup.acceptTabOperation. rewrite Hkind.
  do 2 (case_decide; [done | ]).
  wp_go. eapply wp_of_run; [apply Array_find_has_tabId | ]. simpl.
  destruct (find_tabId _ _ _) as [[tab'|]| |] eqn:Hfind; try done.
  destruct (find_tabId_Some _ _ _ _ Hfind) as (_ & t & Ht & _).
  wp_go.
  destruct (IEditorTabDto.isActive _); simpl; [ | case_bool_decide; simpl ].
  all: wp_go; congruence.
Qed.

(** What an accepted update does to the active tab id, and that an
    inactive record can be applied again without effect. *)
Lemma accepted_update_active this operation s g tab s1 :
  TabOperation.kind operation = TAB_UPDATE →
  groups s !! this = Some g →
  ExtHostEditorTabGroup.acceptTabOperation this operation s = (Ok tab, s1) →
  let dto := TabOperation.tabDto operation in
  (∃ g1, groups s1 !! this = Some g1
     ∧ (IEditorTabDto.isActive dto = true →
        Group._activeTabId g1 = IEditorTabDto.id dto)
     ∧ (IEditorTabDto.isActive dto = false →
        Group._activeTabId g = IEditorTabDto.id dto →
        Group._activeTabId g1 = "")
     ∧ (IEditorTabDto.isActive dto = false →
        Group._activeTabId g ≠ IEditorTabDto.id dto →
        Group._activeTabId g1 = Group._activeTabId g))
  ∧ (IEditorTabDto.isActive dto = false →
     ExtHostEditorTabGroup.acceptTabOperation this operation s1 = (Ok tab, s1)).
Proof.
  intros Hkind Hg Hrun dto.
  pose proof (acceptTabOperation_update_Ok _ _ _ _ _ _ Hkind Hg Hrun) as Hfind.
  destruct (find_tabId_Some _ _ _ _ Hfind) as (_ & t & Ht & Hid).
  rewrite (acceptTabOperation_update _ _ _ _ _ _ Hkind Hg Hfind Ht) in Hrun.
  injection Hrun as <-. fold dto in Hfind, Hid |- *.
  set (g1 := Group.set_activeTabId (updated_activeTabId (Group._activeTabId g) dto) g).
  set (t1 := Tab.acceptDtoUpdate dto t).
  split.
  - exists g1. split; [apply lookup_insert_eq | ].
    unfold g1, updated_activeTabId. simpl.
    repeat split; intros Hact; rewrite Hact; [done | | ]; intros Hactive.
    + by rewrite bool_decide_eq_true_2.
    + by rewrite bool_decide_eq_false_2.
  - intros Hact.
    rewrite (acceptTabOperation_update _ _ _ g1 tab t1 Hkind).
    + fold dto. simpl.
      rewrite !insert_insert_eq. unfold g1 at 1. simpl.
      rewrite updated_activeTabId_twice by done. done.
    + apply lookup_insert_eq.
    + fold dto. simpl. by erewrite find_tabId_insert.
    + apply lookup_insert_eq.
Qed.

(** ** Splicing *)

Lemma relative_start_past_end len start :
  (Z.of_nat len ≤ start)%Z → relative_start len start = len.
Proof.
  unfold relative_start. intros H.
  destruct (start <? 0)%Z eqn:E; [apply Z.ltb_lt in E | apply Z.ltb_ge in E]; lia.
Qed.

Lemma relative_start_le len start : relative_start len start ≤ len.
Proof.
  unfold relative_start.
  destruct (start <? 0)%Z eqn:E; [apply Z.ltb_lt in E | apply Z.ltb_ge in E]; lia.
Qed.

Lemma splice_past_end {A} (l : list A) start deleteCount :
  (Z.of_nat (length l) ≤ start)%Z → splice l start deleteCount [] = ([], l).
Proof.
  intros H. unfold splice. cbv zeta. rewrite relative_start_past_end by done.
  rewrite !drop_ge by lia. rewrite take_nil, take_ge by lia.
  simpl. by rewrite app_nil_r.
Qed.

(** ** The close branch of [acceptTabOperation] of a group *)

(** A close at an index at or past the end of the tab list throws and
    leaves the state as it was. *)
Lemma close_past_end_throws this operation s g :
  TabOperation.kind operation = TAB_CLOSE →
  groups s !! this = Some g →
  (Z.of_nat (length (Group._tabs g)) ≤ TabOperation.index operation)%Z →
  ExtHostEditorTabGroup.acceptTabOperation this operation s
    = (Throw (TabCloseIndexDoesNotExist (TabOperation.index operation)), s).
Proof.
  intros Hkind Hg Hindex. apply wp_eq.
  unfold ExtHostEditorTabGroup.acceptTabOperation. rewrite Hkind.
  case_decide; [done | ]. case_decide; [ | done].
  wp_go. rewrite splice_past_end by done. simpl.
  wp_go. by rewrite set_tabs_id, set_groups_id.
Qed.

(** C7, at the input where the code departs from it: the group at location
    0 has the tabs at locations 1 and 3, and nothing is at index -1 of that
    list; a close at index -1 does not throw but removes the last tab. *)
Theorem close_negative_index_removes_last :
  let operation := TabOperation.mk TAB_CLOSE (-1) (Scenario.record "" false) 1 in
  ∃ g s1 g1,
    groups Scenario.after_open !! 0 = Some g
    ∧ Group._tabs g = [1; 3]
    ∧ at_index (Group._tabs g) (TabOperation.index operation) = None
    ∧ ExtHostEditorTabGroup.acceptTabOperation 0 operation Scenario.after_open = (Ok 3, s1)
    ∧ groups s1 !! 0 = Some g1
    ∧ Group._tabs g1 = [1].
Proof.
  intros operation.
  eexists _, (ExtHostEditorTabGroup.acceptTabOperation 0 operation Scenario.after_open).2, _.
  vm_compute. repeat split; reflexivity.
Qed.

(** ** What the parts of [$acceptTabOperation] leave alone *)

Lemma find_group_reads groupId s0 : inv (eq s0) (ExtHostEditorTabs.find_group groupId).
Proof. inv_tac. Qed.

Lemma group_acceptTabOperation_fired this operation es :
  inv (λ s, fired s = es) (ExtHostEditorTabGroup.acceptTabOperation this operation).
Proof. inv_tac; done. Qed.

Lemma tab_apiObject_fired this es : inv (λ s, fired s = es) (ExtHostEditorTab.apiObject this).
Proof. inv_tac; done. Qed.

(** C3: when [$acceptTabOperation] accepts a close, the tabs-changed
    emitter does not fire; when it accepts an open or an update, the emitter
    fires exactly once, with the public object of the projection that the
    group returned for the operation. *)
Theorem tabs_changed_unless_close operation s s1 :
  ExtHostEditorTabs.acceptTabOperation operation s = (Ok (), s1) →
  if decide (TabOperation.kind operation = TAB_CLOSE) then fired s1 = fired s
  else
    ∃ group tab s2 api s3,
      ExtHostEditorTabs.find_group (TabOperation.groupId operation) s = (Ok (Some group), s)
      ∧ ExtHostEditorTabGroup.acceptTabOperation group operation s = (Ok tab, s2)
      ∧ ExtHostEditorTab.apiObject tab s2 = (Ok api, s3)
      ∧ fired s1 = fired s ++ [onDidChangeTabs [api]].
Proof.
  unfold ExtHostEditorTabs.acceptTabOperation. intros Hrun.
  apply bind_Ok_inv in Hrun as (found & s0 & Hfind & Hrun).
  pose proof (find_group_reads (TabOperation.groupId operation) s s eq_refl) as Hs.
  rewrite Hfind in Hs. simpl in Hs. subst s0.
  destruct found as [group|]; [ | done].
  apply bind_Ok_inv in Hrun as (tab & s2 & Hop & Hrun).
  pose proof (group_acceptTabOperation_fired group operation _ s eq_refl) as Hfired2.
  rewrite Hop in Hfired2. simpl in Hfired2.
  destruct (decide (TabOperation.kind operation = TAB_CLOSE)) as [Hkind|Hkind].
  - rewrite decide_False in Hrun by auto. by injection Hrun as <-.
  - rewrite decide_True in Hrun by done.
    apply bind_Ok_inv in Hrun as (api & s3 & Hapi & Hrun).
    pose proof (tab_apiObject_fired tab _ s2 eq_refl) as Hfired3.
    rewrite Hapi in Hfired3. simpl in Hfired3.
    injection Hrun as <-. simpl.
    exists group, tab, s2, api, s3. by rewrite Hfired3, Hfired2.
Qed.

(** C3 at the open and at the close of the example. *)
Lemma tabs_changed_unless_close_witness :
  (∃ group tab s2 api s3,
     ExtHostEditorTabs.find_group 1 Scenario.after_snapshot
       = (Ok (Some group), Scenario.after_snapshot)
     ∧ ExtHostEditorTabGroup.acceptTabOperation group Scenario.open_b Scenario.after_snapshot
       = (Ok tab, s2)
     ∧ ExtHostEditorTab.apiObject tab s2 = (Ok api, s3)
     ∧ fired Scenario.after_open = fired Scenario.after_snapshot ++ [onDidChangeTabs [api]])
  ∧ fired Scenario.after_close = fired Scenario.after_update.
Proof.
  split.
  - apply (tabs_changed_unless_close Scenario.open_b Scenario.after_snapshot
      Scenario.after_open).
    vm_compute. reflexivity.
  - apply (tabs_changed_unless_close Scenario.close_0 Scenario.after_update
      Scenario.after_close).
    vm_compute. reflexivity.
Defined.

(** C4 as stated fails: the close of the example fires nothing, so the
    events after it are not the events before it followed by a tabs-changed
    event. *)
Lemma scenario_close_fires_no_tabs_changed :
  ¬ ∃ api, fired Scenario.after_close = fired Scenario.after_update ++ [onDidChangeTabs [api]].
Proof. intros [api H]. vm_compute in H. discriminate H. Qed.

(** C4, amended: in the example the close at index 0 is accepted and leaves
    the group with the single tab "b"; it fires neither the tabs-changed nor
    the groups-changed event. *)
Theorem scenario_close :
  ExtHostEditorTabs.acceptTabOperation Scenario.close_0 Scenario.after_update
    = (Ok (), Scenario.after_close)
  ∧ _extHostTabGroups Scenario.after_close = [0]
  ∧ (∃ g t, groups Scenario.after_close !! 0 = Some g
       ∧ Group._tabs g = [3]
       ∧ tabs Scenario.after_close !! 3 = Some t
       ∧ Tab.tabId t = "b")
  ∧ fired Scenario.after_close = fired Scenario.after_update.
Proof.
  split; [by vm_compute | ]. split; [by vm_compute | ]. split; [ | by vm_compute].
  eexists _, _. vm_compute. repeat split; reflexivity.
Qed.

(** ** The constructor of a group *)

Lemma State_eta s :
  mkState (next s) (tabs s) (groups s) (objects s) (_activeGroupId s)
    (_extHostTabGroups s) (_apiObject s) (fired s) (sent s) = s.
Proof. by destruct s. Qed.

(** The loop of the constructor, from a state that has the group. *)
Lemma new_group_loop this dtos : ∀ s g,
  groups s !! this = Some g →
  for_of dtos (λ tabDto,
    when (IEditorTabDto.isActive tabDto)
      (update_group this (Group.set_activeTabId (IEditorTabDto.id tabDto)));;
    tab ← ExtHostEditorTab.new tabDto this this;
    update_group this (λ g, Group.set_tabs (Group._tabs g ++ [tab]) g)) s
  = (Ok (),
     set_groups
       (<[this := Group.mk (Group._apiObject g) (Group._dto g)
                    (Group._tabs g ++ seq (next s) (length dtos))
                    (last_active (Group._activeTabId g) dtos)]> (groups s))
       (set_tabs (alloc_tabs this (next s) dtos (tabs s))
          (set_next (next s + length dtos) s))).
Proof.
  induction dtos as [|dto dtos IH]; intros s g Hg.
  - simpl. unfold mret, M_ret. f_equal.
    rewrite app_nil_r, Nat.add_0_r. unfold set_groups, set_tabs, set_next. simpl.
    rewrite insert_id; [symmetry; apply State_eta | by destruct g].
  - apply wp_eq. cbn [for_of]. unfold ExtHostEditorTab.new.
    destruct (IEditorTabDto.isActive dto) eqn:Hact; wp_go.
    all: (eapply wp_of_run; [apply IH; cbn; apply lookup_insert_eq | ]).
    all: f_equal; unfold set_groups, set_tabs, set_next; cbn.
    all: rewrite !insert_insert_eq, Hact, <- app_assoc.
    all: by rewrite Nat.add_succ_r.
Qed.

Lemma new_group dto s :
  ExtHostEditorTabGroup.new dto s = (Ok (next s), built dto s).
Proof.
  apply wp_eq. unfold ExtHostEditorTabGroup.new. wp_go.
  wp_use new_group_loop by (cbn; apply lookup_insert_eq).
  wp_go. f_equal. unfold built, set_groups, set_tabs, set_next. cbn.
  by rewrite insert_insert_eq.
Qed.

Lemma new_groups tabGroups : ∀ s,
  Array_map ExtHostEditorTabGroup.new tabGroups s
  = (Ok (group_locs (next s) tabGroups), built_all tabGroups s).
Proof.
  induction tabGroups as [|dto tabGroups IH]; intros s; [done | ].
  apply wp_eq. cbn [Array_map]. wp_go.
  wp_use new_group. wp_go. wp_use IH. by wp_go.
Qed.

Lemma alloc_tabs_lookup_lt this dtos : ∀ n h l,
  l < n → alloc_tabs this n dtos h !! l = h !! l.
Proof.
  induction dtos as [|dto dtos IH]; intros n h l Hl; simpl; [done | ].
  rewrite IH by lia. apply lookup_insert_ne. lia.
Qed.

Lemma alloc_tabs_lookup this dtos : ∀ n h i tabDto,
  dtos !! i = Some tabDto →
  alloc_tabs this n dtos h !! (n + i) = Some (Tab.new tabDto this this).
Proof.
  induction dtos as [|dto dtos IH]; intros n h i tabDto Hi; simpl; [done | ].
  destruct i as [|i]; simpl in Hi.
  - injection Hi as ->. rewrite Nat.add_0_r, alloc_tabs_lookup_lt by lia.
    apply lookup_insert_eq.
  - rewrite Nat.add_succ_r. by apply (IH (S n)).
Qed.

Lemma next_built dto s :
  next (built dto s) = S (next s) + length (IEditorTabGroupDto.tabs dto).
Proof. done. Qed.

Lemma built_at_built dto s : built_at (built dto s) (next s) dto.
Proof.
  split; [apply lookup_insert_eq | ]. split; [ | by rewrite next_built].
  intros i tabDto Hi. by apply (alloc_tabs_lookup (next s) _ (S (next s))).
Qed.

(** Building another group leaves the groups built before it as they
    were. *)
Lemma built_at_stable dto' s group dto :
  built_at s group dto → built_at (built dto' s) group dto.
Proof.
  intros (Hg & Hts & Hnext). split; [ | split].
  - cbn. rewrite lookup_insert_ne by lia. done.
  - intros i tabDto Hi. cbn.
    pose proof (lookup_lt_Some _ _ _ Hi).
    rewrite alloc_tabs_lookup_lt by lia. by apply Hts.
  - rewrite next_built. lia.
Qed.

Lemma built_at_stable_all tabGroups : ∀ s group dto,
  built_at s group dto → built_at (built_all tabGroups s) group dto.
Proof.
  induction tabGroups as [|dto' tabGroups IH]; intros s group dto H; [done | ].
  apply IH. by apply built_at_stable.
Qed.

Lemma built_at_all tabGroups : ∀ s,
  Forall2 (built_at (built_all tabGroups s)) (group_locs (next s) tabGroups) tabGroups.
Proof.
  induction tabGroups as [|dto tabGroups IH]; intros s; [constructor | ].
  cbn [group_locs built_all foldl]. constructor.
  - apply built_at_stable_all, built_at_built.
  - rewrite <- next_built. apply IH.
Qed.

Lemma built_at_mirrors s group dto : built_at s group dto → mirrors s group dto.
Proof.
  intros (Hg & Hts & _). eexists. split; [exact Hg | ]. split; [done | ].
  cbn. apply Forall2_same_length_lookup_2; [by rewrite length_seq | ].
  intros i tab tabDto Htab HtabDto.
  apply lookup_seq in Htab as [-> _].
  eexists. split; [by apply Hts | done].
Qed.

Lemma group_locs_fresh tabGroups : ∀ n, Forall (λ group, n ≤ group) (group_locs n tabGroups).
Proof.
  induction tabGroups as [|dto tabGroups IH]; intros n; constructor; [done | ].
  eapply Forall_impl; [apply IH | ]. cbn. intros; lia.
Qed.

(** What building the groups leaves alone. *)
Lemma built_all_frame tabGroups : ∀ s,
  objects (built_all tabGroups s) = objects s
  ∧ _activeGroupId (built_all tabGroups s) = _activeGroupId s
  ∧ _extHostTabGroups (built_all tabGroups s) = _extHostTabGroups s
  ∧ _apiObject (built_all tabGroups s) = _apiObject s
  ∧ fired (built_all tabGroups s) = fired s
  ∧ sent (built_all tabGroups s) = sent s.
Proof.
  induction tabGroups as [|dto tabGroups IH]; intros s; [done | ].
  cbn [built_all foldl]. apply (IH (built dto s)).
Qed.

(** ** The public objects of a list of groups *)

Lemma group_apiObject_Ok this s :
  is_Some (groups s !! this) →
  ∃ api s1, Group_apiObject this s = (Ok api, s1)
    ∧ ∀ group, is_Some (groups s !! group) → is_Some (groups s1 !! group).
Proof.
  intros [g Hg]. unfold Group_apiObject.
  destruct (Group._apiObject g) as [api|] eqn:Hapi.
  - exists api, s. split; [ | done].
    apply wp_eq. wp_go. by rewrite Hapi.
  - eexists (next s), _. split.
    + apply wp_eq. wp_go. rewrite Hapi. wp_go. reflexivity.
    + intros group. cbn. rewrite lookup_insert_is_Some. destruct (decide (this = group)); auto.
Qed.

Lemma groups_apiObject_Ok gs : ∀ s,
  Forall (λ group, is_Some (groups s !! group)) gs →
  ∃ apis s1, Array_map ExtHostEditorTabGroup.apiObject gs s = (Ok apis, s1).
Proof.
  induction gs as [|group gs IH]; intros s Hgs.
  - by exists [], s.
  - apply Forall_cons in Hgs as [Hgroup Hgs].
    destruct (group_apiObject_Ok _ _ Hgroup) as (api & s1 & Hrun & Hdom).
    destruct (IH s1) as (apis & s2 & Hrest).
    { eapply Forall_impl; [exact Hgs | ]. cbn. auto. }
    exists (api :: apis), s2. apply wp_eq. cbn [Array_map]. wp_go.
    unfold ExtHostEditorTabGroup.apiObject. wp_use Hrun. wp_go. wp_use Hrest. by wp_go.
Qed.

Lemma groups_apiObject_frame gs a es :
  inv (λ s, _activeGroupId s = a ∧ fired s = es)
    (Array_map ExtHostEditorTabGroup.apiObject gs).
Proof. inv_tac; done. Qed.

(** ** [$acceptEditorTabModel] *)

Lemma find_active_None (tabGroups : list IEditorTabGroupDto.t) :
  (∀ dto, dto ∈ tabGroups → IEditorTabGroupDto.isActive dto = false) →
  List.find IEditorTabGroupDto.isActive tabGroups = None.
Proof.
  induction tabGroups as [|dto tabGroups IH]; intros H; [done | ].
  cbn. rewrite (H dto) by left. apply IH. intros dto' Hin. apply H. by right.
Qed.

Lemma wp_exists {A} (m : M A) (x : Outcome A) (P : State → Prop) s :
  wp m (λ r s1, r = x ∧ P s1) s → ∃ s1, m s = (x, s1) ∧ P s1.
Proof. unfold wp. destruct (m s) as [r s1]. cbn. intros [-> H]. eauto. Qed.

(** The snapshot up to the assertion: the new groups are built and put in
    place of the old list. *)
Lemma acceptEditorTabModel_throws tabGroups s :
  List.find IEditorTabGroupDto.isActive tabGroups = None →
  ExtHostEditorTabs.acceptEditorTabModel tabGroups s
  = (Throw AssertionFailed,
     set_extHostTabGroups (group_locs (next s) tabGroups) (built_all tabGroups s)).
Proof.
  intros Hfind. apply wp_eq. unfold ExtHostEditorTabs.acceptEditorTabModel.
  wp_go. wp_use new_groups. wp_go. rewrite Hfind. cbn. by wp_go.
Qed.

(** Making the public objects of groups that are on the heap returns, and
    changes neither the active group id nor what has fired. *)
Lemma wp_groups_apiObject gs (Q : Outcome (list loc) → State → Prop) s :
  Forall (λ group, is_Some (groups s !! group)) gs →
  (∀ apis s1, _activeGroupId s1 = _activeGroupId s → fired s1 = fired s → Q (Ok apis) s1) →
  wp (Array_map ExtHostEditorTabGroup.apiObject gs) Q s.
Proof.
  intros Hgroups HQ.
  destruct (groups_apiObject_Ok _ _ Hgroups) as (apis & s1 & Hrun).
  pose proof (groups_apiObject_frame gs _ _ s (conj eq_refl eq_refl)) as Hframe.
  rewrite Hrun in Hframe. destruct Hframe as [Hactive Hfired].
  wp_use Hrun. by apply HQ.
Qed.

Lemma built_all_groups tabGroups s :
  Forall (λ group, is_Some (groups (built_all tabGroups s) !! group))
    (group_locs (next s) tabGroups).
Proof.
  eapply Forall2_Forall_l; [apply built_at_all | ].
  apply Forall_true. intros dto group (Hg & _). by eexists.
Qed.

(** C5: a snapshot in which no group record is flagged active makes
    [$acceptEditorTabModel] throw; a snapshot in which some record is
    flagged active is accepted and the active group id becomes the group id
    of the (first) flagged record. *)
Theorem snapshot_active_group tabGroups s :
  ((∀ dto, dto ∈ tabGroups → IEditorTabGroupDto.isActive dto = false) →
   ∃ s1, ExtHostEditorTabs.acceptEditorTabModel tabGroups s = (Throw AssertionFailed, s1))
  ∧ (∀ dto, List.find IEditorTabGroupDto.isActive tabGroups = Some dto →
     ∃ s1, ExtHostEditorTabs.acceptEditorTabModel tabGroups s = (Ok (), s1)
       ∧ _activeGroupId s1 = Some (IEditorTabGroupDto.groupId dto)).
Proof.
  split.
  - intros Hnone. eexists. by apply acceptEditorTabModel_throws, find_active_None.
  - intros dto Hfind. apply wp_exists.
    unfold ExtHostEditorTabs.acceptEditorTabModel.
    wp_go. wp_use new_groups. wp_go. rewrite Hfind. cbn. wp_go.
    case_bool_decide as Hactive; wp_go.
    + apply wp_groups_apiObject; [apply built_all_groups | ].
      intros apis s1 Hactive1 _. by wp_go.
    + apply wp_groups_apiObject; [apply built_all_groups | ].
      intros apis s1 Hactive1 _. wp_go. split; [done | ].
      cbn. by rewrite Hactive1.
Qed.

(** C5 at a snapshot of one inactive group and at the snapshot of the
    example. *)
Lemma snapshot_active_group_witness :
  (∃ s1, ExtHostEditorTabs.acceptEditorTabModel [IEditorTabGroupDto.mk false 0 [] 7] initial
         = (Throw AssertionFailed, s1))
  ∧ (∃ s1, ExtHostEditorTabs.acceptEditorTabModel Scenario.snapshot initial = (Ok (), s1)
       ∧ _activeGroupId s1 = Some 1%Z).
Proof.
  split.
  - apply (proj1 (snapshot_active_group [IEditorTabGroupDto.mk false 0 [] 7] initial)).
    intros dto Hin. apply list_elem_of_singleton in Hin. rewrite Hin. reflexivity.
  - apply (proj2 (snapshot_active_group Scenario.snapshot initial)
      (IEditorTabGroupDto.mk true 0 [Scenario.record "a" true] 1)).
    reflexivity.
Defined.

(** C10: when no record of a snapshot is flagged active, the error comes
    after the list of group mirrors has been replaced.  In the state left
    behind the list holds one new mirror per record, built from it, and none
    of the locations that existed before; the active group id is the old
    one and no event has fired. *)
Theorem snapshot_failure_not_atomic tabGroups s :
  (∀ dto, dto ∈ tabGroups → IEditorTabGroupDto.isActive dto = false) →
  ∃ s1, ExtHostEditorTabs.acceptEditorTabModel tabGroups s = (Throw AssertionFailed, s1)
    ∧ Forall2 (mirrors s1) (_extHostTabGroups s1) tabGroups
    ∧ (∀ group, group < next s → group ∉ _extHostTabGroups s1)
    ∧ _activeGroupId s1 = _activeGroupId s
    ∧ fired s1 = fired s.
Proof.
  intros Hnone. eexists. split.
  { by apply acceptEditorTabModel_throws, find_active_None. }
  destruct (built_all_frame tabGroups s) as (_ & Hactive & _ & _ & Hfired & _).
  cbn. repeat split; [ | | done | done].
  - eapply Forall2_impl; [apply built_at_all | ]. apply built_at_mirrors.
  - intros group Hlt Hin.
    pose proof (group_locs_fresh tabGroups (next s)) as Hfresh.
    rewrite Forall_forall in Hfresh. apply Hfresh in Hin. lia.
Qed.

(** C10 at a snapshot of one inactive group that arrives after the snapshot
    of the example: the mirror at location 0 is replaced by one at a later
    location and the active group id stays 1. *)
Lemma snapshot_failure_not_atomic_witness :
  ∃ s1,
    ExtHostEditorTabs.acceptEditorTabModel [IEditorTabGroupDto.mk false 0 [] 7]
      Scenario.after_snapshot = (Throw AssertionFailed, s1)
    ∧ Forall2 (mirrors s1) (_extHostTabGroups s1) [IEditorTabGroupDto.mk false 0 [] 7]
    ∧ (∀ group, group < next Scenario.after_snapshot → group ∉ _extHostTabGroups s1)
    ∧ _activeGroupId s1 = _activeGroupId Scenario.after_snapshot
    ∧ fired s1 = fired Scenario.after_snapshot.
Proof.
  apply (snapshot_failure_not_atomic [IEditorTabGroupDto.mk false 0 [] 7]
    Scenario.after_snapshot).
  intros dto Hin. apply list_elem_of_singleton in Hin. rewrite Hin. reflexivity.
Defined.

(** ** Writes that keep a state well formed *)

Lemma wf_initial : wf initial.
Proof. split; cbn; try done; intros l [? Hl]; by rewrite lookup_empty in Hl. Qed.

(** Writes to the fields of the store that the invariant does not read. *)
Lemma wf_set_activeGroupId a s : wf s → wf (set_activeGroupId a s).
Proof. by intros []. Qed.

Lemma wf_set_fired es s : wf s → wf (set_fired es s).
Proof. by intros []. Qed.

Lemma wf_set_sent rs s : wf s → wf (set_sent rs s).
Proof. by intros []. Qed.

Lemma wf_set_next s : wf s → wf (set_next (S (next s)) s).
Proof.
  intros []. split; cbn; try done.
  all: intros l Hl; apply Nat.lt_lt_succ_r; auto.
Qed.

Lemma wf_set_extHostTabGroups gs s :
  wf s → Forall (λ group, is_Some (groups s !! group)) gs → wf (set_extHostTabGroups gs s).
Proof. by intros []. Qed.

(** A new tab of a group that exists. *)
Lemma wf_new_tab dto group s :
  wf s → is_Some (groups s !! group) →
  wf (set_tabs (<[next s := Tab.new dto group group]> (tabs s)) (set_next (S (next s)) s)).
Proof.
  intros [] Hgroup. split; cbn; try done.
  - intros l. rewrite lookup_insert_is_Some. intros [<-|[_ Hl]]; [lia | ].
    apply Nat.lt_lt_succ_r; auto.
  - intros l Hl. apply Nat.lt_lt_succ_r; auto.
  - intros l Hl. apply Nat.lt_lt_succ_r; auto.
  - intros group' g Hg. eapply Forall_impl; [by eapply wf_group_tabs0 | ].
    cbn. intros tab (t & Ht & Hgetter). exists t. split; [ | done].
    rewrite lookup_insert_ne; [done | ].
    assert (tab < next s) by (apply wf_tabs_below0; eauto). lia.
  - intros tab t. rewrite lookup_insert. case_decide as Htab.
    + by intros [= <-].
    + apply wf_tab_group0.
  - intros tab t api. rewrite lookup_insert. case_decide as Htab.
    + by intros [= <-].
    + apply wf_tab_api0.
Qed.

Lemma wf_set_apiObject o s : wf s → wf (set_apiObject o s).
Proof. by intros []. Qed.

(** A new object for extension code. *)
Lemma wf_new_object o s :
  wf s → wf (set_objects (<[next s := o]> (objects s)) (set_next (S (next s)) s)).
Proof.
  intros []. split; cbn; try done.
  - intros l Hl. apply Nat.lt_lt_succ_r; auto.
  - intros l Hl. apply Nat.lt_lt_succ_r; auto.
  - intros l. rewrite lookup_insert_is_Some. intros [<-|[_ Hl]]; [lia | ].
    apply Nat.lt_lt_succ_r; auto.
  - intros tab t api Ht Hapi. rewrite lookup_insert_ne; [by eapply wf_tab_api0 | ].
    assert (api < next s); [ | lia].
    apply wf_objects_below0. erewrite wf_tab_api0; eauto.
  - intros group g api Hg Hapi. rewrite lookup_insert_ne; [by eapply wf_group_api0 | ].
    assert (api < next s); [ | lia].
    apply wf_objects_below0. erewrite wf_group_api0; eauto.
Qed.

(** A new group without tabs. *)
Lemma wf_new_group dto active s :
  wf s →
  wf (set_groups (<[next s := Group.mk None dto [] active]> (groups s))
        (set_next (S (next s)) s)).
Proof.
  intros []. split; cbn; try done.
  - intros l Hl. apply Nat.lt_lt_succ_r; auto.
  - intros l. rewrite lookup_insert_is_Some. intros [<-|[_ Hl]]; [lia | ].
    apply Nat.lt_lt_succ_r; auto.
  - intros l Hl. apply Nat.lt_lt_succ_r; auto.
  - eapply Forall_impl; [done | ]. cbn. intros group Hgroup.
    rewrite lookup_insert_is_Some. destruct (decide (next s = group)); auto.
  - intros group g. rewrite lookup_insert. case_decide as Hgroup.
    + intros [= <-]. constructor.
    + apply wf_group_tabs0.
  - intros tab t Ht. destruct (wf_tab_group0 _ _ Ht) as [Hgroup Hparent].
    split; [ | done]. rewrite lookup_insert_is_Some.
    destruct (decide (next s = Tab._activeTabIdGetter t)); auto.
  - intros group g api. rewrite lookup_insert. case_decide as Hgroup.
    + by intros [= <-].
    + apply wf_group_api0.
Qed.

(** Replacing the fields of a group: the public object stays and the tabs
    listed are tabs of this group. *)
Lemma wf_put_group group g g' s :
  wf s → groups s !! group = Some g →
  Group._apiObject g' = Group._apiObject g →
  Forall (λ tab, ∃ t, tabs s !! tab = Some t ∧ Tab._activeTabIdGetter t = group)
    (Group._tabs g') →
  wf (set_groups (<[group := g']> (groups s)) s).
Proof.
  intros [] Hg Hapi Htabs. split; cbn; try done.
  - intros l. rewrite lookup_insert_is_Some. intros [<-|[_ Hl]]; eauto.
  - eapply Forall_impl; [done | ]. cbn. intros group' Hgroup.
    rewrite lookup_insert_is_Some. destruct (decide (group = group')); auto.
  - intros group' g''. rewrite lookup_insert. case_decide as Hgroup.
    + by intros [= <-]; subst.
    + apply wf_group_tabs0.
  - intros tab t Ht. destruct (wf_tab_group0 _ _ Ht) as [Hgroup Hparent].
    split; [ | done]. rewrite lookup_insert_is_Some.
    destruct (decide (group = Tab._activeTabIdGetter t)); auto.
  - intros group' g'' api. rewrite lookup_insert. case_decide as Hgroup.
    + intros [= <-]; subst. rewrite Hapi. by apply wf_group_api0.
    + apply wf_group_api0.
Qed.

(** The first public object of a group, once it is on the heap. *)
Lemma wf_memo_group group g api s :
  wf s → groups s !! group = Some g →
  objects s !! api = Some {| shape := TabGroupApi group; frozen := true |} →
  wf (set_groups (<[group := Group.set_apiObject (Some api) g]> (groups s)) s).
Proof.
  intros [] Hg Hapi. split; cbn; try done.
  - intros l. rewrite lookup_insert_is_Some. intros [<-|[_ Hl]]; eauto.
  - eapply Forall_impl; [done | ]. cbn. intros group' Hgroup.
    rewrite lookup_insert_is_Some. destruct (decide (group = group')); auto.
  - intros group' g''. rewrite lookup_insert. case_decide as Hgroup.
    + intros [= <-]; subst. cbn. by apply wf_group_tabs0.
    + apply wf_group_tabs0.
  - intros tab t Ht. destruct (wf_tab_group0 _ _ Ht) as [Hgroup Hparent].
    split; [ | done]. rewrite lookup_insert_is_Some.
    destruct (decide (group = Tab._activeTabIdGetter t)); auto.
  - intros group' g'' api'. rewrite lookup_insert. case_decide as Hgroup.
    + intros [= <-]; subst. cbn. by intros [= <-].
    + apply wf_group_api0.
Qed.

(** Replacing the record of a tab: its group and its public object stay. *)
Lemma wf_put_tab tab t t' s :
  wf s → tabs s !! tab = Some t →
  Tab._activeTabIdGetter t' = Tab._activeTabIdGetter t →
  Tab._parentGroup t' = Tab._parentGroup t →
  Tab._apiObject t' = Tab._apiObject t →
  wf (set_tabs (<[tab := t']> (tabs s)) s).
Proof.
  intros [] Ht Hgetter Hparent Hapi. split; cbn; try done.
  - intros l. rewrite lookup_insert_is_Some. intros [<-|[_ Hl]]; eauto.
  - intros group g Hg. eapply Forall_impl; [by eapply wf_group_tabs0 | ].
    cbn. intros tab' (t'' & Ht'' & Hgetter''). rewrite lookup_insert. case_decide; subst.
    + exists t'. split; [done | ]. congruence.
    + eauto.
  - intros tab' t''. rewrite lookup_insert. case_decide; subst.
    + intros [= <-]. rewrite Hgetter, Hparent. eauto.
    + apply wf_tab_group0.
  - intros tab' t'' api. rewrite lookup_insert. case_decide; subst.
    + intros [= <-]. rewrite Hapi. eauto.
    + apply wf_tab_api0.
Qed.

(** The first public object of a tab, once it is on the heap. *)
Lemma wf_memo_tab tab t api s :
  wf s → tabs s !! tab = Some t →
  objects s !! api = Some {| shape := TabApi tab; frozen := true |} →
  wf (set_tabs (<[tab := Tab.set_apiObject (Some api) t]> (tabs s)) s).
Proof.
  intros [] Ht Hapi. split; cbn; try done.
  - intros l. rewrite lookup_insert_is_Some. intros [<-|[_ Hl]]; eauto.
  - intros group g Hg. eapply Forall_impl; [by eapply wf_group_tabs0 | ].
    cbn. intros tab' (t'' & Ht'' & Hgetter''). rewrite lookup_insert. case_decide; subst.
    + eexists. split; [done | ]. cbn. congruence.
    + eauto.
  - intros tab' t''. rewrite lookup_insert. case_decide; subst.
    + intros [= <-]. cbn. eauto.
    + apply wf_tab_group0.
  - intros tab' t'' api'. rewrite lookup_insert. case_decide; subst.
    + intros [= <-]. cbn. by intros [= <-].
    + apply wf_tab_api0.
Qed.

(** ** [apiObject] *)

Lemma tab_apiObject_memoized this t api s :
  tabs s !! this = Some t → Tab._apiObject t = Some api →
  ExtHostEditorTab.apiObject this s = (Ok api, s).
Proof.
  intros Ht Hapi. apply wp_eq. unfold ExtHostEditorTab.apiObject. wp_go.
  rewrite Hapi. by wp_go.
Qed.

Lemma tab_apiObject_first this t s :
  tabs s !! this = Some t → Tab._apiObject t = None →
  ExtHostEditorTab.apiObject this s = (Ok (next s), memo_tab this t s).
Proof.
  intros Ht Hapi. apply wp_eq. unfold ExtHostEditorTab.apiObject. wp_go.
  rewrite Hapi. by wp_go.
Qed.

Lemma group_apiObject_memoized this g api s :
  groups s !! this = Some g → Group._apiObject g = Some api →
  Group_apiObject this s = (Ok api, s).
Proof.
  intros Hg Hapi. apply wp_eq. unfold Group_apiObject. wp_go.
  rewrite Hapi. by wp_go.
Qed.

Lemma group_apiObject_first this g s :
  groups s !! this = Some g → Group._apiObject g = None →
  Group_apiObject this s = (Ok (next s), memo_group this g s).
Proof.
  intros Hg Hapi. apply wp_eq. unfold Group_apiObject. wp_go.
  rewrite Hapi. by wp_go.
Qed.

Lemma tab_apiObject_stuck this s :
  tabs s !! this = None → ExtHostEditorTab.apiObject this s = (Stuck, s).
Proof. intros Ht. apply wp_eq. unfold ExtHostEditorTab.apiObject. by wp_go. Qed.

Lemma group_apiObject_stuck this s :
  groups s !! this = None → Group_apiObject this s = (Stuck, s).
Proof. intros Hg. apply wp_eq. unfold Group_apiObject. by wp_go. Qed.

Lemma wf_memo_tab_state this t s :
  wf s → tabs s !! this = Some t → wf (memo_tab this t s).
Proof.
  intros Hwf Ht.
  pose (s1 := set_objects
    (<[next s := {| shape := TabApi this; frozen := true |}]> (objects s))
    (set_next (S (next s)) s)).
  change (wf (set_tabs (<[this := Tab.set_apiObject (Some (next s)) t]> (tabs s1)) s1)).
  apply wf_memo_tab; [by apply wf_new_object | done | apply lookup_insert_eq].
Qed.

Lemma wf_memo_group_state this g s :
  wf s → groups s !! this = Some g → wf (memo_group this g s).
Proof.
  intros Hwf Hg.
  pose (s1 := set_objects
    (<[next s := {| shape := TabGroupApi this; frozen := true |}]> (objects s))
    (set_next (S (next s)) s)).
  change (wf (set_groups (<[this := Group.set_apiObject (Some (next s)) g]> (groups s1)) s1)).
  apply wf_memo_group; [by apply wf_new_object | done | apply lookup_insert_eq].
Qed.

Lemma wf_tab_apiObject this : inv wf (ExtHostEditorTab.apiObject this).
Proof.
  intros s Hwf. destruct (tabs s !! this) as [t|] eqn:Ht.
  - destruct (Tab._apiObject t) as [api|] eqn:Hapi.
    + by erewrite tab_apiObject_memoized.
    + erewrite tab_apiObject_first by done. by apply wf_memo_tab_state.
  - by rewrite tab_apiObject_stuck.
Qed.

Lemma wf_group_apiObject this : inv wf (Group_apiObject this).
Proof.
  intros s Hwf. destruct (groups s !! this) as [g|] eqn:Hg.
  - destruct (Group._apiObject g) as [api|] eqn:Hapi.
    + by erewrite group_apiObject_memoized.
    + erewrite group_apiObject_first by done. by apply wf_memo_group_state.
  - by rewrite group_apiObject_stuck.
Qed.

(** ** The methods of a group keep the state well formed *)

Lemma wf_new_ExtHostEditorTab dto group s :
  wf s → is_Some (groups s !! group) →
  wp (ExtHostEditorTab.new dto group group)
    (λ r s1, r = Ok (next s) ∧ wf s1 ∧ groups s1 = groups s
             ∧ (∀ l, is_Some (tabs s !! l) → tabs s1 !! l = tabs s !! l)
             ∧ ∃ t, tabs s1 !! next s = Some t ∧ Tab._activeTabIdGetter t = group) s.
Proof.
  intros Hwf Hgroup. unfold ExtHostEditorTab.new. wp_go.
  split; [done | ]. split; [by apply (wf_new_tab dto group s) | ]. split; [done | ]. split.
  - intros l Hl. cbn. apply lookup_insert_ne.
    apply (wf_tabs_below _ Hwf) in Hl. lia.
  - eexists. split; [apply lookup_insert_eq | done].
Qed.

Lemma wf_ExtHostEditorTabGroup_new dto : inv wf (ExtHostEditorTabGroup.new dto).
Proof.
  apply inv_of_wp. intros s Hwf.
  unfold ExtHostEditorTabGroup.new. wp_go.
  set (this := next s).
  assert (inv (λ s1, wf s1 ∧ is_Some (groups s1 !! this))
    (for_of (IEditorTabGroupDto.tabs dto) (λ tabDto,
       when (IEditorTabDto.isActive tabDto)
         (update_group this (Group.set_activeTabId (IEditorTabDto.id tabDto)));;
       tab ← ExtHostEditorTab.new tabDto this this;
       update_group this (λ g, Group.set_tabs (Group._tabs g ++ [tab]) g)))) as Hloop.
  { apply inv_for_of. intros tabDto. apply inv_of_wp. intros s1 [Hwf1 [g Hg]].
    assert (∀ s2 g2, wf s2 → groups s2 !! this = Some g2 →
      wp (tab ← ExtHostEditorTab.new tabDto this this;
          update_group this (λ g, Group.set_tabs (Group._tabs g ++ [tab]) g))
        (λ _ s3, wf s3 ∧ is_Some (groups s3 !! this)) s2) as Hrest.
    { intros s2 g2 Hwf2 Hg2. wp_go.
      eapply wp_wand; [apply wf_new_ExtHostEditorTab; eauto | ].
      intros r s3 (-> & Hwf3 & Hgroups & Hold & t & Ht & Hgetter).
      assert (groups s3 !! this = Some g2) as Hg3 by (by rewrite Hgroups).
      wp_go. split.
      - eapply wf_put_group; [done | done | done | ].
        cbn. apply Forall_app. split; [ | by repeat constructor; eauto].
        eapply Forall_impl; [by eapply (wf_group_tabs _ Hwf2) | ].
        cbn. intros tab (t' & Ht' & Hgetter'). exists t'. split; [ | done].
        rewrite Hold; eauto.
      - cbn. rewrite lookup_insert_eq. eauto. }
    wp_go. destruct (IEditorTabDto.isActive tabDto); wp_go.
    - eapply Hrest; [ | cbn; apply lookup_insert_eq].
      eapply wf_put_group; eauto. cbn. by eapply (wf_group_tabs _ Hwf1).
    - by eapply Hrest. }
  eapply wp_wand.
  - apply (wp_of_inv _ _ _ Hloop). split.
    + by apply (wf_new_group dto "" s).
    + cbn. rewrite lookup_insert_eq. eauto.
  - cbn. intros r s1 [Hwf1 _]. destruct r; by wp_go.
Qed.

(** An update of a group that keeps its tabs and its public object. *)
Lemma wf_update_group_fields this f :
  (∀ g, Group._apiObject (f g) = Group._apiObject g ∧ Group._tabs (f g) = Group._tabs g) →
  inv (λ s, wf s ∧ is_Some (groups s !! this)) (update_group this f).
Proof.
  intros Hf. apply inv_of_wp. intros s [Hwf [g Hg]]. wp_go.
  destruct (Hf g) as [Hapi Htabs]. split.
  - eapply wf_put_group; [done | done | done | ].
    rewrite Htabs. by apply (wf_group_tabs _ Hwf).
  - cbn. rewrite lookup_insert_eq. eauto.
Qed.

Lemma wf_set_activeTabId this active g s :
  wf s → groups s !! this = Some g →
  wf (set_groups (<[this := Group.set_activeTabId active g]> (groups s)) s).
Proof.
  intros Hwf Hg. eapply wf_put_group; [done | done | done | ].
  cbn. by apply (wf_group_tabs _ Hwf).
Qed.

Lemma Forall_splice {A} (P : A → Prop) l start deleteCount items :
  Forall P l → Forall P items → Forall P (splice l start deleteCount items).2.
Proof.
  intros Hl Hitems. unfold splice. cbn.
  repeat (apply Forall_app; split); [by apply Forall_take | done | by apply Forall_drop].
Qed.

Lemma wf_group_acceptTabOperation this operation :
  inv (λ s, wf s ∧ is_Some (groups s !! this))
    (ExtHostEditorTabGroup.acceptTabOperation this operation).
Proof.
  unfold ExtHostEditorTabGroup.acceptTabOperation.
  destruct (decide (TabOperation.kind operation = TAB_OPEN));
    [ | destruct (decide (TabOperation.kind operation = TAB_CLOSE)) ].
  - (* open *)
    apply inv_of_wp. intros s [Hwf [g Hg]]. wp_go.
    eapply wp_wand; [by apply wf_new_ExtHostEditorTab; eauto | ].
    intros r s1 (-> & Hwf1 & Hgroups & Hold & t & Ht & Hgetter).
    assert (groups s1 !! this = Some g) as Hg1 by (by rewrite Hgroups).
    wp_go.
    match goal with
    | |- if _ then wp _ _ ?s2 else _ =>
        assert (wf s2 ∧ is_Some (groups s2 !! this)) as HI
    end.
    { split; [ | cbn; rewrite lookup_insert_eq; eauto ].
      eapply wf_put_group; [done | done | done | ].
      cbn. apply Forall_splice; [ | by repeat constructor; eauto].
      eapply Forall_impl; [by eapply (wf_group_tabs _ Hwf) | ].
      cbn. intros tab (t' & Ht' & Hgetter'). exists t'. split; [ | done].
      rewrite Hold; eauto. }
    destruct (IEditorTabDto.isActive _); wp_go; [ | done].
    destruct HI as [Hwf2 _].
    split; [ | cbn; rewrite lookup_insert_eq; eauto ].
    apply wf_set_activeTabId; [exact Hwf2 | cbn; apply lookup_insert_eq].
  - (* close *)
    apply inv_of_wp. intros s [Hwf [g Hg]]. wp_go.
    match goal with |- wp _ _ ?s2 => assert (wf s2 ∧ is_Some (groups s2 !! this)) as HI end.
    { split; [ | cbn; rewrite lookup_insert_eq; eauto ].
      eapply wf_put_group; [done | done | done | ].
      cbn. apply Forall_splice; [ | constructor].
      by eapply (wf_group_tabs _ Hwf). }
    destruct (head _); wp_go; try solve [ done | split; [apply HI | eauto] ].
    case_bool_decide; wp_go; try solve [ done | split; [apply HI | eauto] ].
    split; [ | cbn; rewrite lookup_insert_eq; eauto ].
    destruct HI as [Hwf2 _].
    apply wf_set_activeTabId; [exact Hwf2 | cbn; apply lookup_insert_eq].
  - (* update *)
    apply inv_of_wp. intros s [Hwf [g Hg]]. wp_go.
    wp_use Array_find_has_tabId.
    destruct (find_tabId _ _ _) as [[tab|]| |] eqn:Hfind; wp_go; try by eauto.
    destruct (find_tabId_Some _ _ _ _ Hfind) as (_ & t & Ht & _).
    destruct (IEditorTabDto.isActive _); [ | case_bool_decide; cbn ]; wp_go.
    all: split; [ | cbn; rewrite ?lookup_insert_eq; eauto ].
    all: match goal with
         | |- wf (set_tabs (<[?l := ?t']> _) ?S) => apply (wf_put_tab l t t' S)
         end; try done.
    all: by apply wf_set_activeTabId.
Qed.

(** ** Finding a group by id *)

Lemma Array_find_has_groupId groupId gs s :
  Array_find (ExtHostEditorTabs.has_groupId groupId) gs s
  = (find_groupId (groups s) groupId gs, s).
Proof.
  apply wp_eq. induction gs as [|group gs IH]; simpl; [done | ].
  unfold ExtHostEditorTabs.has_groupId. wp_go; [ | done].
  by case_bool_decide.
Qed.

Lemma find_group_run groupId s :
  ExtHostEditorTabs.find_group groupId s
  = (find_groupId (groups s) groupId (_extHostTabGroups s), s).
Proof.
  apply wp_eq. unfold ExtHostEditorTabs.find_group. wp_go.
  by wp_use Array_find_has_groupId.
Qed.

Lemma find_groupId_Some h groupId gs group :
  find_groupId h groupId gs = Ok (Some group) →
  group ∈ gs ∧ ∃ g, h !! group = Some g ∧ Group.groupId g = groupId.
Proof.
  induction gs as [|x gs IH]; simpl; [done | ].
  destruct (h !! x) as [g|] eqn:Hx; [ | done].
  case_bool_decide as Hid.
  - intros [= <-]. split; [left | eauto].
  - intros H. destruct (IH H) as [? ?]. split; [by right | done].
Qed.

(** ** Every call keeps the state well formed *)

Lemma wf_update_group this f :
  (∀ g, Group._apiObject (f g) = Group._apiObject g ∧ Group._tabs (f g) = Group._tabs g) →
  inv wf (update_group this f).
Proof.
  intros Hf. apply inv_of_wp. intros s Hwf. wp_go; [ | done].
  match goal with H : groups s !! this = Some ?g |- _ => destruct (Hf g) as [Hapi Htabs] end.
  eapply wf_put_group; [done | done | done | ].
  rewrite Htabs. by apply (wf_group_tabs _ Hwf).
Qed.

Ltac wf_step :=
  lazymatch goal with
  | |- inv wf (ExtHostEditorTab.apiObject _) => apply wf_tab_apiObject
  | |- inv wf (ExtHostEditorTabGroup.apiObject _) => apply wf_group_apiObject
  | |- inv wf (Group_apiObject _) => apply wf_group_apiObject
  | |- inv wf (ExtHostEditorTabGroup.new _) => apply wf_ExtHostEditorTabGroup_new
  | |- inv wf (update_group _ _) => apply wf_update_group; intros ?; by split
  | |- inv wf (modify (set_activeGroupId _)) =>
      apply inv_modify; intros ? ?; by apply wf_set_activeGroupId
  | |- inv wf (fire _) => unfold fire; apply inv_modify; intros ? ?; by apply wf_set_fired
  | |- inv wf (send _) => unfold send; apply inv_modify; intros ? ?; by apply wf_set_sent
  | |- inv wf (get_tab _) => unfold get_tab
  | |- inv wf (get_group _) => unfold get_group
  | |- inv wf (get_object _) => unfold get_object
  | |- inv wf (activeTabId _) => unfold activeTabId
  | |- inv wf (assertIsDefined _) => unfold assertIsDefined
  | |- inv wf (void _) => unfold void
  | |- inv wf (assign_property _) => unfold assign_property
  | |- inv wf (ExtHostEditorTab.tabId _) => unfold ExtHostEditorTab.tabId
  | |- inv wf (ExtHostEditorTab.that _) => unfold ExtHostEditorTab.that
  | |- inv wf (ExtHostEditorTab.isActive _) => unfold ExtHostEditorTab.isActive
  | |- inv wf (ExtHostEditorTab.group _) => unfold ExtHostEditorTab.group
  | |- inv wf (ExtHostEditorTabGroup.groupId _) => unfold ExtHostEditorTabGroup.groupId
  | |- inv wf (ExtHostEditorTabGroup.tabs _) => unfold ExtHostEditorTabGroup.tabs
  | |- inv wf (ExtHostEditorTabGroup.has_tabId _ _) => unfold ExtHostEditorTabGroup.has_tabId
  | |- inv wf (ExtHostEditorTabGroup.that _) => unfold ExtHostEditorTabGroup.that
  | |- inv wf (ExtHostEditorTabGroup.isActive _) => unfold ExtHostEditorTabGroup.isActive
  | |- inv wf (ExtHostEditorTabGroup.activeTab _) => unfold ExtHostEditorTabGroup.activeTab
  | |- inv wf (ExtHostEditorTabGroup.tabs_getter _) => unfold ExtHostEditorTabGroup.tabs_getter
  | |- inv wf (ExtHostEditorTabGroup.acceptGroupDtoUpdate _ _) =>
      unfold ExtHostEditorTabGroup.acceptGroupDtoUpdate
  | |- inv wf (ExtHostEditorTabs.find_group _) => unfold ExtHostEditorTabs.find_group
  | |- inv wf (ExtHostEditorTabs.has_groupId _ _) => unfold ExtHostEditorTabs.has_groupId
  | |- inv wf (ExtHostEditorTabs._findExtHostTabFromApi _) =>
      unfold ExtHostEditorTabs._findExtHostTabFromApi
  | |- inv wf (ExtHostEditorTabs.is_apiObject_of_tab _ _) =>
      unfold ExtHostEditorTabs.is_apiObject_of_tab
  | |- inv wf (ExtHostEditorTabs._findExtHostTabGroupFromApi _) =>
      unfold ExtHostEditorTabs._findExtHostTabGroupFromApi
  | |- inv wf (ExtHostEditorTabs.is_apiObject_of_group _ _) =>
      unfold ExtHostEditorTabs.is_apiObject_of_group
  | |- inv wf (ExtHostEditorTabs._closeTabs _ _ _) => unfold ExtHostEditorTabs._closeTabs
  | |- inv wf (ExtHostEditorTabs._closeGroups _ _ _) => unfold ExtHostEditorTabs._closeGroups
  | |- inv wf (ExtHostEditorTabs.isTabGroup _) => unfold ExtHostEditorTabs.isTabGroup
  | |- inv wf (ExtHostEditorTabs.close _ _ _) => unfold ExtHostEditorTabs.close
  | |- inv wf (ExtHostEditorTabs.move _ _ _ _) => unfold ExtHostEditorTabs.move
  | |- inv wf (ExtHostEditorTabs.groups_getter) => unfold ExtHostEditorTabs.groups_getter
  | |- inv wf (ExtHostEditorTabs.activeTabGroup) => unfold ExtHostEditorTabs.activeTabGroup
  | |- inv wf (ExtHostEditorTabs.acceptTabGroupUpdate _) =>
      unfold ExtHostEditorTabs.acceptTabGroupUpdate
  | _ => inv_step
  end.

Ltac wf_tac := repeat wf_step.

Lemma wf_acceptEditorTabModel tabGroups :
  inv wf (ExtHostEditorTabs.acceptEditorTabModel tabGroups).
Proof.
  apply inv_of_wp. intros s Hwf. unfold ExtHostEditorTabs.acceptEditorTabModel.
  wp_go. wp_use new_groups.
  assert (wf (built_all tabGroups s)) as Hbuilt.
  { assert (inv wf (Array_map ExtHostEditorTabGroup.new tabGroups)) as Hinv by wf_tac.
    specialize (Hinv s Hwf). by rewrite new_groups in Hinv. }
  wp_go.
  match goal with |- wp _ _ ?s2 => assert (wf s2) as Hwf2 end.
  { apply wf_set_extHostTabGroups; [done | apply built_all_groups]. }
  eapply wp_wand; [apply wp_of_inv; [ | exact Hwf2]; wf_tac | ].
  cbn. intros r s3 Hwf3. destruct r as [a| |]; [ | done | done].
  apply wp_of_inv; [ | done]. wf_tac.
Qed.

Lemma wf_acceptTabOperation operation :
  inv wf (ExtHostEditorTabs.acceptTabOperation operation).
Proof.
  apply inv_of_wp. intros s Hwf. unfold ExtHostEditorTabs.acceptTabOperation.
  wp_go. wp_use find_group_run.
  destruct (find_groupId _ _ _) as [[group|]| |] eqn:Hfind; try by wp_go.
  destruct (find_groupId_Some _ _ _ _ Hfind) as (_ & g & Hg & _).
  wp_go. eapply wp_wand.
  - apply (wp_of_inv _ _ _ (wf_group_acceptTabOperation group operation)). eauto.
  - cbn. intros r s1 [Hwf1 _]. destruct r as [tab| |]; [ | done | done].
    apply wp_of_inv; [ | done]. wf_tac.
Qed.

Lemma wf_tabGroups : inv wf ExtHostEditorTabs.tabGroups.
Proof.
  apply inv_of_wp. intros s Hwf. unfold ExtHostEditorTabs.tabGroups. wp_go.
  destruct (_apiObject s); wp_go; [done | ].
  match goal with
  | |- wf (set_apiObject ?a (set_objects (<[_ := ?o]> _) _)) =>
      apply (wf_set_apiObject a (set_objects (<[next s := o]> (objects s))
               (set_next (S (next s)) s)));
      apply (wf_new_object o s Hwf)
  end.
Qed.

Lemma wf_run c : inv wf (run c).
Proof.
  destruct c; cbn [run].
  - apply wf_acceptEditorTabModel.
  - wf_tac.
  - apply wf_acceptTabOperation.
  - unfold void. apply inv_bind; [apply wf_tabGroups | intros ?; apply inv_ret].
  - wf_tac.
  - wf_tac.
  - wf_tac.
  - wf_tac.
  - wf_tac.
  - wf_tac.
  - wf_tac.
  - wf_tac.
  - wf_tac.
  - wf_tac.
  - apply inv_of_wp. intros s Hwf. wp_go.
    apply (wf_new_object {| shape := Foreign has_tabs; frozen := false |} s Hwf).
Qed.

(** Every reachable state is well formed. *)
Lemma reachable_wf s : reachable s → wf s.
Proof.
  induction 1 as [|s c _ IH]; [apply wf_initial | by apply wf_run].
Qed.

(** ** Making public objects changes nothing else *)

Lemma extends_refl s : extends s s.
Proof. split; eauto. Qed.

Lemma extends_trans s s1 s2 : extends s s1 → extends s1 s2 → extends s s2.
Proof.
  intros [] []. split; try congruence.
  - lia.
  - eauto.
  - intros l t2 api Ht2 Hapi Hlt.
    destruct (ext_tab_memo1 l t2 api Ht2 Hapi) as (t1 & Ht1 & Hapi1); [lia | ]. eauto.
  - intros l g2 api Hg2 Hapi Hlt.
    destruct (ext_group_memo1 l g2 api Hg2 Hapi) as (g1 & Hg1 & Hapi1); [lia | ]. eauto.
Qed.

Lemma extends_memo_tab this t s :
  wf s → tabs s !! this = Some t → Tab._apiObject t = None → extends s (memo_tab this t s).
Proof.
  intros Hwf Ht Hapi. split; cbn; try done.
  - lia.
  - intros l. rewrite lookup_insert. case_decide; subst; [by rewrite Ht | done].
  - intros l o Hl. rewrite lookup_insert_ne; [done | ].
    assert (l < next s) by (apply (wf_objects_below _ Hwf); eauto). lia.
  - intros l t1 api. rewrite lookup_insert. case_decide; subst.
    + intros [= <-]. cbn. intros [= <-]. lia.
    + eauto.
  - eauto.
Qed.

Lemma extends_memo_group this g s :
  wf s → groups s !! this = Some g → Group._apiObject g = None →
  extends s (memo_group this g s).
Proof.
  intros Hwf Hg Hapi. split; cbn; try done.
  - lia.
  - intros l. rewrite lookup_insert. case_decide; subst; [by rewrite Hg | done].
  - intros l o Hl. rewrite lookup_insert_ne; [done | ].
    assert (l < next s) by (apply (wf_objects_below _ Hwf); eauto). lia.
  - eauto.
  - intros l g1 api. rewrite lookup_insert. case_decide; subst.
    + intros [= <-]. cbn. intros [= <-]. lia.
    + eauto.
Qed.

(** [apiObject] of a tab that is on the heap of a well-formed state: it
    returns the frozen public object of that tab, and the state is extended
    by at most that object. *)
Lemma tab_apiObject_spec this t s :
  wf s → tabs s !! this = Some t →
  ∃ api s1, ExtHostEditorTab.apiObject this s = (Ok api, s1)
    ∧ wf s1 ∧ extends s s1
    ∧ objects s1 !! api = Some {| shape := TabApi this; frozen := true |}
    ∧ (Tab._apiObject <$> tabs s1 !! this) = Some (Some api)
    ∧ (Tab._apiObject t = Some api ∧ s1 = s ∨ Tab._apiObject t = None ∧ api = next s).
Proof.
  intros Hwf Ht. destruct (Tab._apiObject t) as [api|] eqn:Hapi.
  - exists api, s. split; [by eapply tab_apiObject_memoized | ].
    split; [done | ]. split; [apply extends_refl | ].
    split; [by eapply (wf_tab_api _ Hwf) | ]. rewrite Ht. cbn. rewrite Hapi. auto.
  - exists (next s), (memo_tab this t s). split; [by eapply tab_apiObject_first | ].
    split; [by apply wf_memo_tab_state | ]. split; [by apply extends_memo_tab | ].
    cbn. rewrite !lookup_insert_eq. auto.
Qed.

Lemma group_apiObject_spec this g s :
  wf s → groups s !! this = Some g →
  ∃ api s1, Group_apiObject this s = (Ok api, s1)
    ∧ wf s1 ∧ extends s s1
    ∧ objects s1 !! api = Some {| shape := TabGroupApi this; frozen := true |}
    ∧ (Group._apiObject <$> groups s1 !! this) = Some (Some api)
    ∧ (Group._apiObject g = Some api ∧ s1 = s ∨ Group._apiObject g = None ∧ api = next s).
Proof.
  intros Hwf Hg. destruct (Group._apiObject g) as [api|] eqn:Hapi.
  - exists api, s. split; [by eapply group_apiObject_memoized | ].
    split; [done | ]. split; [apply extends_refl | ].
    split; [by eapply (wf_group_api _ Hwf) | ]. rewrite Hg. cbn. rewrite Hapi. auto.
  - exists (next s), (memo_group this g s). split; [by eapply group_apiObject_first | ].
    split; [by apply wf_memo_group_state | ]. split; [by apply extends_memo_group | ].
    cbn. rewrite !lookup_insert_eq. auto.
Qed.

Lemma extends_tab s s1 l t :
  extends s s1 → tabs s !! l = Some t →
  ∃ t1, tabs s1 !! l = Some t1 ∧ tab_fields t1 = tab_fields t.
Proof.
  intros Hext Ht. pose proof (ext_tabs _ _ Hext l) as H. rewrite Ht in H.
  destruct (tabs s1 !! l) as [t1|]; [ | done]. exists t1. split; [done | ].
  cbn in H. congruence.
Qed.

Lemma extends_group s s1 l g :
  extends s s1 → groups s !! l = Some g →
  ∃ g1, groups s1 !! l = Some g1 ∧ group_fields g1 = group_fields g.
Proof.
  intros Hext Hg. pose proof (ext_groups _ _ Hext l) as H. rewrite Hg in H.
  destruct (groups s1 !! l) as [g1|]; [ | done]. exists g1. split; [done | ].
  cbn in H. congruence.
Qed.

(** ** Public objects are never written to *)

(** No call writes to a location that is already in use: the objects that
    exist stay as they are. *)
Lemma objects_kept c s0 :
  inv (λ s, next s0 ≤ next s ∧ ∀ l, l < next s0 → objects s !! l = objects s0 !! l) (run c).
Proof.
  destruct c; inv_tac; cbn.
  all: try match goal with H : _ ∧ _ |- _ => destruct H as [Hnext Hobjects] end.
  all: split; [lia | ].
  all: let x := fresh "x" in let Hx := fresh "Hx" in
       intros x Hx; rewrite ?lookup_insert_ne by lia; by auto.
Qed.

Lemma object_stable c s l o :
  wf s → objects s !! l = Some o → objects (run c s).2 !! l = Some o.
Proof.
  intros Hwf Hl.
  destruct (objects_kept c s s) as [_ Hkept]; [by split | ].
  rewrite Hkept; [done | ]. apply (wf_objects_below _ Hwf). eauto.
Qed.

(** ** The getters of the public object of a tab *)

Section tab_getters.
Context (s : State) (api this : loc) (t : Tab.t) (fr : bool).
Hypothesis Hapi : objects s !! api = Some {| shape := TabApi this; frozen := fr |}.
Hypothesis Ht : tabs s !! this = Some t.

Lemma tab_that : ExtHostEditorTab.that api s = (Ok t, s).
Proof. apply wp_eq. unfold ExtHostEditorTab.that. by wp_go. Qed.

Lemma tab_label : ExtHostEditorTab.label api s = (Ok (IEditorTabDto.label (Tab._dto t)), s).
Proof. apply wp_eq. unfold ExtHostEditorTab.label. wp_go. wp_use tab_that. by wp_go. Qed.

Lemma tab_isDirty :
  ExtHostEditorTab.isDirty api s = (Ok (IEditorTabDto.isDirty (Tab._dto t)), s).
Proof. apply wp_eq. unfold ExtHostEditorTab.isDirty. wp_go. wp_use tab_that. by wp_go. Qed.

Lemma tab_isPinned :
  ExtHostEditorTab.isPinned api s = (Ok (IEditorTabDto.isPinned (Tab._dto t)), s).
Proof. apply wp_eq. unfold ExtHostEditorTab.isPinned. wp_go. wp_use tab_that. by wp_go. Qed.

Lemma tab_isPreview :
  ExtHostEditorTab.isPreview api s = (Ok (IEditorTabDto.isPreview (Tab._dto t)), s).
Proof. apply wp_eq. unfold ExtHostEditorTab.isPreview. wp_go. wp_use tab_that. by wp_go. Qed.

Lemma tab_kind : ExtHostEditorTab.kind api s = (Ok (Tab._input t), s).
Proof. apply wp_eq. unfold ExtHostEditorTab.kind. wp_go. wp_use tab_that. by wp_go. Qed.

Lemma tab_isActive g :
  groups s !! Tab._activeTabIdGetter t = Some g →
  ExtHostEditorTab.isActive api s
  = (Ok (bool_decide (IEditorTabDto.id (Tab._dto t) = Group._activeTabId g)), s).
Proof.
  intros Hg. apply wp_eq. unfold ExtHostEditorTab.isActive. wp_go. wp_use tab_that. by wp_go.
Qed.

End tab_getters.

(** C8: the public object of a tab.  In a reachable state, reading
    [apiObject] of a tab returns an object that is made only if the tab has
    none yet (it is then the next new object) and is returned again,
    unchanged and without a new one being made, by every later read.  The
    object is frozen: assigning to one of its properties is a [TypeError],
    and no call ever changes it.  [acceptDtoUpdate] replaces the backing
    record and the kind derived from it and leaves the memoized object and
    the heap of objects alone, so [apiObject] still returns the same
    reference, and the getters of that reference ([label], [isDirty],
    [isPinned], [isPreview], [kind], [isActive]) read the new record. *)
Theorem apiObject_once_frozen_live s this t dto :
  reachable s → tabs s !! this = Some t →
  ∃ api s1,
    ExtHostEditorTab.apiObject this s = (Ok api, s1)
    ∧ (Tab._apiObject t = Some api ∧ s1 = s ∨ Tab._apiObject t = None ∧ api = next s)
    ∧ ExtHostEditorTab.apiObject this s1 = (Ok api, s1)
    ∧ objects s1 !! api = Some {| shape := TabApi this; frozen := true |}
    ∧ assign_property api s1 = (Throw TypeError, s1)
    ∧ (∀ c, objects (run c s1).2 !! api = Some {| shape := TabApi this; frozen := true |})
    ∧ ∃ s2 t2 g,
        ExtHostEditorTab.acceptDtoUpdate this dto s1 = (Ok (), s2)
        ∧ tabs s2 !! this = Some t2
        ∧ Tab._dto t2 = dto
        ∧ Tab._input t2 = Tab._initInput t2
        ∧ Tab._apiObject t2 = Some api
        ∧ objects s2 = objects s1
        ∧ ExtHostEditorTab.apiObject this s2 = (Ok api, s2)
        ∧ ExtHostEditorTab.label api s2 = (Ok (IEditorTabDto.label dto), s2)
        ∧ ExtHostEditorTab.isDirty api s2 = (Ok (IEditorTabDto.isDirty dto), s2)
        ∧ ExtHostEditorTab.isPinned api s2 = (Ok (IEditorTabDto.isPinned dto), s2)
        ∧ ExtHostEditorTab.isPreview api s2 = (Ok (IEditorTabDto.isPreview dto), s2)
        ∧ ExtHostEditorTab.kind api s2 = (Ok (Tab._initInput t2), s2)
        ∧ groups s2 !! Tab._activeTabIdGetter t = Some g
        ∧ ExtHostEditorTab.isActive api s2
          = (Ok (bool_decide (IEditorTabDto.id dto = Group._activeTabId g)), s2).
Proof.
  intros Hreach Ht. apply reachable_wf in Hreach as Hwf.
  destruct (tab_apiObject_spec _ _ _ Hwf Ht)
    as (api & s1 & Hrun & Hwf1 & Hext & Hobj & Hmemo & Hcase).
  destruct (extends_tab _ _ _ _ Hext Ht) as (t1 & Ht1 & Hfields).
  rewrite Ht1 in Hmemo. injection Hmemo as Hmemo.
  injection Hfields as _ _ _ Hgetter.
  destruct (wf_tab_group _ Hwf1 _ _ Ht1) as [[g Hg] _]. rewrite Hgetter in Hg.
  exists api, s1. split; [done | ]. split; [done | ].
  split; [by eapply tab_apiObject_memoized | ]. split; [done | ].
  split. { apply wp_eq. unfold assign_property. by wp_go. }
  split. { intros c. by apply object_stable. }
  set (t2 := Tab.acceptDtoUpdate dto t1).
  set (s2 := set_tabs (<[this := t2]> (tabs s1)) s1).
  assert (tabs s2 !! this = Some t2) as Ht2 by apply lookup_insert_eq.
  assert (objects s2 !! api = Some {| shape := TabApi this; frozen := true |}) as Hobj2
    by done.
  exists s2, t2, g.
  split. { apply wp_eq. by wp_go. }
  repeat split; try done.
  - by eapply tab_apiObject_memoized.
  - apply (tab_label s2 api this t2 true Hobj2 Ht2).
  - apply (tab_isDirty s2 api this t2 true Hobj2 Ht2).
  - apply (tab_isPinned s2 api this t2 true Hobj2 Ht2).
  - apply (tab_isPreview s2 api this t2 true Hobj2 Ht2).
  - apply (tab_kind s2 api this t2 true Hobj2 Ht2).
  - apply (tab_isActive s2 api this t2 true Hobj2 Ht2 g). cbn. by rewrite Hgetter.
Qed.

(** C8 at tab "a" of the example after the snapshot, updated with the
    record that marks it inactive. *)
Lemma apiObject_once_frozen_live_witness :
  ∃ api s1 s2,
    ExtHostEditorTab.apiObject 1 Scenario.after_snapshot = (Ok api, s1)
    ∧ objects s1 !! api = Some {| shape := TabApi 1; frozen := true |}
    ∧ ExtHostEditorTab.acceptDtoUpdate 1 (Scenario.record "a" false) s1 = (Ok (), s2)
    ∧ ExtHostEditorTab.apiObject 1 s2 = (Ok api, s2)
    ∧ ExtHostEditorTab.label api s2 = (Ok "a", s2).
Proof.
  destruct (apiObject_once_frozen_live Scenario.after_snapshot 1
              (Tab.new (Scenario.record "a" true) 0 0) (Scenario.record "a" false))
    as (api & s1 & Hrun & _ & _ & Hobj & _ & _ & s2 & t2 & g & Hupdate & H).
  - apply (reachable_step initial (AcceptEditorTabModel Scenario.snapshot) reachable_initial).
  - reflexivity.
  - exists api, s1, s2. split; [exact Hrun | ]. split; [exact Hobj | ].
    split; [exact Hupdate | ]. split; apply H.
Defined.

(** ** Resolving public objects *)

Lemma resolves_tab_back s s1 api :
  extends s s1 → api < next s → resolves_tab s1 api → resolves_tab s api.
Proof.
  intros Hext Hlt (group & g1 & tab & t1 & Hgroup & Hg1 & Htab & Ht1 & Hapi).
  rewrite (ext_extHostTabGroups _ _ Hext) in Hgroup.
  destruct (ext_tab_memo _ _ Hext _ _ _ Ht1 Hapi Hlt) as (t & Ht & Hapi0).
  pose proof (ext_groups _ _ Hext group) as Hg. rewrite Hg1 in Hg.
  destruct (groups s !! group) as [g|] eqn:Hg0; [ | done].
  cbn in Hg. injection Hg as _ Htabs _.
  exists group, g, tab, t. rewrite <- Htabs. eauto 10.
Qed.

Lemma resolves_group_back s s1 api :
  extends s s1 → api < next s → resolves_group s1 api → resolves_group s api.
Proof.
  intros Hext Hlt (group & g1 & Hgroup & Hg1 & Hapi).
  rewrite (ext_extHostTabGroups _ _ Hext) in Hgroup.
  destruct (ext_group_memo _ _ Hext _ _ _ Hg1 Hapi Hlt) as (g & Hg & Hapi0).
  exists group, g. eauto.
Qed.

(** The inner loop of [_findExtHostTabFromApi], over tabs that exist. *)
Lemma find_in_tabs_spec apiTab ts : ∀ s,
  wf s → Forall (λ tab, is_Some (tabs s !! tab)) ts →
  ∃ r s1,
    for_of_return ts (ExtHostEditorTabs.is_apiObject_of_tab apiTab) s = (Ok r, s1)
    ∧ wf s1 ∧ extends s s1
    ∧ ∀ tab, r = Some tab →
        tab ∈ ts ∧ ∃ t1, tabs s1 !! tab = Some t1 ∧ Tab._apiObject t1 = Some apiTab.
Proof.
  induction ts as [|tab ts IH]; intros s Hwf Hts.
  - exists None, s. split; [done | ]. split; [done | ]. split; [apply extends_refl | done].
  - apply Forall_cons in Hts as [[t Ht] Hts].
    destruct (tab_apiObject_spec _ _ _ Hwf Ht)
      as (api & s1 & Hrun & Hwf1 & Hext1 & _ & Hmemo & _).
    destruct (decide (api = apiTab)) as [->|Hne].
    + exists (Some tab), s1. split.
      { apply wp_eq. cbn [for_of_return]. unfold ExtHostEditorTabs.is_apiObject_of_tab.
        wp_go. wp_use Hrun. wp_go. rewrite bool_decide_eq_true_2 by done. by wp_go. }
      split; [done | ]. split; [done | ]. intros ? [= <-]. split; [left | ].
      destruct (tabs s1 !! tab) as [t1|]; [ | done]. exists t1. split; [done | ].
      by injection Hmemo.
    + destruct (IH s1 Hwf1) as (r & s2 & Hrest & Hwf2 & Hext2 & Hr).
      { eapply Forall_impl; [exact Hts | ]. cbn. intros tab' [t' Ht'].
        destruct (extends_tab _ _ _ _ Hext1 Ht') as (t1' & Ht1' & _). eauto. }
      exists r, s2. split.
      { apply wp_eq. cbn [for_of_return]. unfold ExtHostEditorTabs.is_apiObject_of_tab.
        wp_go. wp_use Hrun. wp_go. rewrite bool_decide_eq_false_2 by done. wp_go.
        by wp_use Hrest. }
      split; [done | ]. split; [by eapply extends_trans | ].
      intros tab' Htab'. destruct (Hr tab' Htab') as [Hin Hmemo']. split; [by right | done].
Qed.

(** [_findExtHostTabFromApi] in a well-formed state returns; what it
    returns is a tab of a listed group that remembers [apiTab]. *)
Lemma findExtHostTabFromApi_spec apiTab s :
  wf s →
  ∃ r s1,
    ExtHostEditorTabs._findExtHostTabFromApi apiTab s = (Ok r, s1)
    ∧ wf s1 ∧ extends s s1
    ∧ ∀ tab, r = Some tab → is_Some (tabs s1 !! tab) ∧ resolves_tab s1 apiTab.
Proof.
  intros Hwf. unfold ExtHostEditorTabs._findExtHostTabFromApi.
  assert (∀ gs s0, wf s0 → _extHostTabGroups s0 = _extHostTabGroups s →
    Forall (λ group, group ∈ _extHostTabGroups s) gs →
    ∃ r s1,
      for_of_return gs (λ group,
        ts ← ExtHostEditorTabGroup.tabs group;
        for_of_return ts (ExtHostEditorTabs.is_apiObject_of_tab apiTab)) s0 = (Ok r, s1)
      ∧ wf s1 ∧ extends s0 s1
      ∧ ∀ tab, r = Some tab → is_Some (tabs s1 !! tab) ∧ resolves_tab s1 apiTab) as Houter.
  { induction gs as [|group gs IH]; intros s0 Hwf0 Hlist Hgs.
    - exists None, s0. split; [done | ]. split; [done | ]. split; [apply extends_refl | done].
    - apply Forall_cons in Hgs as [Hgroup Hgs].
      assert (is_Some (groups s0 !! group)) as [g Hg].
      { pose proof (wf_store _ Hwf0) as Hstore. rewrite Forall_forall in Hstore.
        apply Hstore. by rewrite Hlist. }
      destruct (find_in_tabs_spec apiTab (Group._tabs g) s0 Hwf0)
        as (r & s1 & Hrun & Hwf1 & Hext1 & Hr).
      { eapply Forall_impl; [by apply (wf_group_tabs _ Hwf0) | ].
        cbn. intros tab (t & Ht & _). eauto. }
      destruct r as [tab|].
      + exists (Some tab), s1. split.
        { apply wp_eq. cbn [for_of_return]. wp_go. wp_use Hrun. by wp_go. }
        split; [done | ]. split; [done | ]. intros ? [= <-].
        destruct (Hr tab eq_refl) as (Hin & t1 & Ht1 & Hapi).
        split; [eauto | ].
        destruct (extends_group _ _ _ _ Hext1 Hg) as (g1 & Hg1 & Hfields).
        injection Hfields as _ Htabs _.
        exists group, g1, tab, t1. rewrite (ext_extHostTabGroups _ _ Hext1), Hlist, Htabs.
        eauto 10.
      + destruct (IH s1 Hwf1) as (r & s2 & Hrest & Hwf2 & Hext2 & Hr2); [ | done | ].
        { by rewrite (ext_extHostTabGroups _ _ Hext1). }
        exists r, s2. split.
        { apply wp_eq. cbn [for_of_return]. wp_go. wp_use Hrun. wp_go. by wp_use Hrest. }
        split; [done | ]. split; [by eapply extends_trans | done]. }
  destruct (Houter (_extHostTabGroups s) s Hwf eq_refl) as (r & s1 & Hrun & H).
  { by apply Forall_forall. }
  exists r, s1. split; [ | done]. apply wp_eq. wp_go. by wp_use Hrun.
Qed.

Lemma findExtHostTabGroupFromApi_spec apiTabGroup s :
  wf s →
  ∃ r s1,
    ExtHostEditorTabs._findExtHostTabGroupFromApi apiTabGroup s = (Ok r, s1)
    ∧ wf s1 ∧ extends s s1
    ∧ ∀ group, r = Some group → is_Some (groups s1 !! group) ∧ resolves_group s1 apiTabGroup.
Proof.
  intros Hwf. unfold ExtHostEditorTabs._findExtHostTabGroupFromApi.
  assert (∀ gs s0, wf s0 → _extHostTabGroups s0 = _extHostTabGroups s →
    Forall (λ group, group ∈ _extHostTabGroups s) gs →
    ∃ r s1,
      Array_find (ExtHostEditorTabs.is_apiObject_of_group apiTabGroup) gs s0 = (Ok r, s1)
      ∧ wf s1 ∧ extends s0 s1
      ∧ ∀ group, r = Some group →
          is_Some (groups s1 !! group) ∧ resolves_group s1 apiTabGroup) as Hloop.
  { induction gs as [|group gs IH]; intros s0 Hwf0 Hlist Hgs.
    - exists None, s0. split; [done | ]. split; [done | ]. split; [apply extends_refl | done].
    - apply Forall_cons in Hgs as [Hgroup Hgs].
      assert (is_Some (groups s0 !! group)) as [g Hg].
      { pose proof (wf_store _ Hwf0) as Hstore. rewrite Forall_forall in Hstore.
        apply Hstore. by rewrite Hlist. }
      destruct (group_apiObject_spec _ _ _ Hwf0 Hg)
        as (api & s1 & Hrun & Hwf1 & Hext1 & _ & Hmemo & _).
      destruct (decide (api = apiTabGroup)) as [->|Hne].
      + exists (Some group), s1. split.
        { apply wp_eq. cbn [Array_find]. unfold ExtHostEditorTabs.is_apiObject_of_group.
          wp_go. unfold ExtHostEditorTabGroup.apiObject. wp_use Hrun. wp_go.
          rewrite bool_decide_eq_true_2 by done. by wp_go. }
        split; [done | ]. split; [done | ]. intros ? [= <-].
        destruct (groups s1 !! group) as [g1|] eqn:Hg1; [ | done].
        split; [eauto | ]. exists group, g1.
        rewrite (ext_extHostTabGroups _ _ Hext1), Hlist.
        split; [done | ]. split; [done | ]. by injection Hmemo.
      + destruct (IH s1 Hwf1) as (r & s2 & Hrest & Hwf2 & Hext2 & Hr2); [ | done | ].
        { by rewrite (ext_extHostTabGroups _ _ Hext1). }
        exists r, s2. split.
        { apply wp_eq. cbn [Array_find]. unfold ExtHostEditorTabs.is_apiObject_of_group.
          wp_go. unfold ExtHostEditorTabGroup.apiObject. wp_use Hrun. wp_go.
          rewrite bool_decide_eq_false_2 by done. by wp_use Hrest. }
        split; [done | ]. split; [by eapply extends_trans | done]. }
  destruct (Hloop (_extHostTabGroups s) s Hwf eq_refl) as (r & s1 & Hrun & H).
  { by apply Forall_forall. }
  exists r, s1. split; [ | done]. apply wp_eq. wp_go. by wp_use Hrun.
Qed.

(** The loop of [_closeTabs]: it ends by returning the ids or by throwing,
    and it throws if one of the objects does not resolve. *)
Lemma closeTabs_loop apis : ∀ s acc,
  wf s →
  ∃ r s1,
    for_of_push apis (λ tab,
      extHostTab ← ExtHostEditorTabs._findExtHostTabFromApi tab;
      match extHostTab with
      | None => throw TabCloseInvalidTab
      | Some extHostTab => ExtHostEditorTab.tabId extHostTab
      end) acc s = (r, s1)
    ∧ extends s s1
    ∧ ∀ api, api ∈ apis → api < next s → ¬ resolves_tab s api → r = Throw TabCloseInvalidTab.
Proof.
  induction apis as [|x apis IH]; intros s acc Hwf.
  - exists (Ok acc), s. split; [done | ]. split; [apply extends_refl | ].
    intros api Hin. by apply elem_of_nil in Hin.
  - destruct (findExtHostTabFromApi_spec x s Hwf) as (found & s1 & Hfind & Hwf1 & Hext1 & Hfound).
    destruct found as [tab|].
    + destruct (Hfound tab eq_refl) as [[t1 Ht1] Hresolves].
      destruct (IH s1 (acc ++ [Tab.tabId t1]) Hwf1) as (r & s2 & Hrest & Hext2 & Hr).
      exists r, s2. split.
      { apply wp_eq. cbn [for_of_push]. wp_go. wp_use Hfind. wp_go. by wp_use Hrest. }
      split; [by eapply extends_trans | ].
      intros api Hin Hlt Hunresolved. apply (Hr api).
      * apply elem_of_cons in Hin as [->|Hin]; [ | done].
        destruct Hunresolved. by eapply resolves_tab_back.
      * pose proof (ext_next _ _ Hext1). lia.
      * intros Hres. apply Hunresolved. by eapply resolves_tab_back.
    + exists (Throw TabCloseInvalidTab), s1. split.
      { apply wp_eq. cbn [for_of_push]. wp_go. wp_use Hfind. by wp_go. }
      split; [done | done].
Qed.

Lemma closeGroups_loop apis : ∀ s acc,
  wf s →
  ∃ r s1,
    for_of_push apis (λ group,
      extHostGroup ← ExtHostEditorTabs._findExtHostTabGroupFromApi group;
      match extHostGroup with
      | None => throw GroupCloseInvalidGroup
      | Some extHostGroup => ExtHostEditorTabGroup.groupId extHostGroup
      end) acc s = (r, s1)
    ∧ extends s s1
    ∧ ∀ api, api ∈ apis → api < next s → ¬ resolves_group s api →
        r = Throw GroupCloseInvalidGroup.
Proof.
  induction apis as [|x apis IH]; intros s acc Hwf.
  - exists (Ok acc), s. split; [done | ]. split; [apply extends_refl | ].
    intros api Hin. by apply elem_of_nil in Hin.
  - destruct (findExtHostTabGroupFromApi_spec x s Hwf)
      as (found & s1 & Hfind & Hwf1 & Hext1 & Hfound).
    destruct found as [group|].
    + destruct (Hfound group eq_refl) as [[g1 Hg1] Hresolves].
      destruct (IH s1 (acc ++ [Group.groupId g1]) Hwf1) as (r & s2 & Hrest & Hext2 & Hr).
      exists r, s2. split.
      { apply wp_eq. cbn [for_of_push]. wp_go. wp_use Hfind. wp_go. by wp_use Hrest. }
      split; [by eapply extends_trans | ].
      intros api Hin Hlt Hunresolved. apply (Hr api).
      * apply elem_of_cons in Hin as [->|Hin]; [ | done].
        destruct Hunresolved. by eapply resolves_group_back.
      * pose proof (ext_next _ _ Hext1). lia.
      * intros Hres. apply Hunresolved. by eapply resolves_group_back.
    + exists (Throw GroupCloseInvalidGroup), s1. split.
      { apply wp_eq. cbn [for_of_push]. wp_go. wp_use Hfind. by wp_go. }
      split; [done | done].
Qed.

(** C6: in a reachable state, a close of a list of tabs in which some
    object does not resolve to a tab of the store (a stale object, or an
    object that is not of this module) throws, and nothing has been sent to
    the main thread when it does, whatever the other objects of the list
    are; the same holds for a close of a list of groups. *)
Theorem close_unresolved_sends_nothing s apis api preserveFocus reply :
  reachable s → api ∈ apis → is_Some (objects s !! api) →
  (¬ resolves_tab s api →
   ∃ s1, ExtHostEditorTabs._closeTabs apis preserveFocus reply s
           = (Throw TabCloseInvalidTab, s1)
     ∧ sent s1 = sent s)
  ∧ (¬ resolves_group s api →
     ∃ s1, ExtHostEditorTabs._closeGroups apis preserveFocus reply s
             = (Throw GroupCloseInvalidGroup, s1)
       ∧ sent s1 = sent s).
Proof.
  intros Hreach Hin Hobj. apply reachable_wf in Hreach as Hwf.
  assert (api < next s) as Hlt by by apply (wf_objects_below _ Hwf).
  split; intros Hunresolved.
  - destruct (closeTabs_loop apis s [] Hwf) as (r & s1 & Hrun & Hext & Hr).
    rewrite (Hr api Hin Hlt Hunresolved) in Hrun.
    exists s1. split; [ | by apply ext_sent].
    unfold ExtHostEditorTabs._closeTabs. by erewrite bind_Throw.
  - destruct (closeGroups_loop apis s [] Hwf) as (r & s1 & Hrun & Hext & Hr).
    rewrite (Hr api Hin Hlt Hunresolved) in Hrun.
    exists s1. split; [ | by apply ext_sent].
    unfold ExtHostEditorTabs._closeGroups. by erewrite bind_Throw.
Qed.

Lemma reachable_after_snapshot : reachable Scenario.after_snapshot.
Proof.
  exact (reachable_step initial (AcceptEditorTabModel Scenario.snapshot) reachable_initial).
Qed.

Lemma reachable_after_open : reachable Scenario.after_open.
Proof.
  exact (reachable_step Scenario.after_snapshot (AcceptTabOperation Scenario.open_b)
           reachable_after_snapshot).
Qed.

Lemma reachable_after_update : reachable Scenario.after_update.
Proof.
  exact (reachable_step Scenario.after_open (AcceptTabOperation Scenario.update_a)
           reachable_after_open).
Qed.

Lemma reachable_after_close : reachable Scenario.after_close.
Proof.
  exact (reachable_step Scenario.after_update (AcceptTabOperation Scenario.close_0)
           reachable_after_update).
Qed.

(** C6 at the end of the example: object 4 is the public object of tab "b",
    object 5 that of the closed tab "a", object 2 that of the group.  A
    close of [4; 5] as tabs and a close of [2; 5] as groups both throw with
    nothing sent. *)
Lemma close_unresolved_sends_nothing_witness :
  (∃ s1, ExtHostEditorTabs._closeTabs [4; 5] None true Scenario.after_close
           = (Throw TabCloseInvalidTab, s1)
     ∧ sent s1 = sent Scenario.after_close)
  ∧ (∃ s1, ExtHostEditorTabs._closeGroups [2; 5] None true Scenario.after_close
             = (Throw GroupCloseInvalidGroup, s1)
       ∧ sent s1 = sent Scenario.after_close).
Proof.
  assert (5 ∈ [4; 5]) as Hin1 by (right; left).
  assert (5 ∈ [2; 5]) as Hin2 by (right; left).
  assert (is_Some (objects Scenario.after_close !! 5)) as Hobj by (vm_compute; eauto).
  split.
  - apply (close_unresolved_sends_nothing Scenario.after_close [4; 5] 5 None true
             reachable_after_close Hin1 Hobj).
    intros (group & g & tab & t & Hgroup & Hg & Htab & Ht & Hapi).
    vm_compute in Hgroup. apply list_elem_of_singleton in Hgroup. subst group.
    vm_compute in Hg. injection Hg as <-.
    vm_compute in Htab. apply list_elem_of_singleton in Htab. subst tab.
    vm_compute in Ht. injection Ht as <-.
    vm_compute in Hapi. discriminate Hapi.
  - apply (close_unresolved_sends_nothing Scenario.after_close [2; 5] 5 None true
             reachable_after_close Hin2 Hobj).
    intros (group & g & Hgroup & Hg & Hapi).
    vm_compute in Hgroup. apply list_elem_of_singleton in Hgroup. subst group.
    vm_compute in Hg. injection Hg as <-.
    vm_compute in Hapi. discriminate Hapi.
Defined.

(** ** Observing [isActive] *)

Lemma tabs_apiObject_spec ts : ∀ s,
  wf s → Forall (λ tab, is_Some (tabs s !! tab)) ts →
  ∃ objs s1,
    Array_map ExtHostEditorTab.apiObject ts s = (Ok objs, s1)
    ∧ wf s1 ∧ extends s s1
    ∧ Forall2 (λ tab obj, objects s1 !! obj = Some {| shape := TabApi tab; frozen := true |})
        ts objs.
Proof.
  induction ts as [|tab ts IH]; intros s Hwf Hts.
  - exists [], s. split; [done | ]. split; [done | ]. split; [apply extends_refl | constructor].
  - apply Forall_cons in Hts as [[t Ht] Hts].
    destruct (tab_apiObject_spec _ _ _ Hwf Ht) as (api & s1 & Hrun & Hwf1 & Hext1 & Hobj & _).
    destruct (IH s1 Hwf1) as (objs & s2 & Hrest & Hwf2 & Hext2 & Hobjs).
    { eapply Forall_impl; [exact Hts | ]. cbn. intros tab' [t' Ht'].
      destruct (extends_tab _ _ _ _ Hext1 Ht') as (t1' & Ht1' & _). eauto. }
    exists (api :: objs), s2. split.
    { apply wp_eq. cbn [Array_map]. wp_go. wp_use Hrun. wp_go. wp_use Hrest. by wp_go. }
    split; [done | ]. split; [by eapply extends_trans | ].
    constructor; [ | done]. by apply (ext_objects _ _ Hext2).
Qed.

Lemma groups_apiObject_spec gs : ∀ s,
  wf s → Forall (λ group, is_Some (groups s !! group)) gs →
  ∃ objs s1,
    Array_map ExtHostEditorTabGroup.apiObject gs s = (Ok objs, s1)
    ∧ wf s1 ∧ extends s s1
    ∧ Forall2 (λ group obj,
        objects s1 !! obj = Some {| shape := TabGroupApi group; frozen := true |}) gs objs.
Proof.
  induction gs as [|group gs IH]; intros s Hwf Hgs.
  - exists [], s. split; [done | ]. split; [done | ]. split; [apply extends_refl | constructor].
  - apply Forall_cons in Hgs as [[g Hg] Hgs].
    destruct (group_apiObject_spec _ _ _ Hwf Hg)
      as (api & s1 & Hrun & Hwf1 & Hext1 & Hobj & _).
    destruct (IH s1 Hwf1) as (objs & s2 & Hrest & Hwf2 & Hext2 & Hobjs).
    { eapply Forall_impl; [exact Hgs | ]. cbn. intros group' [g' Hg'].
      destruct (extends_group _ _ _ _ Hext1 Hg') as (g1' & Hg1' & _). eauto. }
    exists (api :: objs), s2. split.
    { apply wp_eq. cbn [Array_map]. wp_go. unfold ExtHostEditorTabGroup.apiObject.
      wp_use Hrun. wp_go. wp_use Hrest. by wp_go. }
    split; [done | ]. split; [by eapply extends_trans | ].
    constructor; [ | done]. by apply (ext_objects _ _ Hext2).
Qed.

Lemma tab_isActive_reports s obj tab b fr :
  objects s !! obj = Some {| shape := TabApi tab; frozen := fr |} →
  tab_reports s tab = Some b →
  ExtHostEditorTab.isActive obj s = (Ok b, s).
Proof.
  unfold tab_reports. intros Hobj Hreports.
  destruct (tabs s !! tab) as [t|] eqn:Ht; [ | done]. cbn in Hreports.
  destruct (groups s !! Tab._activeTabIdGetter t) as [g|] eqn:Hg; [ | done].
  injection Hreports as <-. by eapply tab_isActive.
Qed.

Lemma group_isActive_reports s obj group b fr :
  objects s !! obj = Some {| shape := TabGroupApi group; frozen := fr |} →
  group_reports s group = Some b →
  ExtHostEditorTabGroup.isActive obj s = (Ok b, s).
Proof.
  unfold group_reports. intros Hobj Hreports.
  destruct (groups s !! group) as [g|] eqn:Hg; [ | done].
  injection Hreports as <-.
  apply wp_eq. unfold ExtHostEditorTabGroup.isActive, ExtHostEditorTabGroup.that. by wp_go.
Qed.

Lemma tabs_isActive_reports s : ∀ ts objs flags,
  Forall2 (λ tab obj, objects s !! obj = Some {| shape := TabApi tab; frozen := true |})
    ts objs →
  Forall2 (λ tab b, tab_reports s tab = Some b) ts flags →
  Array_map ExtHostEditorTab.isActive objs s = (Ok flags, s).
Proof.
  intros ts objs flags Hobjs. revert flags.
  induction Hobjs as [|tab obj ts objs Hobj Hobjs IH]; intros flags Hflags.
  - by apply Forall2_nil_inv_l in Hflags as ->.
  - apply Forall2_cons_inv_l in Hflags as (b & flags' & Hb & Hflags' & ->).
    apply wp_eq. cbn [Array_map]. wp_go.
    wp_use (tab_isActive_reports _ _ _ _ _ Hobj Hb). wp_go. wp_use (IH _ Hflags'). by wp_go.
Qed.

Lemma groups_isActive_reports s : ∀ gs objs flags,
  Forall2 (λ group obj,
    objects s !! obj = Some {| shape := TabGroupApi group; frozen := true |}) gs objs →
  Forall2 (λ group b, group_reports s group = Some b) gs flags →
  Array_map ExtHostEditorTabGroup.isActive objs s = (Ok flags, s).
Proof.
  intros gs objs flags Hobjs. revert flags.
  induction Hobjs as [|group obj gs objs Hobj Hobjs IH]; intros flags Hflags.
  - by apply Forall2_nil_inv_l in Hflags as ->.
  - apply Forall2_cons_inv_l in Hflags as (b & flags' & Hb & Hflags' & ->).
    apply wp_eq. cbn [Array_map]. wp_go.
    wp_use (group_isActive_reports _ _ _ _ _ Hobj Hb). wp_go. wp_use (IH _ Hflags').
    by wp_go.
Qed.

(** ** At most one flag *)

Lemma count_true_none {A} `{EqDecision A} (ids : list A) (a : A) flags :
  a ∉ ids → Forall2 (λ id b, b = bool_decide (id = a)) ids flags → count_true flags = 0.
Proof.
  intros Hnotin Hflags. induction Hflags as [|id b ids flags Hb Hflags IH]; [done | ].
  apply not_elem_of_cons in Hnotin as [Hne Hnotin]. subst b.
  unfold count_true in *. rewrite filter_cons_False; [by apply IH | ].
  by rewrite bool_decide_eq_false_2.
Qed.

(** Flags computed by comparing pairwise distinct ids with one id: at most
    one of them is set. *)
Lemma count_true_le_1 {A} `{EqDecision A} (ids : list A) (a : A) flags :
  NoDup ids → Forall2 (λ id b, b = bool_decide (id = a)) ids flags → count_true flags ≤ 1.
Proof.
  intros Hnodup Hflags. induction Hflags as [|id b ids flags Hb Hflags IH]; [cbn; lia | ].
  apply NoDup_cons in Hnodup as [Hnotin Hnodup]. subst b.
  unfold count_true in *. destruct (decide (id = a)) as [->|Hne].
  - rewrite filter_cons_True by by rewrite bool_decide_eq_true_2.
    cbn. pose proof (count_true_none ids a flags Hnotin Hflags) as H0.
    unfold count_true in H0. lia.
  - rewrite filter_cons_False by by rewrite bool_decide_eq_false_2.
    by apply IH.
Qed.

(** The flags that the tabs listed by a group report, next to the ids of
    those tabs. *)
Lemma tab_flags s group g : ∀ ts,
  groups s !! group = Some g →
  Forall (λ tab, ∃ t, tabs s !! tab = Some t ∧ Tab._activeTabIdGetter t = group) ts →
  ∃ flags,
    Forall2 (λ tab b, tab_reports s tab = Some b) ts flags
    ∧ Forall2 (λ id b, b = bool_decide (id = Group._activeTabId g))
        (omap (λ tab, Tab.tabId <$> tabs s !! tab) ts) flags.
Proof.
  intros ts Hg Hts. induction Hts as [|tab ts (t & Ht & Hgetter) Hts (flags & IH1 & IH2)].
  - exists []. split; constructor.
  - exists (bool_decide (Tab.tabId t = Group._activeTabId g) :: flags). split.
    + constructor; [ | done]. unfold tab_reports. rewrite Ht. cbn. by rewrite Hgetter, Hg.
    + cbn. rewrite Ht. cbn. by constructor.
Qed.

Lemma group_flags s : ∀ gs,
  Forall (λ group, is_Some (groups s !! group)) gs →
  ∃ flags,
    Forall2 (λ group b, group_reports s group = Some b) gs flags
    ∧ Forall2 (λ id b, b = bool_decide (id = _activeGroupId s))
        (Some <$> omap (λ group, Group.groupId <$> groups s !! group) gs) flags.
Proof.
  intros gs Hgs. induction Hgs as [|group gs [g Hg] Hgs (flags & IH1 & IH2)].
  - exists []. split; constructor.
  - exists (bool_decide (Some (Group.groupId g) = _activeGroupId s) :: flags). split.
    + constructor; [ | done]. unfold group_reports. by rewrite Hg.
    + cbn. rewrite Hg. cbn. by constructor.
Qed.

Lemma extends_tabId s s1 l :
  extends s s1 → Tab.tabId <$> tabs s1 !! l = Tab.tabId <$> tabs s !! l.
Proof.
  intros Hext. pose proof (ext_tabs _ _ Hext l) as H.
  destruct (tabs s1 !! l) as [t1|], (tabs s !! l) as [t|]; cbn in *; try done.
  injection H as Hdto _ _ _. unfold Tab.tabId. by rewrite Hdto.
Qed.

Lemma extends_groupId s s1 l :
  extends s s1 → Group.groupId <$> groups s1 !! l = Group.groupId <$> groups s !! l.
Proof.
  intros Hext. pose proof (ext_groups _ _ Hext l) as H.
  destruct (groups s1 !! l) as [g1|], (groups s !! l) as [g|]; cbn in *; try done.
  injection H as Hdto _ _. unfold Group.groupId. by rewrite Hdto.
Qed.

(** C2: in every reachable state, what extension code observes has at most
    one active tab per group and at most one active group.  For a group
    whose tabs have pairwise distinct ids, reading [tabs] of its public
    object and then [isActive] of each tab returns one flag per tab, at
    most one of them true; if the groups of the store have pairwise
    distinct ids, reading [groups] and then [isActive] of each group returns
    one flag per group, at most one of them true.  Each flag is the
    comparison of the id of the tab (group) with the one active tab id of
    the group (active group id of the store). *)
Theorem at_most_one_active s :
  reachable s →
  (∀ group g groupObj,
     groups s !! group = Some g →
     objects s !! groupObj = Some {| shape := TabGroupApi group; frozen := true |} →
     NoDup (tab_ids s g) →
     ∃ flags s1,
       observe_tabs_isActive groupObj s = (Ok flags, s1)
       ∧ length flags = length (Group._tabs g)
       ∧ count_true flags ≤ 1)
  ∧ (NoDup (group_ids s) →
     ∃ flags s1,
       observe_groups_isActive s = (Ok flags, s1)
       ∧ length flags = length (_extHostTabGroups s)
       ∧ count_true flags ≤ 1).
Proof.
  intros Hreach. apply reachable_wf in Hreach as Hwf. split.
  - intros group g groupObj Hg Hobj Hnodup.
    destruct (tabs_apiObject_spec (Group._tabs g) s Hwf)
      as (objs & s1 & Hrun & Hwf1 & Hext & Hobjs).
    { eapply Forall_impl; [by apply (wf_group_tabs _ Hwf) | ].
      cbn. intros tab (t & Ht & _). eauto. }
    destruct (extends_group _ _ _ _ Hext Hg) as (g1 & Hg1 & Hfields).
    injection Hfields as _ Htabs Hactive.
    destruct (tab_flags s1 group g1 (Group._tabs g1) Hg1) as (flags & Hreports & Hflags).
    { by apply (wf_group_tabs _ Hwf1). }
    rewrite Htabs in Hreports, Hflags.
    exists flags, s1. split; [ | split].
    + apply wp_eq. unfold observe_tabs_isActive, ExtHostEditorTabGroup.tabs_getter,
        ExtHostEditorTabGroup.that.
      wp_go. wp_use Hrun. by wp_use (tabs_isActive_reports _ _ _ _ Hobjs Hreports).
    + symmetry. by eapply Forall2_length.
    + eapply count_true_le_1; [ | exact Hflags].
      erewrite list_omap_ext; [exact Hnodup | ].
      apply Forall2_same_length_lookup_2; [done | ].
      intros i tab tab' Htab Htab'. rewrite Htab in Htab'. injection Htab' as <-.
      by apply extends_tabId.
  - intros Hnodup.
    destruct (groups_apiObject_spec (_extHostTabGroups s) s Hwf (wf_store _ Hwf))
      as (objs & s1 & Hrun & Hwf1 & Hext & Hobjs).
    destruct (group_flags s1 (_extHostTabGroups s)) as (flags & Hreports & Hflags).
    { rewrite <- (ext_extHostTabGroups _ _ Hext). apply (wf_store _ Hwf1). }
    exists flags, s1. split; [ | split].
    + apply wp_eq. unfold observe_groups_isActive, ExtHostEditorTabs.groups_getter.
      wp_go. wp_use Hrun. by wp_use (groups_isActive_reports _ _ _ _ Hobjs Hreports).
    + symmetry. by eapply Forall2_length.
    + eapply count_true_le_1; [ | exact Hflags].
      apply (NoDup_fmap_2 Some).
      erewrite list_omap_ext; [exact Hnodup | ].
      apply Forall2_same_length_lookup_2; [done | ].
      intros i group group' Hgroup Hgroup'. rewrite Hgroup in Hgroup'.
      injection Hgroup' as <-. by apply extends_groupId.
Qed.

(** C2 at the example after "b" was opened: the group at location 0, whose
    public object is object 2, lists the tabs "a" and "b". *)
Lemma at_most_one_active_witness :
  (∃ flags s1,
     observe_tabs_isActive 2 Scenario.after_open = (Ok flags, s1)
     ∧ length flags = 2
     ∧ count_true flags ≤ 1)
  ∧ (∃ flags s1,
       observe_groups_isActive Scenario.after_open = (Ok flags, s1)
       ∧ length flags = 1
       ∧ count_true flags ≤ 1).
Proof.
  destruct (at_most_one_active Scenario.after_open reachable_after_open) as [Htabs Hgroups].
  split.
  - apply (Htabs 0
      (Group.mk (Some 2) (List.hd (IEditorTabGroupDto.mk true 0 [] 1) Scenario.snapshot)
         [1; 3] "a") 2).
    + vm_compute. reflexivity.
    + vm_compute. reflexivity.
    + apply (bool_decide_unpack _). vm_compute. exact I.
  - apply Hgroups. apply (bool_decide_unpack _). vm_compute. exact I.
Defined.

(** ** The update rule, on reachable states *)

Lemma find_tabId_exists h id ts tab t :
  Forall (λ tab, is_Some (h !! tab)) ts →
  tab ∈ ts → h !! tab = Some t → Tab.tabId t = id →
  ∃ tab', find_tabId h id ts = Ok (Some tab').
Proof.
  intros Hts Hin Ht Hid. induction Hts as [|x ts [tx Hx] Hts IH]; [by apply elem_of_nil in Hin | ].
  cbn. rewrite Hx. case_bool_decide; [eauto | ].
  apply elem_of_cons in Hin as [->|Hin]; [congruence | by apply IH].
Qed.

(** C1: in a reachable state, an update whose record has the id of a tab of
    the group is accepted, and it leaves the active tab id of the group as
    follows: the id of the record if the record is active; empty if the
    record is inactive and the active tab id was the id of the record;
    unchanged otherwise.  An inactive record applied a second time is
    accepted again and changes nothing, so the active state after two
    applications is the one after the first. *)
Theorem update_active_rule s this g operation tab t :
  reachable s →
  groups s !! this = Some g →
  TabOperation.kind operation = TAB_UPDATE →
  let dto := TabOperation.tabDto operation in
  tab ∈ Group._tabs g → tabs s !! tab = Some t → Tab.tabId t = IEditorTabDto.id dto →
  ∃ tab' s1 g1,
    ExtHostEditorTabGroup.acceptTabOperation this operation s = (Ok tab', s1)
    ∧ groups s1 !! this = Some g1
    ∧ (IEditorTabDto.isActive dto = true →
       Group._activeTabId g1 = IEditorTabDto.id dto)
    ∧ (IEditorTabDto.isActive dto = false →
       Group._activeTabId g = IEditorTabDto.id dto →
       Group._activeTabId g1 = "")
    ∧ (IEditorTabDto.isActive dto = false →
       Group._activeTabId g ≠ IEditorTabDto.id dto →
       Group._activeTabId g1 = Group._activeTabId g)
    ∧ (IEditorTabDto.isActive dto = false →
       ExtHostEditorTabGroup.acceptTabOperation this operation s1 = (Ok tab', s1)).
Proof.
  intros Hreach Hg Hkind dto Hin Ht Hid. apply reachable_wf in Hreach as Hwf.
  destruct (find_tabId_exists (tabs s) (IEditorTabDto.id dto) (Group._tabs g) tab t)
    as [tab' Hfind]; try done.
  { eapply Forall_impl; [by apply (wf_group_tabs _ Hwf) | ].
    cbn. intros x (tx & Hx & _). eauto. }
  destruct (find_tabId_Some _ _ _ _ Hfind) as (_ & t' & Ht' & _).
  pose proof (acceptTabOperation_update _ _ _ _ _ _ Hkind Hg Hfind Ht') as Hrun.
  destruct (accepted_update_active _ _ _ _ _ _ Hkind Hg Hrun)
    as [(g1 & Hg1 & Hrules) Hagain].
  eexists tab', _, g1. split; [exact Hrun | ]. split; [exact Hg1 | ].
  destruct Hrules as (H1 & H2 & H3). auto.
Qed.

(** C1 at the update of the example: "a", at location 1, is the active tab
    of the group at location 0 and its record comes in inactive. *)
Lemma update_active_rule_witness :
  ∃ tab' s1 g1,
    ExtHostEditorTabGroup.acceptTabOperation 0 Scenario.update_a Scenario.after_open
      = (Ok tab', s1)
    ∧ groups s1 !! 0 = Some g1
    ∧ Group._activeTabId g1 = ""
    ∧ ExtHostEditorTabGroup.acceptTabOperation 0 Scenario.update_a s1 = (Ok tab', s1).
Proof.
  destruct (update_active_rule Scenario.after_open 0
    (Group.mk (Some 2) (List.hd (IEditorTabGroupDto.mk true 0 [] 1) Scenario.snapshot)
       [1; 3] "a")
    Scenario.update_a 1 (Tab.new (Scenario.record "a" true) 0 0))
    as (tab' & s1 & g1 & Hrun & Hg1 & _ & Hclear & _ & Hagain).
  - exact reachable_after_open.
  - vm_compute. reflexivity.
  - reflexivity.
  - apply (bool_decide_unpack _). vm_compute. exact I.
  - vm_compute. reflexivity.
  - reflexivity.
  - exists tab', s1, g1. split; [exact Hrun | ]. split; [exact Hg1 | ]. split.
    + apply Hclear; reflexivity.
    + apply Hagain. reflexivity.
Defined.

(** * Further properties of the mirror *)

(** ** Closing and opening tabs by index *)

Lemma relative_start_at len start i :
  i < len →
  start = Z.of_nat i ∨ start = (Z.of_nat i - Z.of_nat len)%Z →
  relative_start len start = i.
Proof.
  unfold relative_start. intros Hi Hstart.
  destruct (start <? 0)%Z eqn:E; [apply Z.ltb_lt in E | apply Z.ltb_ge in E]; lia.
Qed.

Lemma splice_delete_at {A} (l : list A) start i x :
  relative_start (length l) start = i → l !! i = Some x →
  splice l start 1 [] = ([x], delete i l).
Proof.
  intros Hstart Hx. unfold splice. cbv zeta. rewrite Hstart.
  rewrite (drop_S _ _ _ Hx). cbn. rewrite take_0.
  by rewrite delete_take_drop, Nat.add_1_r.
Qed.

Lemma splice_insert_at {A} (l : list A) i x :
  splice l (Z.of_nat i) 0 [x] = ([], take i l ++ x :: drop i l).
Proof.
  unfold splice, relative_start. cbv zeta.
  destruct (Z.of_nat i <? 0)%Z eqn:E; [apply Z.ltb_lt in E; lia | ].
  rewrite take_0, Nat.add_0_r. f_equal.
  destruct (decide (i ≤ length l)).
  - by replace (Z.to_nat (Z.min (Z.of_nat i) (Z.of_nat (length l)))) with i by lia.
  - replace (Z.to_nat (Z.min (Z.of_nat i) (Z.of_nat (length l)))) with (length l) by lia.
    by rewrite !take_ge, !drop_ge by lia.
Qed.

(** The state after a close where [splice] starts at a tab of the group. *)
Lemma group_close_rel s this g operation i tab t :
  groups s !! this = Some g →
  TabOperation.kind operation = TAB_CLOSE →
  Group._tabs g !! i = Some tab →
  relative_start (length (Group._tabs g)) (TabOperation.index operation) = i →
  tabs s !! tab = Some t →
  ExtHostEditorTabGroup.acceptTabOperation this operation s
  = (Ok tab,
     set_groups
       (<[this := Group.set_activeTabId
                    (if bool_decide (Tab.tabId t = Group._activeTabId g) then ""
                     else Group._activeTabId g)
                    (Group.set_tabs (delete i (Group._tabs g)) g)]> (groups s)) s).
Proof.
  intros Hg Hkind Htab Hstart Ht.
  pose proof (splice_delete_at _ _ _ _ Hstart Htab) as Hsplice.
  apply wp_eq. unfold ExtHostEditorTabGroup.acceptTabOperation. rewrite Hkind.
  case_decide; [done | ]. case_decide; [ | done].
  wp_go. rewrite Hsplice. cbn. wp_go.
  cbn. destruct (decide (Tab.tabId t = Group._activeTabId g)) as [Hactive|Hactive].
  - rewrite !bool_decide_eq_true_2 by done. wp_go.
    f_equal. unfold set_groups. cbn. by rewrite insert_insert_eq.
  - rewrite !bool_decide_eq_false_2 by done. by wp_go.
Qed.

(** The state after a close at the index of a tab of the group. *)
Lemma group_close_at s this g operation i tab t :
  groups s !! this = Some g →
  TabOperation.kind operation = TAB_CLOSE →
  Group._tabs g !! i = Some tab →
  TabOperation.index operation = Z.of_nat i
  ∨ TabOperation.index operation = (Z.of_nat i - Z.of_nat (length (Group._tabs g)))%Z →
  tabs s !! tab = Some t →
  ExtHostEditorTabGroup.acceptTabOperation this operation s
  = (Ok tab,
     set_groups
       (<[this := Group.set_activeTabId
                    (if bool_decide (Tab.tabId t = Group._activeTabId g) then ""
                     else Group._activeTabId g)
                    (Group.set_tabs (delete i (Group._tabs g)) g)]> (groups s)) s).
Proof.
  intros Hg Hkind Htab Hindex Ht.
  pose proof (lookup_lt_Some _ _ _ Htab) as Hlt.
  by apply group_close_rel; [ | | | apply relative_start_at | ].
Qed.

(** X1: a close whose index is that of a tab of the group, counted from the
    front or (negative) from the end, returns that tab and removes exactly
    it: the other tabs keep their order.  The active tab id is cleared if it
    was the id of the removed tab and is kept otherwise; the records of the
    tabs, the public objects and both traces are untouched. *)
Theorem close_removes_tab_at_index s this g operation i tab t :
  groups s !! this = Some g →
  TabOperation.kind operation = TAB_CLOSE →
  Group._tabs g !! i = Some tab →
  TabOperation.index operation = Z.of_nat i
  ∨ TabOperation.index operation = (Z.of_nat i - Z.of_nat (length (Group._tabs g)))%Z →
  tabs s !! tab = Some t →
  ∃ s1 g1,
    ExtHostEditorTabGroup.acceptTabOperation this operation s = (Ok tab, s1)
    ∧ groups s1 !! this = Some g1
    ∧ Group._tabs g1 = delete i (Group._tabs g)
    ∧ length (Group._tabs g1) = length (Group._tabs g) - 1
    ∧ Group._activeTabId g1
      = (if bool_decide (Tab.tabId t = Group._activeTabId g) then ""
         else Group._activeTabId g)
    ∧ Group._dto g1 = Group._dto g
    ∧ tabs s1 = tabs s ∧ objects s1 = objects s
    ∧ fired s1 = fired s ∧ sent s1 = sent s.
Proof.
  intros Hg Hkind Htab Hindex Ht.
  eexists _, _. split; [by eapply group_close_at | ].
  cbn. rewrite lookup_insert_eq. split_and!; try reflexivity.
  cbn. apply length_delete. eauto.
Qed.

(** X1 in the example with two tabs: a close at index -2 removes "a". *)
Lemma close_removes_tab_at_index_witness :
  ∃ s1 g1,
    ExtHostEditorTabGroup.acceptTabOperation 0
      (TabOperation.mk TAB_CLOSE (-2) (Scenario.record "" false) 1) Scenario.after_open
      = (Ok 1, s1)
    ∧ groups s1 !! 0 = Some g1
    ∧ Group._tabs g1 = [3]
    ∧ Group._activeTabId g1 = "".
Proof.
  destruct (close_removes_tab_at_index Scenario.after_open 0
    (Group.mk (Some 2) (List.hd (IEditorTabGroupDto.mk true 0 [] 1) Scenario.snapshot)
       [1; 3] "a")
    (TabOperation.mk TAB_CLOSE (-2) (Scenario.record "" false) 1)
    0 1 (Tab.new (Scenario.record "a" true) 0 0))
    as (s1 & g1 & Hrun & Hg1 & Htabs & _ & Hactive & _).
  - vm_compute. reflexivity.
  - reflexivity.
  - reflexivity.
  - right. reflexivity.
  - vm_compute. reflexivity.
  - exists s1, g1. split; [exact Hrun | ]. split; [exact Hg1 | ].
    split; [exact Htabs | exact Hactive].
Defined.

(** The state after an open at a non-negative index. *)
Lemma group_open_at s this g operation i :
  groups s !! this = Some g →
  TabOperation.kind operation = TAB_OPEN →
  TabOperation.index operation = Z.of_nat i →
  let dto := TabOperation.tabDto operation in
  ExtHostEditorTabGroup.acceptTabOperation this operation s
  = (Ok (next s),
     set_groups
       (<[this := Group.set_activeTabId
                    (if IEditorTabDto.isActive dto then IEditorTabDto.id dto
                     else Group._activeTabId g)
                    (Group.set_tabs
                       (take i (Group._tabs g) ++ next s :: drop i (Group._tabs g)) g)]>
          (groups s))
       (set_tabs (<[next s := Tab.new dto this this]> (tabs s))
          (set_next (S (next s)) s))).
Proof.
  intros Hg Hkind Hindex dto.
  apply wp_eq. unfold ExtHostEditorTabGroup.acceptTabOperation, ExtHostEditorTab.new.
  rewrite Hkind. case_decide; [ | done]. fold dto.
  wp_go. rewrite Hindex, splice_insert_at. cbn.
  destruct (IEditorTabDto.isActive dto); wp_go.
  - f_equal. unfold set_groups. cbn. by rewrite insert_insert_eq.
  - done.
Qed.

(** X2: an open at a non-negative index is accepted and returns a new
    projection, built from the incoming record, that no group listed
    before.  It is inserted at that index, or at the end when the index is
    past the end, and the tabs that were there keep their order and their
    records.  The active tab id becomes the id of the record if the record
    is active and is kept otherwise. *)
Theorem open_inserts_tab_at_index s this g operation i :
  reachable s →
  groups s !! this = Some g →
  TabOperation.kind operation = TAB_OPEN →
  TabOperation.index operation = Z.of_nat i →
  let dto := TabOperation.tabDto operation in
  ∃ s1 g1,
    ExtHostEditorTabGroup.acceptTabOperation this operation s = (Ok (next s), s1)
    ∧ (∀ group g', groups s !! group = Some g' → next s ∉ Group._tabs g')
    ∧ groups s1 !! this = Some g1
    ∧ Group._tabs g1 = take i (Group._tabs g) ++ next s :: drop i (Group._tabs g)
    ∧ length (Group._tabs g1) = S (length (Group._tabs g))
    ∧ (length (Group._tabs g) ≤ i → Group._tabs g1 = Group._tabs g ++ [next s])
    ∧ Group._activeTabId g1
      = (if IEditorTabDto.isActive dto then IEditorTabDto.id dto else Group._activeTabId g)
    ∧ tabs s1 !! next s = Some (Tab.new dto this this)
    ∧ (∀ tab, tab ≠ next s → tabs s1 !! tab = tabs s !! tab)
    ∧ objects s1 = objects s ∧ fired s1 = fired s ∧ sent s1 = sent s.
Proof.
  intros Hreach Hg Hkind Hindex dto. apply reachable_wf in Hreach as Hwf.
  eexists _, _. split; [by eapply group_open_at | ].
  cbn. rewrite !lookup_insert_eq. split_and!; try reflexivity.
  - intros group g' Hg' Hin.
    pose proof (wf_group_tabs _ Hwf _ _ Hg') as Htabs. rewrite Forall_forall in Htabs.
    destruct (Htabs _ Hin) as (t & Ht & _).
    assert (next s < next s); [ | lia]. apply (wf_tabs_below _ Hwf). eauto.
  - cbn. rewrite length_app. cbn. rewrite length_take, length_drop. lia.
  - cbn. intros Hge. by rewrite take_ge, drop_ge by done.
  - intros tab Hne. by rewrite lookup_insert_ne.
Qed.

(** X2 at the open of the example. *)
Lemma open_inserts_tab_at_index_witness :
  ∃ s1 g1,
    ExtHostEditorTabGroup.acceptTabOperation 0 Scenario.open_b Scenario.after_snapshot
      = (Ok 3, s1)
    ∧ groups s1 !! 0 = Some g1
    ∧ Group._tabs g1 = [1; 3]
    ∧ Group._activeTabId g1 = "a".
Proof.
  destruct (open_inserts_tab_at_index Scenario.after_snapshot 0
    (Group.mk (Some 2) (List.hd (IEditorTabGroupDto.mk true 0 [] 1) Scenario.snapshot)
       [1] "a") Scenario.open_b 1)
    as (s1 & g1 & Hrun & _ & Hg1 & Htabs & _ & _ & Hactive & _).
  - exact reachable_after_snapshot.
  - vm_compute. reflexivity.
  - reflexivity.
  - reflexivity.
  - exists s1, g1. split; [exact Hrun | ]. split; [exact Hg1 | ].
    split; [exact Htabs | exact Hactive].
Defined.

(** X3: opening a tab at an index within the list and closing the tab at
    that index again returns the projection that was opened and gives back
    the tab list of before.  The active tab id is not given back: if the
    opened record was active, or carried the id that was active, the group
    is left without an active tab. *)
Theorem open_then_close_restores_tabs s this g open close i :
  reachable s →
  groups s !! this = Some g →
  TabOperation.kind open = TAB_OPEN → TabOperation.index open = Z.of_nat i →
  TabOperation.kind close = TAB_CLOSE → TabOperation.index close = Z.of_nat i →
  i ≤ length (Group._tabs g) →
  let dto := TabOperation.tabDto open in
  ∃ tab s1 s2 g2,
    ExtHostEditorTabGroup.acceptTabOperation this open s = (Ok tab, s1)
    ∧ ExtHostEditorTabGroup.acceptTabOperation this close s1 = (Ok tab, s2)
    ∧ groups s2 !! this = Some g2
    ∧ Group._tabs g2 = Group._tabs g
    ∧ Group._activeTabId g2
      = (if IEditorTabDto.isActive dto
            || bool_decide (IEditorTabDto.id dto = Group._activeTabId g)
         then "" else Group._activeTabId g).
Proof.
  intros Hreach Hg Hopen Hiopen Hclose Hiclose Hi dto.
  pose proof (group_open_at s this g open i Hg Hopen Hiopen) as Hrun1.
  cbv zeta in Hrun1. fold dto in Hrun1.
  set (l := Group._tabs g) in *.
  set (g1 := Group.set_activeTabId _ _) in Hrun1.
  set (s1 := set_groups _ _) in Hrun1.
  assert (Group._tabs g1 !! i = Some (next s)) as Htab.
  { cbn. apply list_lookup_middle. by rewrite length_take_le. }
  assert (groups s1 !! this = Some g1) as Hg1 by apply lookup_insert_eq.
  assert (tabs s1 !! next s = Some (Tab.new dto this this)) as Ht1 by apply lookup_insert_eq.
  pose proof (group_close_at s1 this g1 close i (next s) (Tab.new dto this this)
                Hg1 Hclose Htab (or_introl Hiclose) Ht1) as Hrun2.
  eexists (next s), s1, _, _. split; [exact Hrun1 | ]. split; [exact Hrun2 | ].
  cbn. rewrite lookup_insert_eq. split; [reflexivity | ]. cbn. split.
  - replace i with (length (take i l)) at 1 by by rewrite length_take_le.
    by rewrite delete_middle, take_drop.
  - unfold Tab.tabId. cbn. destruct (IEditorTabDto.isActive dto); cbn.
    + by rewrite bool_decide_eq_true_2.
    + done.
Qed.

(** X3 in the example after the snapshot, with an active "b" at index 0. *)
Lemma open_then_close_restores_tabs_witness :
  ∃ tab s1 s2 g2,
    ExtHostEditorTabGroup.acceptTabOperation 0
      (TabOperation.mk TAB_OPEN 0 (Scenario.record "b" true) 1) Scenario.after_snapshot
      = (Ok tab, s1)
    ∧ ExtHostEditorTabGroup.acceptTabOperation 0 Scenario.close_0 s1 = (Ok tab, s2)
    ∧ groups s2 !! 0 = Some g2
    ∧ Group._tabs g2 = [1]
    ∧ Group._activeTabId g2 = "".
Proof.
  apply (open_then_close_restores_tabs Scenario.after_snapshot 0
    (Group.mk (Some 2) (List.hd (IEditorTabGroupDto.mk true 0 [] 1) Scenario.snapshot)
       [1] "a")
    (TabOperation.mk TAB_OPEN 0 (Scenario.record "b" true) 1) Scenario.close_0 0).
  - exact reachable_after_snapshot.
  - vm_compute. reflexivity.
  - reflexivity.
  - reflexivity.
  - reflexivity.
  - reflexivity.
  - cbn. lia.
Defined.

(** ** A close outside the list *)

Lemma relative_start_below len start :
  (start < - Z.of_nat len)%Z → relative_start len start = 0.
Proof.
  unfold relative_start. intros H.
  destruct (start <? 0)%Z eqn:E; [apply Z.ltb_lt in E | apply Z.ltb_ge in E]; lia.
Qed.

(** X4: a close at an index at or past the end of the list of tabs, and
    any close on a group without tabs, throws the error that names the
    index and leaves the state as it was.  A close at an index below minus
    the length does not throw: in a reachable state it removes the first
    tab of the group. *)
Theorem close_outside_list s this g operation :
  reachable s →
  groups s !! this = Some g →
  TabOperation.kind operation = TAB_CLOSE →
  ((Z.of_nat (length (Group._tabs g)) ≤ TabOperation.index operation)%Z
   ∨ Group._tabs g = [] →
   ExtHostEditorTabGroup.acceptTabOperation this operation s
   = (Throw (TabCloseIndexDoesNotExist (TabOperation.index operation)), s))
  ∧ (∀ tab rest,
       (TabOperation.index operation < - Z.of_nat (length (Group._tabs g)))%Z →
       Group._tabs g = tab :: rest →
       ∃ s1 g1,
         ExtHostEditorTabGroup.acceptTabOperation this operation s = (Ok tab, s1)
         ∧ groups s1 !! this = Some g1 ∧ Group._tabs g1 = rest).
Proof.
  intros Hreach Hg Hkind. apply reachable_wf in Hreach as Hwf. split.
  - intros [Hindex|Hempty]; [exact (close_past_end_throws this operation s g Hkind Hg Hindex) | ].
    apply wp_eq. unfold ExtHostEditorTabGroup.acceptTabOperation. rewrite Hkind.
    case_decide; [done | ]. case_decide; [ | done].
    wp_go. rewrite Hempty. unfold splice. cbv zeta. rewrite !drop_nil, !take_nil. cbn.
    wp_go. rewrite <- Hempty. by rewrite set_tabs_id, set_groups_id.
  - intros tab rest Hindex Htabs.
    assert (Group._tabs g !! 0 = Some tab) as Htab by by rewrite Htabs.
    pose proof (wf_group_tabs _ Hwf _ _ Hg) as Hall. rewrite Forall_forall in Hall.
    destruct (Hall tab (list_elem_of_lookup_2 _ _ _ Htab)) as (t & Ht & _).
    pose proof (group_close_rel s this g operation 0 tab t Hg Hkind Htab
                  (relative_start_below _ _ Hindex) Ht) as Hrun.
    eexists _, _. split; [exact Hrun | ]. cbn. rewrite lookup_insert_eq.
    split; [done | ]. cbn. by rewrite Htabs.
Qed.

(** X4 in the example with the tabs "a" and "b": a close at index 2 throws
    and a close at index -3 removes "a". *)
Lemma close_outside_list_witness :
  ExtHostEditorTabGroup.acceptTabOperation 0
    (TabOperation.mk TAB_CLOSE 2 (Scenario.record "" false) 1) Scenario.after_open
  = (Throw (TabCloseIndexDoesNotExist 2), Scenario.after_open)
  ∧ ∃ s1 g1,
      ExtHostEditorTabGroup.acceptTabOperation 0
        (TabOperation.mk TAB_CLOSE (-3) (Scenario.record "" false) 1) Scenario.after_open
      = (Ok 1, s1)
      ∧ groups s1 !! 0 = Some g1 ∧ Group._tabs g1 = [3].
Proof.
  split.
  - apply (proj1 (close_outside_list Scenario.after_open 0
      (Group.mk (Some 2) (List.hd (IEditorTabGroupDto.mk true 0 [] 1) Scenario.snapshot)
         [1; 3] "a")
      (TabOperation.mk TAB_CLOSE 2 (Scenario.record "" false) 1)
      reachable_after_open eq_refl eq_refl)).
    left. cbn. lia.
  - apply (proj2 (close_outside_list Scenario.after_open 0
      (Group.mk (Some 2) (List.hd (IEditorTabGroupDto.mk true 0 [] 1) Scenario.snapshot)
         [1; 3] "a")
      (TabOperation.mk TAB_CLOSE (-3) (Scenario.record "" false) 1)
      reachable_after_open eq_refl eq_refl) 1 [3]).
    + cbn. lia.
    + reflexivity.
Defined.

(** ** Updates for what the mirror does not have *)

Lemma find_tabId_None h id ts :
  Forall (λ tab, ∃ t, h !! tab = Some t ∧ Tab.tabId t ≠ id) ts →
  find_tabId h id ts = Ok None.
Proof.
  induction 1 as [|tab ts (t & Ht & Hid) Hts IH]; [done | ].
  cbn. rewrite Ht. by rewrite bool_decide_eq_false_2.
Qed.

Lemma find_groupId_None h groupId gs :
  Forall (λ group, ∃ g, h !! group = Some g ∧ Group.groupId g ≠ groupId) gs →
  find_groupId h groupId gs = Ok None.
Proof.
  induction 1 as [|group gs (g & Hg & Hid) Hgs IH]; [done | ].
  cbn. rewrite Hg. by rewrite bool_decide_eq_false_2.
Qed.

(** X5: in a reachable state, an update whose record carries an id that no
    tab of the group has throws and leaves the state as it was. *)
Theorem update_unknown_id_throws s this g operation :
  reachable s →
  groups s !! this = Some g →
  TabOperation.kind operation = TAB_UPDATE →
  (∀ tab t, tab ∈ Group._tabs g → tabs s !! tab = Some t →
     Tab.tabId t ≠ IEditorTabDto.id (TabOperation.tabDto operation)) →
  ExtHostEditorTabGroup.acceptTabOperation this operation s = (Throw INVALID_tab, s).
Proof.
  intros Hreach Hg Hkind Hnone. apply reachable_wf in Hreach as Hwf.
  assert (find_tabId (tabs s) (IEditorTabDto.id (TabOperation.tabDto operation))
            (Group._tabs g) = Ok None) as Hfind.
  { apply find_tabId_None. apply Forall_forall. intros tab Hin.
    pose proof (wf_group_tabs _ Hwf _ _ Hg) as Htabs. rewrite Forall_forall in Htabs.
    destruct (Htabs _ Hin) as (t & Ht & _). eauto. }
  apply wp_eq. unfold ExtHostEditorTabGroup.acceptTabOperation. rewrite Hkind.
  do 2 (case_decide; [done | ]).
  wp_go. wp_use Array_find_has_tabId. rewrite Hfind. by wp_go.
Qed.

(** X5 in the example: the group has "a" and "b" and the record is for "c". *)
Lemma update_unknown_id_throws_witness :
  ExtHostEditorTabGroup.acceptTabOperation 0
    (TabOperation.mk TAB_UPDATE 0 (Scenario.record "c" true) 1) Scenario.after_open
  = (Throw INVALID_tab, Scenario.after_open).
Proof.
  apply (update_unknown_id_throws Scenario.after_open 0
    (Group.mk (Some 2) (List.hd (IEditorTabGroupDto.mk true 0 [] 1) Scenario.snapshot)
       [1; 3] "a")).
  - exact reachable_after_open.
  - vm_compute. reflexivity.
  - reflexivity.
  - intros tab t Hin Ht Hid.
    apply elem_of_cons in Hin as [->|Hin].
    + vm_compute in Ht. injection Ht as <-. vm_compute in Hid. discriminate Hid.
    + apply list_elem_of_singleton in Hin as ->.
      vm_compute in Ht. injection Ht as <-. vm_compute in Hid. discriminate Hid.
Defined.

(** X6: in a reachable state, a tab operation and a group update for a
    group id that no listed group has throw, each with its own error, and
    leave the state as it was: nothing is fired.  On a new instance that is
    every tab operation and every group update. *)
Theorem unknown_group_throws s groupId :
  reachable s →
  (∀ group g, group ∈ _extHostTabGroups s → groups s !! group = Some g →
     Group.groupId g ≠ groupId) →
  (∀ operation, TabOperation.groupId operation = groupId →
     ExtHostEditorTabs.acceptTabOperation operation s = (Throw UpdateTabsBeforeCreation, s))
  ∧ (∀ groupDto, IEditorTabGroupDto.groupId groupDto = groupId →
       ExtHostEditorTabs.acceptTabGroupUpdate groupDto s
       = (Throw UpdateGroupBeforeCreation, s)).
Proof.
  intros Hreach Hnone. apply reachable_wf in Hreach as Hwf.
  assert (find_groupId (groups s) groupId (_extHostTabGroups s) = Ok None) as Hfind.
  { apply find_groupId_None. apply Forall_forall. intros group Hin.
    pose proof (wf_store _ Hwf) as Hstore. rewrite Forall_forall in Hstore.
    destruct (Hstore _ Hin) as [g Hg]. eauto. }
  split.
  - intros operation <-. apply wp_eq. unfold ExtHostEditorTabs.acceptTabOperation.
    wp_go. wp_use find_group_run. rewrite Hfind. by wp_go.
  - intros groupDto <-. apply wp_eq. unfold ExtHostEditorTabs.acceptTabGroupUpdate.
    wp_go. wp_use find_group_run. rewrite Hfind. by wp_go.
Qed.

(** X6 on a new instance. *)
Lemma unknown_group_throws_witness :
  ExtHostEditorTabs.acceptTabOperation Scenario.open_b initial
    = (Throw UpdateTabsBeforeCreation, initial)
  ∧ ExtHostEditorTabs.acceptTabGroupUpdate (IEditorTabGroupDto.mk true 0 [] 1) initial
    = (Throw UpdateGroupBeforeCreation, initial).
Proof.
  destruct (unknown_group_throws initial 1%Z reachable_initial) as [Hop Hupdate].
  - intros group g Hin. cbn in Hin. by apply elem_of_nil in Hin.
  - split; [by apply Hop | by apply Hupdate].
Defined.

(** ** [$acceptTabGroupUpdate] *)

(** Making the public object of a group does not touch the tabs. *)
Lemma group_apiObject_tabs this h : inv (λ s, tabs s = h) (Group_apiObject this).
Proof. inv_tac; simpl; done. Qed.

(** X7: an update for the group that the store finds for the id of the
    record replaces the record of that group and leaves its tabs and its
    active tab id alone.  The active group id becomes the id of the record
    if the record is active and is otherwise kept: there is no rule that
    clears it, so an inactive record for the active group leaves the group
    reporting [isActive].  Exactly one groups-changed event fires, with the
    frozen public object of the group, and nothing is sent. *)
Theorem group_update_effect s groupDto group g :
  reachable s →
  ExtHostEditorTabs.find_group (IEditorTabGroupDto.groupId groupDto) s
    = (Ok (Some group), s) →
  groups s !! group = Some g →
  ∃ api s1 g1,
    ExtHostEditorTabs.acceptTabGroupUpdate groupDto s = (Ok (), s1)
    ∧ groups s1 !! group = Some g1
    ∧ Group._dto g1 = groupDto
    ∧ Group._tabs g1 = Group._tabs g
    ∧ Group._activeTabId g1 = Group._activeTabId g
    ∧ _activeGroupId s1
      = (if IEditorTabGroupDto.isActive groupDto
         then Some (IEditorTabGroupDto.groupId groupDto) else _activeGroupId s)
    ∧ fired s1 = fired s ++ [onDidChangeTabGroups [api]]
    ∧ objects s1 !! api = Some {| shape := TabGroupApi group; frozen := true |}
    ∧ tabs s1 = tabs s ∧ sent s1 = sent s
    ∧ _extHostTabGroups s1 = _extHostTabGroups s
    ∧ (IEditorTabGroupDto.isActive groupDto = false →
       _activeGroupId s = Some (IEditorTabGroupDto.groupId groupDto) →
       ExtHostEditorTabGroup.isActive api s1 = (Ok true, s1)).
Proof.
  intros Hreach Hfind Hg. apply reachable_wf in Hreach as Hwf.
  set (g0 := Group.set_dto groupDto g).
  set (s0 := set_groups (<[group := g0]> (groups s)) s).
  set (a := if IEditorTabGroupDto.isActive groupDto
            then Some (IEditorTabGroupDto.groupId groupDto) else _activeGroupId s).
  set (sa := set_activeGroupId a s0).
  assert (wf sa) as Hwfa.
  { apply wf_set_activeGroupId. eapply wf_put_group; [done | done | done | ].
    cbn. by apply (wf_group_tabs _ Hwf). }
  assert (groups sa !! group = Some g0) as Hg0 by apply lookup_insert_eq.
  destruct (group_apiObject_spec _ _ _ Hwfa Hg0)
    as (api & s1 & Hrun & Hwf1 & Hext & Hobj & Hmemo & _).
  destruct (extends_group _ _ _ _ Hext Hg0) as (g1 & Hg1 & Hfields).
  injection Hfields as Hdto Htabs Hactive.
  assert (ExtHostEditorTabs.acceptTabGroupUpdate groupDto s
          = (Ok (), set_fired (fired s1 ++ [onDidChangeTabGroups [api]]) s1)) as Hupdate.
  { apply wp_eq. unfold ExtHostEditorTabs.acceptTabGroupUpdate,
      ExtHostEditorTabGroup.acceptGroupDtoUpdate, ExtHostEditorTabGroup.apiObject.
    wp_go. wp_use Hfind. wp_go. unfold a in *.
    destruct (IEditorTabGroupDto.isActive groupDto); wp_go.
    - wp_use Hrun. by wp_go.
    - assert (sa = s0) as Hsa by (unfold sa, s0, set_activeGroupId; by destruct s).
      fold g0. fold s0. rewrite <- Hsa. wp_use Hrun. by wp_go. }
  exists api, (set_fired (fired s1 ++ [onDidChangeTabGroups [api]]) s1), g1.
  split; [exact Hupdate | ]. cbn.
  pose proof (ext_activeGroupId _ _ Hext) as Ha. cbn in Ha.
  pose proof (ext_fired _ _ Hext) as Hf. cbn in Hf.
  pose proof (ext_sent _ _ Hext) as Hs. cbn in Hs.
  pose proof (ext_extHostTabGroups _ _ Hext) as Hl. cbn in Hl.
  split_and!; try done.
  - by rewrite Hf.
  - pose proof (group_apiObject_tabs group (tabs s) sa eq_refl) as Htl.
    by rewrite Hrun in Htl.
  - intros Hinactive Hwas.
    eapply (group_isActive_reports _ api group true true); [done | ].
    unfold group_reports. cbn. rewrite Hg1. cbn.
    rewrite bool_decide_eq_true_2; [done | ].
    unfold Group.groupId. rewrite Hdto. cbn. rewrite Ha. unfold a. by rewrite Hinactive.
Qed.

(** X7 in the example: after the snapshot the active group is number 1; an
    inactive record for it is accepted and the group still reports
    [isActive]. *)
Lemma group_update_effect_witness :
  ∃ api s1,
    ExtHostEditorTabs.acceptTabGroupUpdate (IEditorTabGroupDto.mk false 0 [] 1)
      Scenario.after_snapshot = (Ok (), s1)
    ∧ ExtHostEditorTabGroup.isActive api s1 = (Ok true, s1).
Proof.
  destruct (group_update_effect Scenario.after_snapshot (IEditorTabGroupDto.mk false 0 [] 1) 0
    (Group.mk (Some 2) (List.hd (IEditorTabGroupDto.mk true 0 [] 1) Scenario.snapshot)
       [1] "a") reachable_after_snapshot)
    as (api & s1 & g1 & Hrun & _ & _ & _ & _ & _ & _ & _ & _ & _ & _ & Hactive).
  - vm_compute. reflexivity.
  - vm_compute. reflexivity.
  - exists api, s1. split; [exact Hrun | ]. apply Hactive; reflexivity.
Defined.

(** ** A snapshot that is accepted *)

Lemma next_built_all tabGroups : ∀ s, next s ≤ next (built_all tabGroups s).
Proof.
  induction tabGroups as [|dto tabGroups IH]; intros s; [done | ].
  cbn [built_all foldl]. etrans; [ | apply (IH (built dto s))]. rewrite next_built. lia.
Qed.

Lemma wf_built_all tabGroups s : wf s → wf (built_all tabGroups s).
Proof.
  intros Hwf.
  assert (inv wf (Array_map ExtHostEditorTabGroup.new tabGroups)) as Hinv by wf_tac.
  specialize (Hinv s Hwf). by rewrite new_groups in Hinv.
Qed.

Lemma mirrors_extends s s1 group dto :
  extends s s1 → mirrors s group dto → mirrors s1 group dto.
Proof.
  intros Hext (g & Hg & Hdto & Hts).
  destruct (extends_group _ _ _ _ Hext Hg) as (g1 & Hg1 & Hfields).
  injection Hfields as Hdto1 Htabs1 _.
  exists g1. split; [done | ]. split; [congruence | ]. rewrite Htabs1.
  eapply Forall2_impl; [exact Hts | ]. cbn. intros tab tabDto (t & Ht & Htdto).
  destruct (extends_tab _ _ _ _ Hext Ht) as (t1 & Ht1 & Hf).
  injection Hf as Hd _ _ _. exists t1. split; [done | congruence].
Qed.

Lemma set_activeGroupId_id a s : _activeGroupId s = a → set_activeGroupId a s = s.
Proof. destruct s. cbn. by intros ->. Qed.

(** Nothing that the constructor built has a public object. *)
Lemma built_at_no_objects s s1 group dto :
  built_at s group dto → extends s s1 →
  ∀ api, api < next s →
    (∀ g1, groups s1 !! group = Some g1 → Group._apiObject g1 ≠ Some api)
    ∧ (∀ g1 tab t1, groups s1 !! group = Some g1 → tab ∈ Group._tabs g1 →
         tabs s1 !! tab = Some t1 → Tab._apiObject t1 ≠ Some api).
Proof.
  intros (Hg & Hts & _) Hext api Hlt. split.
  - intros g1 Hg1 Hapi.
    destruct (ext_group_memo _ _ Hext _ _ _ Hg1 Hapi Hlt) as (g & Hg' & Hapi').
    rewrite Hg in Hg'. by injection Hg' as <-.
  - intros g1 tab t1 Hg1 Hin Ht1 Hapi.
    destruct (extends_group _ _ _ _ Hext Hg) as (g1' & Hg1' & Hfields).
    rewrite Hg1 in Hg1'. injection Hg1' as <-. injection Hfields as _ Htabs _.
    cbn in Htabs. rewrite Htabs in Hin.
    apply list_elem_of_lookup in Hin as [i Hi]. apply lookup_seq in Hi as [-> Hi].
    destruct (lookup_lt_is_Some_2 (IEditorTabGroupDto.tabs dto) i Hi) as [tabDto HtabDto].
    destruct (ext_tab_memo _ _ Hext _ _ _ Ht1 Hapi Hlt) as (t & Ht & Hapi').
    assert (Some t = Some (Tab.new tabDto group group)) as Heq
      by (rewrite <- Ht; apply (Hts _ _ HtabDto)).
    injection Heq as ->. done.
Qed.

(** X8: in a reachable state, a snapshot with a record flagged active is
    accepted.  Afterwards the store lists one mirror per record, in order,
    each holding its record and one tab per tab record, in order; the
    active tab id of each mirror is the id of the last tab record flagged
    active, or empty if there is none.  Exactly one groups-changed event
    fires, with the frozen public objects of the new groups in order, and
    nothing is sent.  Every public object of a tab or a group from before
    the snapshot is stale: it resolves to nothing in the new store. *)
Theorem snapshot_replaces_model tabGroups s dto :
  reachable s →
  List.find IEditorTabGroupDto.isActive tabGroups = Some dto →
  ∃ apis s1,
    ExtHostEditorTabs.acceptEditorTabModel tabGroups s = (Ok (), s1)
    ∧ Forall2 (mirrors s1) (_extHostTabGroups s1) tabGroups
    ∧ Forall2 (λ group groupDto,
        Group._activeTabId <$> groups s1 !! group
        = Some (last_active "" (IEditorTabGroupDto.tabs groupDto)))
        (_extHostTabGroups s1) tabGroups
    ∧ fired s1 = fired s ++ [onDidChangeTabGroups apis]
    ∧ Forall2 (λ group api,
        objects s1 !! api = Some {| shape := TabGroupApi group; frozen := true |})
        (_extHostTabGroups s1) apis
    ∧ sent s1 = sent s
    ∧ (∀ api, api < next s → ¬ resolves_tab s1 api ∧ ¬ resolves_group s1 api).
Proof.
  intros Hreach Hfind. apply reachable_wf in Hreach as Hwf.
  set (gid := IEditorTabGroupDto.groupId dto).
  set (gs := group_locs (next s) tabGroups).
  set (s2 := set_extHostTabGroups gs (built_all tabGroups s)).
  set (s3 := set_activeGroupId (Some gid) s2).
  assert (wf s3) as Hwf3.
  { apply wf_set_activeGroupId, wf_set_extHostTabGroups;
      [by apply wf_built_all | apply built_all_groups]. }
  destruct (groups_apiObject_spec gs s3 Hwf3 (built_all_groups tabGroups s))
    as (apis & s4 & Hrun & Hwf4 & Hext & Hobjs).
  exists apis, (set_fired (fired s4 ++ [onDidChangeTabGroups apis]) s4).
  destruct (built_all_frame tabGroups s) as (_ & _ & _ & _ & Hfired & Hsent).
  pose proof (built_at_all tabGroups s) as Hbuilt.
  pose proof (ext_extHostTabGroups _ _ Hext) as Hgs. cbn in Hgs.
  pose proof (ext_fired _ _ Hext) as Hf. cbn in Hf.
  pose proof (ext_sent _ _ Hext) as Hs. cbn in Hs.
  split_and!.
  - apply wp_eq. unfold ExtHostEditorTabs.acceptEditorTabModel.
    wp_go. wp_use new_groups. wp_go. rewrite Hfind. cbn. wp_go.
    case_bool_decide as Hactive; wp_go.
    + wp_use Hrun. by wp_go.
    + fold gs. fold s2. rewrite <- (set_activeGroupId_id (Some gid) s2).
      * fold s3. wp_use Hrun. by wp_go.
      * by destruct (decide (_activeGroupId s2 = Some gid)).
  - cbn. rewrite Hgs. eapply Forall2_impl; [exact Hbuilt | ].
    intros group groupDto H. apply (mirrors_extends s3 s4 _ _ Hext).
    by apply built_at_mirrors.
  - cbn. rewrite Hgs. eapply Forall2_impl; [exact Hbuilt | ].
    intros group groupDto (Hg & _).
    destruct (extends_group _ _ _ _ Hext Hg) as (g1 & Hg1 & Hfields).
    rewrite Hg1. cbn. by injection Hfields as _ _ ->.
  - cbn. by rewrite Hf, Hfired.
  - cbn. by rewrite Hgs.
  - cbn. by rewrite Hs, Hsent.
  - intros api Hlt.
    assert (api < next s3) as Hlt3.
    { pose proof (next_built_all tabGroups s). cbn. lia. }
    assert (∀ group, group ∈ gs → ∃ groupDto, built_at s3 group groupDto) as Hat.
    { intros group Hin. apply list_elem_of_lookup in Hin as [i Hi].
      destruct (Forall2_lookup_l _ _ _ _ _ Hbuilt Hi) as (groupDto & _ & H). eauto. }
    split.
    + intros (group & g1 & tab & t1 & Hin & Hg1 & Htab & Ht1 & Hapi).
      cbn in Hin, Hg1, Ht1. rewrite Hgs in Hin. destruct (Hat _ Hin) as [groupDto H].
      by eapply (proj2 (built_at_no_objects _ _ _ _ H Hext api Hlt3)).
    + intros (group & g1 & Hin & Hg1 & Hapi).
      cbn in Hin, Hg1. rewrite Hgs in Hin. destruct (Hat _ Hin) as [groupDto H].
      by eapply (proj1 (built_at_no_objects _ _ _ _ H Hext api Hlt3)).
Qed.

(** X8 in the example: a second snapshot arrives after tab "b" was opened;
    the public object of the group from before, at location 2, is stale. *)
Lemma snapshot_replaces_model_witness :
  ∃ apis s1,
    ExtHostEditorTabs.acceptEditorTabModel Scenario.snapshot Scenario.after_open = (Ok (), s1)
    ∧ fired s1 = fired Scenario.after_open ++ [onDidChangeTabGroups apis]
    ∧ ¬ resolves_group s1 2.
Proof.
  destruct (snapshot_replaces_model Scenario.snapshot Scenario.after_open
    (IEditorTabGroupDto.mk true 0 [Scenario.record "a" true] 1)
    reachable_after_open eq_refl)
    as (apis & s1 & Hrun & _ & _ & Hfired & _ & _ & Hstale).
  exists apis, s1. split; [exact Hrun | ]. split; [exact Hfired | ].
  apply Hstale. vm_compute. lia.
Defined.

(** ** [activeTabGroup] and [activeTab] *)

Lemma Array_find_active_Some gid gs s :
  Array_find (λ candidate,
    id ← ExtHostEditorTabGroup.groupId candidate;
    mret (bool_decide (Some id = Some gid))) gs s
  = (find_groupId (groups s) gid gs, s).
Proof.
  apply wp_eq. induction gs as [|group gs IH]; simpl; [done | ].
  wp_go; [ | done].
  match goal with H : groups s !! group = Some ?g |- _ =>
    rewrite (bool_decide_ext (Some (Group.groupId g) = Some gid) (Group.groupId g = gid))
      by naive_solver
  end.
  by case_bool_decide.
Qed.

Lemma Array_find_active_None active gs s :
  Forall (λ group, ∃ g, groups s !! group = Some g ∧ Some (Group.groupId g) ≠ active) gs →
  Array_find (λ candidate,
    id ← ExtHostEditorTabGroup.groupId candidate;
    mret (bool_decide (Some id = active))) gs s
  = (Ok None, s).
Proof.
  intros Hgs. apply wp_eq. induction Hgs as [|group gs (g & Hg & Hid) Hgs IH]; simpl; [done | ].
  wp_go. by rewrite bool_decide_eq_false_2.
Qed.

(** X9: in a reachable state, [activeTabGroup] throws the assertion error,
    changing nothing, when no listed group has the active group id, as on a
    new instance.  When the active group id is set and the store finds a
    group for it, [activeTabGroup] returns the frozen public object of that
    group, changes the model by at most that object, and the object reports
    [isActive]. *)
Theorem activeTabGroup_result s :
  reachable s →
  ((∀ group g, group ∈ _extHostTabGroups s → groups s !! group = Some g →
      Some (Group.groupId g) ≠ _activeGroupId s) →
   ExtHostEditorTabs.activeTabGroup s = (Throw AssertionFailed, s))
  ∧ (∀ gid group,
       _activeGroupId s = Some gid →
       ExtHostEditorTabs.find_group gid s = (Ok (Some group), s) →
       ∃ api s1,
         ExtHostEditorTabs.activeTabGroup s = (Ok api, s1)
         ∧ extends s s1
         ∧ objects s1 !! api = Some {| shape := TabGroupApi group; frozen := true |}
         ∧ ExtHostEditorTabGroup.isActive api s1 = (Ok true, s1)).
Proof.
  intros Hreach. apply reachable_wf in Hreach as Hwf. split.
  - intros Hnone. apply wp_eq. unfold ExtHostEditorTabs.activeTabGroup. wp_go.
    wp_use Array_find_active_None; [ | by wp_go].
    apply Forall_forall. intros group Hin.
    pose proof (wf_store _ Hwf) as Hstore. rewrite Forall_forall in Hstore.
    destruct (Hstore _ Hin) as [g Hg]. eauto.
  - intros gid group Hactive Hfind. rewrite find_group_run in Hfind.
    injection Hfind as Hfind.
    destruct (find_groupId_Some _ _ _ _ Hfind) as (Hin & g & Hg & Hid).
    destruct (group_apiObject_spec _ _ _ Hwf Hg) as (api & s1 & Hrun & Hwf1 & Hext & Hobj & _).
    exists api, s1. split_and!; [ | done | done | ].
    + apply wp_eq. unfold ExtHostEditorTabs.activeTabGroup. wp_go. rewrite Hactive.
      wp_use Array_find_active_Some. rewrite Hfind. wp_go.
      unfold ExtHostEditorTabGroup.apiObject. wp_use Hrun. by wp_go.
    + eapply group_isActive_reports; [exact Hobj | ].
      destruct (extends_group _ _ _ _ Hext Hg) as (g1 & Hg1 & Hfields).
      unfold group_reports. rewrite Hg1. cbn. rewrite bool_decide_eq_true_2; [done | ].
      injection Hfields as Hdto _ _. unfold Group.groupId in *.
      by rewrite Hdto, (ext_activeGroupId _ _ Hext), Hactive, Hid.
Qed.

(** X9 on a new instance and after the snapshot of the example. *)
Lemma activeTabGroup_result_witness :
  ExtHostEditorTabs.activeTabGroup initial = (Throw AssertionFailed, initial)
  ∧ ∃ api s1,
      ExtHostEditorTabs.activeTabGroup Scenario.after_snapshot = (Ok api, s1)
      ∧ ExtHostEditorTabGroup.isActive api s1 = (Ok true, s1).
Proof.
  split.
  - apply (proj1 (activeTabGroup_result initial reachable_initial)).
    intros group g Hin. cbn in Hin. by apply elem_of_nil in Hin.
  - destruct (proj2 (activeTabGroup_result Scenario.after_snapshot reachable_after_snapshot)
      1%Z 0) as (api & s1 & Hrun & _ & _ & Hactive).
    + reflexivity.
    + vm_compute. reflexivity.
    + exists api, s1. split; [exact Hrun | exact Hactive].
Defined.

(** X10: in a reachable state, [activeTab] of the public object of a group
    is undefined, changing nothing, when no tab of the group has the active
    tab id of the group.  When some tab of the group has it, [activeTab]
    returns the frozen public object of a tab of the group with that id,
    changes the model by at most that object, and the object reports
    [isActive]. *)
Theorem activeTab_result s obj group g fr :
  reachable s →
  objects s !! obj = Some {| shape := TabGroupApi group; frozen := fr |} →
  groups s !! group = Some g →
  ((∀ tab t, tab ∈ Group._tabs g → tabs s !! tab = Some t →
      Tab.tabId t ≠ Group._activeTabId g) →
   ExtHostEditorTabGroup.activeTab obj s = (Ok None, s))
  ∧ (∀ tab t, tab ∈ Group._tabs g → tabs s !! tab = Some t →
       Tab.tabId t = Group._activeTabId g →
       ∃ tab' api s1,
         ExtHostEditorTabGroup.activeTab obj s = (Ok (Some api), s1)
         ∧ extends s s1
         ∧ tab' ∈ Group._tabs g
         ∧ objects s1 !! api = Some {| shape := TabApi tab'; frozen := true |}
         ∧ Tab.tabId <$> tabs s1 !! tab' = Some (Group._activeTabId g)
         ∧ ExtHostEditorTab.isActive api s1 = (Ok true, s1)).
Proof.
  intros Hreach Hobj Hg. apply reachable_wf in Hreach as Hwf.
  pose proof (wf_group_tabs _ Hwf _ _ Hg) as Htabs.
  split.
  - intros Hnone.
    assert (find_tabId (tabs s) (Group._activeTabId g) (Group._tabs g) = Ok None) as Hfind.
    { apply find_tabId_None. apply Forall_forall. intros tab Hin.
      rewrite Forall_forall in Htabs. destruct (Htabs _ Hin) as (t & Ht & _). eauto. }
    apply wp_eq. unfold ExtHostEditorTabGroup.activeTab, ExtHostEditorTabGroup.that,
      ExtHostEditorTabGroup.tabs, activeTabId.
    wp_go. wp_use Array_find_has_tabId. rewrite Hfind. by wp_go.
  - intros tab t Hin Ht Hid.
    destruct (find_tabId_exists (tabs s) (Group._activeTabId g) (Group._tabs g) tab t)
      as [tab' Hfind];
      [ | done | done | done | ].
    { eapply Forall_impl; [exact Htabs | ]. cbn. intros x (tx & Hx & _). eauto. }
    destruct (find_tabId_Some _ _ _ _ Hfind) as (Hin' & t' & Ht' & Hid').
    destruct (tab_apiObject_spec _ _ _ Hwf Ht') as (api & s1 & Hrun & Hwf1 & Hext & Hapi & _).
    destruct (extends_tab _ _ _ _ Hext Ht') as (t1 & Ht1 & Hfields).
    injection Hfields as Hdto _ _ Hgetter.
    destruct (extends_group _ _ _ _ Hext Hg) as (g1 & Hg1 & Hgfields).
    injection Hgfields as _ _ Hactive.
    rewrite Forall_forall in Htabs. destruct (Htabs _ Hin') as (tx & Hx & Hgroup).
    rewrite Ht' in Hx. injection Hx as <-.
    exists tab', api, s1. split_and!; [ | done | done | done | | ].
    + apply wp_eq. unfold ExtHostEditorTabGroup.activeTab, ExtHostEditorTabGroup.that,
        ExtHostEditorTabGroup.tabs, activeTabId.
      wp_go. wp_use Array_find_has_tabId. rewrite Hfind. wp_go. wp_use Hrun. by wp_go.
    + rewrite Ht1. cbn. unfold Tab.tabId in *. by rewrite Hdto, Hid'.
    + eapply tab_isActive_reports; [exact Hapi | ].
      unfold tab_reports. rewrite Ht1. cbn. rewrite Hgetter, Hgroup, Hg1. cbn.
      rewrite bool_decide_eq_true_2; [done | ].
      unfold Tab.tabId in *. by rewrite Hdto, Hid', Hactive.
Qed.

(** X10 in the example: after the close no tab has the (empty) active tab
    id and [activeTab] is undefined; after the open it is the object of a
    tab with the id "a". *)
Lemma activeTab_result_witness :
  ExtHostEditorTabGroup.activeTab 2 Scenario.after_close = (Ok None, Scenario.after_close)
  ∧ ∃ tab' api s1,
      ExtHostEditorTabGroup.activeTab 2 Scenario.after_open = (Ok (Some api), s1)
      ∧ Tab.tabId <$> tabs s1 !! tab' = Some "a"
      ∧ ExtHostEditorTab.isActive api s1 = (Ok true, s1).
Proof.
  split.
  - apply (proj1 (activeTab_result Scenario.after_close 2 0
      (Group.mk (Some 2) (List.hd (IEditorTabGroupDto.mk true 0 [] 1) Scenario.snapshot)
         [3] "") true reachable_after_close eq_refl eq_refl)).
    intros tab t Hin Ht Hid. apply list_elem_of_singleton in Hin as ->.
    vm_compute in Ht. injection Ht as <-. vm_compute in Hid. discriminate Hid.
  - destruct (proj2 (activeTab_result Scenario.after_open 2 0
      (Group.mk (Some 2) (List.hd (IEditorTabGroupDto.mk true 0 [] 1) Scenario.snapshot)
         [1; 3] "a") true reachable_after_open eq_refl eq_refl)
      1 (Tab.new (Scenario.record "a" true) 0 0))
      as (tab' & api & s1 & Hrun & _ & _ & _ & Hid & Hactive).
    + apply elem_of_cons. by left.
    + vm_compute. reflexivity.
    + reflexivity.
    + exists tab', api, s1. split; [exact Hrun | ]. split; [exact Hid | exact Hactive].
Defined.

(** ** [tab.group] *)

(** X11: in a reachable state, [group] read on the public object of a tab
    that a group lists returns the public object of that group: the one the
    group remembers, frozen; the model changes by at most that object. *)
Theorem tab_group_is_listing_group s group g tab obj fr :
  reachable s →
  groups s !! group = Some g → tab ∈ Group._tabs g →
  objects s !! obj = Some {| shape := TabApi tab; frozen := fr |} →
  ∃ api s1,
    ExtHostEditorTab.group obj s = (Ok api, s1)
    ∧ extends s s1
    ∧ objects s1 !! api = Some {| shape := TabGroupApi group; frozen := true |}
    ∧ Group._apiObject <$> groups s1 !! group = Some (Some api)
    ∧ ExtHostEditorTabGroup.apiObject group s1 = (Ok api, s1).
Proof.
  intros Hreach Hg Hin Hobj. apply reachable_wf in Hreach as Hwf.
  pose proof (wf_group_tabs _ Hwf _ _ Hg) as Htabs. rewrite Forall_forall in Htabs.
  destruct (Htabs _ Hin) as (t & Ht & Hgetter).
  destruct (wf_tab_group _ Hwf _ _ Ht) as [_ Hparent].
  destruct (group_apiObject_spec _ _ _ Hwf Hg) as (api & s1 & Hrun & Hwf1 & Hext & Hapi & Hmemo & _).
  exists api, s1. split_and!; try done.
  - apply wp_eq. unfold ExtHostEditorTab.group. wp_go.
    wp_use (tab_that s obj tab t fr Hobj Ht). rewrite Hparent, Hgetter. by wp_use Hrun.
  - destruct (groups s1 !! group) as [g1|] eqn:Hg1; [ | done].
    injection Hmemo as Hmemo. by eapply group_apiObject_memoized.
Qed.

(** X11 at tab "a" of the example, whose public object is at location 5
    after the update. *)
Lemma tab_group_is_listing_group_witness :
  ∃ s1, ExtHostEditorTab.group 5 Scenario.after_update = (Ok 2, s1).
Proof.
  destruct (tab_group_is_listing_group Scenario.after_update 0
    (Group.mk (Some 2) (List.hd (IEditorTabGroupDto.mk true 0 [] 1) Scenario.snapshot)
       [1; 3] "") 1 5 true reachable_after_update)
    as (api & s1 & Hrun & _ & _ & Hmemo & _).
  - vm_compute. reflexivity.
  - apply elem_of_cons. by left.
  - vm_compute. reflexivity.
  - exists s1. rewrite Hrun. 
    assert (api = 2) as ->; [ | done].
    apply (f_equal fst) in Hrun. vm_compute in Hrun. by injection Hrun as <-.
Defined.

(** ** Reads change the model by public objects only *)

Lemma grows_refl s : grows s s.
Proof. split; [apply extends_refl | eauto | eauto]. Qed.

Lemma grows_trans s s1 s2 : grows s s1 → grows s1 s2 → grows s s2.
Proof.
  intros [He1 Ht1 Hg1] [He2 Ht2 Hg2]. split.
  - by eapply extends_trans.
  - intros l t api Ht Hapi. destruct (Ht1 _ _ _ Ht Hapi) as (t1 & Hl1 & Hapi1). eauto.
  - intros l g api Hg Hapi. destruct (Hg1 _ _ _ Hg Hapi) as (g1 & Hl1 & Hapi1). eauto.
Qed.

Lemma grows_memo_tab this t s :
  wf s → tabs s !! this = Some t → Tab._apiObject t = None → grows s (memo_tab this t s).
Proof.
  intros Hwf Ht Hnone. split; [by apply extends_memo_tab | | cbn; eauto].
  intros l t0 api Hl Hapi. cbn. destruct (decide (l = this)) as [->|Hne].
  - congruence.
  - rewrite lookup_insert_ne by done. eauto.
Qed.

Lemma grows_memo_group this g s :
  wf s → groups s !! this = Some g → Group._apiObject g = None → grows s (memo_group this g s).
Proof.
  intros Hwf Hg Hnone. split; [by apply extends_memo_group | cbn; eauto | ].
  intros l g0 api Hl Hapi. cbn. destruct (decide (l = this)) as [->|Hne].
  - congruence.
  - rewrite lookup_insert_ne by done. eauto.
Qed.

Lemma grows_new_object o s :
  wf s → grows s (set_objects (<[next s := o]> (objects s)) (set_next (S (next s)) s)).
Proof.
  intros Hwf. split; [ | cbn; eauto | cbn; eauto].
  split; cbn; eauto.
  intros l o' Hl. rewrite lookup_insert_ne; [done | ].
  assert (l < next s) by (apply (wf_objects_below _ Hwf); eauto). lia.
Qed.

Lemma grows_tab_apiObject s0 this :
  inv (λ s, wf s ∧ grows s0 s) (ExtHostEditorTab.apiObject this).
Proof.
  intros s [Hwf Hgrows]. destruct (tabs s !! this) as [t|] eqn:Ht.
  - destruct (Tab._apiObject t) as [api|] eqn:Hapi.
    + by rewrite (tab_apiObject_memoized _ _ _ _ Ht Hapi).
    + rewrite (tab_apiObject_first _ _ _ Ht Hapi). cbn [snd].
      split; [by apply wf_memo_tab_state | ].
      eapply grows_trans; [done | by apply grows_memo_tab].
  - by rewrite (tab_apiObject_stuck _ _ Ht).
Qed.

Lemma grows_group_apiObject s0 this :
  inv (λ s, wf s ∧ grows s0 s) (Group_apiObject this).
Proof.
  intros s [Hwf Hgrows]. destruct (groups s !! this) as [g|] eqn:Hg.
  - destruct (Group._apiObject g) as [api|] eqn:Hapi.
    + by rewrite (group_apiObject_memoized _ _ _ _ Hg Hapi).
    + rewrite (group_apiObject_first _ _ _ Hg Hapi). cbn [snd].
      split; [by apply wf_memo_group_state | ].
      eapply grows_trans; [done | by apply grows_memo_group].
  - by rewrite (group_apiObject_stuck _ _ Hg).
Qed.

Ltac grows_step :=
  lazymatch goal with
  | |- inv _ (ExtHostEditorTab.apiObject _) => apply grows_tab_apiObject
  | |- inv _ (ExtHostEditorTabGroup.apiObject _) => apply grows_group_apiObject
  | |- inv _ (Group_apiObject _) => apply grows_group_apiObject
  | |- inv _ (get_tab _) => unfold get_tab
  | |- inv _ (get_group _) => unfold get_group
  | |- inv _ (get_object _) => unfold get_object
  | |- inv _ (activeTabId _) => unfold activeTabId
  | |- inv _ (assertIsDefined _) => unfold assertIsDefined
  | |- inv _ (void _) => unfold void
  | |- inv _ (ExtHostEditorTab.tabId _) => unfold ExtHostEditorTab.tabId
  | |- inv _ (ExtHostEditorTab.that _) => unfold ExtHostEditorTab.that
  | |- inv _ (ExtHostEditorTab.isActive _) => unfold ExtHostEditorTab.isActive
  | |- inv _ (ExtHostEditorTab.group _) => unfold ExtHostEditorTab.group
  | |- inv _ (ExtHostEditorTabGroup.groupId _) => unfold ExtHostEditorTabGroup.groupId
  | |- inv _ (ExtHostEditorTabGroup.tabs _) => unfold ExtHostEditorTabGroup.tabs
  | |- inv _ (ExtHostEditorTabGroup.has_tabId _ _) => unfold ExtHostEditorTabGroup.has_tabId
  | |- inv _ (ExtHostEditorTabGroup.that _) => unfold ExtHostEditorTabGroup.that
  | |- inv _ (ExtHostEditorTabGroup.isActive _) => unfold ExtHostEditorTabGroup.isActive
  | |- inv _ (ExtHostEditorTabGroup.activeTab _) => unfold ExtHostEditorTabGroup.activeTab
  | |- inv _ (ExtHostEditorTabGroup.tabs_getter _) => unfold ExtHostEditorTabGroup.tabs_getter
  | |- inv _ (ExtHostEditorTabs._findExtHostTabFromApi _) =>
      unfold ExtHostEditorTabs._findExtHostTabFromApi
  | |- inv _ (ExtHostEditorTabs.is_apiObject_of_tab _ _) =>
      unfold ExtHostEditorTabs.is_apiObject_of_tab
  | |- inv _ (ExtHostEditorTabs._findExtHostTabGroupFromApi _) =>
      unfold ExtHostEditorTabs._findExtHostTabGroupFromApi
  | |- inv _ (ExtHostEditorTabs.is_apiObject_of_group _ _) =>
      unfold ExtHostEditorTabs.is_apiObject_of_group
  | |- inv _ (ExtHostEditorTabs.isTabGroup _) => unfold ExtHostEditorTabs.isTabGroup
  | |- inv _ (ExtHostEditorTabs.groups_getter) => unfold ExtHostEditorTabs.groups_getter
  | |- inv _ (ExtHostEditorTabs.activeTabGroup) => unfold ExtHostEditorTabs.activeTabGroup
  | _ => inv_step
  end.

Ltac grows_tac := repeat grows_step.

Lemma grows_set_apiObject a s s1 : grows s s1 → grows s (set_apiObject a s1).
Proof. intros [[] Ht Hg]. split; [by split | exact Ht | exact Hg]. Qed.

Lemma grows_tabGroups s0 : inv (λ s, wf s ∧ grows s0 s) ExtHostEditorTabs.tabGroups.
Proof.
  intros s [Hwf Hgrows]. split; [by apply wf_tabGroups | ].
  destruct (_apiObject s) as [obj|] eqn:Hmemo.
  - assert (ExtHostEditorTabs.tabGroups s = (Ok obj, s)) as ->; [ | done].
    apply wp_eq. unfold ExtHostEditorTabs.tabGroups. wp_go. rewrite Hmemo. by wp_go.
  - assert (ExtHostEditorTabs.tabGroups s
            = (Ok (next s),
               set_apiObject (Some (next s))
                 (set_objects (<[next s := {| shape := TabGroupsApi; frozen := true |}]>
                                 (objects s)) (set_next (S (next s)) s)))) as ->.
    { apply wp_eq. unfold ExtHostEditorTabs.tabGroups. wp_go. rewrite Hmemo. by wp_go. }
    cbn [snd]. apply grows_set_apiObject.
    eapply grows_trans; [done | by apply grows_new_object].
Qed.

Lemma grows_read c s0 : is_read c = true → inv (λ s, wf s ∧ grows s0 s) (run c).
Proof.
  destruct c; try done; intros _; cbn [run].
  - unfold void. apply inv_bind; [apply grows_tabGroups | intros ?; apply inv_ret].
  - grows_tac.
  - grows_tac.
  - grows_tac.
  - grows_tac.
  - grows_tac.
  - grows_tac.
  - grows_tac.
Qed.

(** X12: in a reachable state, a read of extension code (a getter of a
    public object) changes the state by public objects only: every tab and
    every group keeps its record, its place and its active tab id, a public
    object that is remembered stays remembered, and the list of groups, the
    active group id, the events fired and the requests sent are as
    before. *)
Theorem reads_make_objects_only c s :
  reachable s → is_read c = true →
  grows s (run c s).2
  ∧ _extHostTabGroups (run c s).2 = _extHostTabGroups s
  ∧ _activeGroupId (run c s).2 = _activeGroupId s
  ∧ fired (run c s).2 = fired s
  ∧ sent (run c s).2 = sent s.
Proof.
  intros Hreach Hread. apply reachable_wf in Hreach as Hwf.
  destruct (grows_read c s Hread s (conj Hwf (grows_refl s))) as [_ Hgrows].
  pose proof (grows_extends _ _ Hgrows) as Hext.
  split_and!; [done | | | | ].
  - apply (ext_extHostTabGroups _ _ Hext).
  - apply (ext_activeGroupId _ _ Hext).
  - apply (ext_fired _ _ Hext).
  - apply (ext_sent _ _ Hext).
Qed.

(** X12 at a read of the tabs of the group of the example. *)
Lemma reads_make_objects_only_witness :
  grows Scenario.after_snapshot (run (GetGroupTabs 2) Scenario.after_snapshot).2
  ∧ fired (run (GetGroupTabs 2) Scenario.after_snapshot).2 = fired Scenario.after_snapshot.
Proof.
  destruct (reads_make_objects_only (GetGroupTabs 2) Scenario.after_snapshot
    reachable_after_snapshot eq_refl) as (Hgrows & _ & _ & Hfired & _).
  split; [exact Hgrows | exact Hfired].
Defined.

(** ** Closing and moving what resolves *)

Lemma resolves_tab_grows s s1 api : grows s s1 → resolves_tab s api → resolves_tab s1 api.
Proof.
  intros Hgrows (group & g & tab & t & Hgroup & Hg & Htab & Ht & Hapi).
  pose proof (grows_extends _ _ Hgrows) as Hext.
  destruct (extends_group _ _ _ _ Hext Hg) as (g1 & Hg1 & Hfields).
  injection Hfields as _ Htabs _.
  destruct (grows_tab_memo _ _ Hgrows _ _ _ Ht Hapi) as (t1 & Ht1 & Hapi1).
  exists group, g1, tab, t1. rewrite (ext_extHostTabGroups _ _ Hext), Htabs. eauto 10.
Qed.

Lemma resolves_group_grows s s1 api :
  grows s s1 → resolves_group s api → resolves_group s1 api.
Proof.
  intros Hgrows (group & g & Hgroup & Hg & Hapi).
  pose proof (grows_extends _ _ Hgrows) as Hext.
  destruct (grows_group_memo _ _ Hgrows _ _ _ Hg Hapi) as (g1 & Hg1 & Hapi1).
  exists group, g1. rewrite (ext_extHostTabGroups _ _ Hext). eauto.
Qed.

Lemma grows_tabs_is_Some s s1 ts :
  grows s s1 → Forall (λ tab, is_Some (tabs s !! tab)) ts →
  Forall (λ tab, is_Some (tabs s1 !! tab)) ts.
Proof.
  intros Hgrows Hts. eapply Forall_impl; [exact Hts | ]. cbn. intros tab [t Ht].
  destruct (extends_tab _ _ _ _ (grows_extends _ _ Hgrows) Ht) as (t1 & Ht1 & _). eauto.
Qed.

Lemma grows_groups_is_Some s s1 gs :
  grows s s1 → Forall (λ group, is_Some (groups s !! group)) gs →
  Forall (λ group, is_Some (groups s1 !! group)) gs.
Proof.
  intros Hgrows Hgs. eapply Forall_impl; [exact Hgs | ]. cbn. intros group [g Hg].
  destruct (extends_group _ _ _ _ (grows_extends _ _ Hgrows) Hg) as (g1 & Hg1 & _). eauto.
Qed.

(** The inner loop of [_findExtHostTabFromApi] finds the tab that remembers
    [apiTab], if it is in the list. *)
Lemma find_in_tabs_found apiTab T : ∀ ts s t,
  wf s → T ∈ ts → Forall (λ tab, is_Some (tabs s !! tab)) ts →
  tabs s !! T = Some t → Tab._apiObject t = Some apiTab →
  ∃ s1, for_of_return ts (ExtHostEditorTabs.is_apiObject_of_tab apiTab) s = (Ok (Some T), s1).
Proof.
  induction ts as [|x ts IH]; intros s t Hwf Hin Hts Ht Hapi; [by apply elem_of_nil in Hin | ].
  apply Forall_cons in Hts as [[tx Hx] Hts].
  destruct (tab_apiObject_spec _ _ _ Hwf Hx)
    as (api & s1 & Hrun & Hwf1 & Hext & Hobj & Hmemo & Hcase).
  pose proof (grows_tab_apiObject s x s (conj Hwf (grows_refl s))) as [_ Hgrows].
  rewrite Hrun in Hgrows. cbn in Hgrows.
  destruct (decide (api = apiTab)) as [->|Hne].
  - assert (x = T) as ->.
    { pose proof (wf_tab_api _ Hwf _ _ _ Ht Hapi) as HobjT.
      apply (ext_objects _ _ Hext) in HobjT. rewrite Hobj in HobjT. by injection HobjT. }
    exists s1. apply wp_eq. cbn [for_of_return].
    unfold ExtHostEditorTabs.is_apiObject_of_tab. wp_go. wp_use Hrun. wp_go.
    rewrite bool_decide_eq_true_2 by done. by wp_go.
  - assert (x ≠ T) as HxT.
    { intros ->. rewrite Ht in Hx. injection Hx as <-.
      destruct Hcase as [[Hc _]|[Hc _]]; congruence. }
    apply elem_of_cons in Hin as [Heq|Hin]; [congruence | ].
    destruct (grows_tab_memo _ _ Hgrows _ _ _ Ht Hapi) as (t1 & Ht1 & Hapi1).
    destruct (IH s1 t1 Hwf1 Hin) as [s2 Hrest]; [ | done | done | ].
    { by eapply grows_tabs_is_Some. }
    exists s2. apply wp_eq. cbn [for_of_return].
    unfold ExtHostEditorTabs.is_apiObject_of_tab. wp_go. wp_use Hrun. wp_go.
    rewrite bool_decide_eq_false_2 by done. wp_go. by wp_use Hrest.
Qed.

(** [_findExtHostTabFromApi] finds the tab of an object that resolves. *)
Lemma findExtHostTabFromApi_found apiTab s :
  wf s → resolves_tab s apiTab →
  ∃ tab t s1,
    ExtHostEditorTabs._findExtHostTabFromApi apiTab s = (Ok (Some tab), s1)
    ∧ wf s1 ∧ grows s s1
    ∧ tabs s !! tab = Some t ∧ Tab._apiObject t = Some apiTab.
Proof.
  intros Hwf (G & g & T & t & HG & Hg & HT & Ht & Hapi).
  exists T, t.
  assert (∀ gs s0, wf s0 → grows s s0 → G ∈ gs →
    Forall (λ group, is_Some (groups s0 !! group)) gs →
    ∃ s1, for_of_return gs (λ group,
            ts ← ExtHostEditorTabGroup.tabs group;
            for_of_return ts (ExtHostEditorTabs.is_apiObject_of_tab apiTab)) s0
          = (Ok (Some T), s1)) as Houter.
  { induction gs as [|x gs IH]; intros s0 Hwf0 Hgrows0 Hin Hgs;
      [by apply elem_of_nil in Hin | ].
    apply Forall_cons in Hgs as [[gx Hx] Hgs].
    assert (Forall (λ tab, is_Some (tabs s0 !! tab)) (Group._tabs gx)) as Hts.
    { eapply Forall_impl; [by apply (wf_group_tabs _ Hwf0) | ].
      cbn. intros tab (t' & Ht' & _). eauto. }
    destruct (find_in_tabs_spec apiTab (Group._tabs gx) s0 Hwf0 Hts)
      as (r & s1 & Hrun & Hwf1 & Hext1 & Hr).
    assert (grows s0 s1) as Hgrows1.
    { assert (inv (λ s', wf s' ∧ grows s0 s')
        (for_of_return (Group._tabs gx) (ExtHostEditorTabs.is_apiObject_of_tab apiTab)))
        as Hinv by grows_tac.
      destruct (Hinv s0 (conj Hwf0 (grows_refl s0))) as [_ H]. by rewrite Hrun in H. }
    destruct (grows_tab_memo _ _ Hgrows0 _ _ _ Ht Hapi) as (t0 & Ht0 & Hapi0).
    destruct (extends_group _ _ _ _ (grows_extends _ _ Hgrows0) Hg) as (g0 & Hg0 & Hfields).
    injection Hfields as _ Htabs _.
    destruct r as [tab|].
    - destruct (Hr tab eq_refl) as (_ & t1 & Ht1 & Hapi1).
      assert (tab = T) as ->.
      { pose proof (wf_tab_api _ Hwf1 _ _ _ Ht1 Hapi1) as Hobj1.
        pose proof (wf_tab_api _ Hwf0 _ _ _ Ht0 Hapi0) as Hobj0.
        apply (ext_objects _ _ Hext1) in Hobj0. rewrite Hobj1 in Hobj0. by injection Hobj0. }
      exists s1. apply wp_eq. cbn [for_of_return]. wp_go. wp_use Hrun. by wp_go.
    - assert (x ≠ G) as HxG.
      { intros ->. rewrite Hg0 in Hx. injection Hx as <-. rewrite <- Htabs in HT.
        destruct (find_in_tabs_found apiTab T _ s0 t0 Hwf0 HT Hts Ht0 Hapi0) as [s1' Hfound].
        rewrite Hfound in Hrun. discriminate Hrun. }
      apply elem_of_cons in Hin as [Heq|Hin]; [congruence | ].
      destruct (IH s1 Hwf1) as [s2 Hrest]; [by eapply grows_trans | done | | ].
      { by eapply grows_groups_is_Some. }
      exists s2. apply wp_eq. cbn [for_of_return]. wp_go. wp_use Hrun. wp_go.
      by wp_use Hrest. }
  destruct (Houter (_extHostTabGroups s) s Hwf (grows_refl s) HG (wf_store _ Hwf))
    as [s1 Hrun].
  assert (ExtHostEditorTabs._findExtHostTabFromApi apiTab s = (Ok (Some T), s1)) as Hfind.
  { apply wp_eq. unfold ExtHostEditorTabs._findExtHostTabFromApi. wp_go. by wp_use Hrun. }
  assert (inv (λ s', wf s' ∧ grows s s') (ExtHostEditorTabs._findExtHostTabFromApi apiTab))
    as Hinv by grows_tac.
  destruct (Hinv s (conj Hwf (grows_refl s))) as [Hwf1 Hgrows1]. rewrite Hfind in Hwf1, Hgrows1.
  exists s1. by split_and!.
Qed.

(** [_findExtHostTabGroupFromApi] finds the group of an object that
    resolves. *)
Lemma findExtHostTabGroupFromApi_found apiTabGroup s :
  wf s → resolves_group s apiTabGroup →
  ∃ group g s1,
    ExtHostEditorTabs._findExtHostTabGroupFromApi apiTabGroup s = (Ok (Some group), s1)
    ∧ wf s1 ∧ grows s s1
    ∧ groups s !! group = Some g ∧ Group._apiObject g = Some apiTabGroup.
Proof.
  intros Hwf (G & g & HG & Hg & Hapi).
  exists G, g.
  assert (∀ gs s0, wf s0 → grows s s0 → G ∈ gs →
    Forall (λ group, is_Some (groups s0 !! group)) gs →
    ∃ s1, Array_find (ExtHostEditorTabs.is_apiObject_of_group apiTabGroup) gs s0
          = (Ok (Some G), s1)) as Houter.
  { induction gs as [|x gs IH]; intros s0 Hwf0 Hgrows0 Hin Hgs;
      [by apply elem_of_nil in Hin | ].
    apply Forall_cons in Hgs as [[gx Hx] Hgs].
    destruct (group_apiObject_spec _ _ _ Hwf0 Hx)
      as (api & s1 & Hrun & Hwf1 & Hext1 & Hobj & Hmemo & Hcase).
    pose proof (grows_group_apiObject s0 x s0 (conj Hwf0 (grows_refl s0))) as [_ Hgrows1].
    rewrite Hrun in Hgrows1. cbn in Hgrows1.
    destruct (grows_group_memo _ _ Hgrows0 _ _ _ Hg Hapi) as (g0 & Hg0 & Hapi0).
    destruct (decide (api = apiTabGroup)) as [->|Hne].
    - assert (x = G) as ->.
      { pose proof (wf_group_api _ Hwf0 _ _ _ Hg0 Hapi0) as HobjG.
        apply (ext_objects _ _ Hext1) in HobjG. rewrite Hobj in HobjG. by injection HobjG. }
      exists s1. apply wp_eq. cbn [Array_find].
      unfold ExtHostEditorTabs.is_apiObject_of_group, ExtHostEditorTabGroup.apiObject.
      wp_go. wp_use Hrun. wp_go. rewrite bool_decide_eq_true_2 by done. by wp_go.
    - assert (x ≠ G) as HxG.
      { intros ->. rewrite Hg0 in Hx. injection Hx as <-.
        destruct Hcase as [[Hc _]|[Hc _]]; congruence. }
      apply elem_of_cons in Hin as [Heq|Hin]; [congruence | ].
      destruct (IH s1 Hwf1) as [s2 Hrest]; [by eapply grows_trans | done | | ].
      { by eapply grows_groups_is_Some. }
      exists s2. apply wp_eq. cbn [Array_find].
      unfold ExtHostEditorTabs.is_apiObject_of_group, ExtHostEditorTabGroup.apiObject.
      wp_go. wp_use Hrun. wp_go. rewrite bool_decide_eq_false_2 by done. wp_go.
      by wp_use Hrest. }
  destruct (Houter (_extHostTabGroups s) s Hwf (grows_refl s) HG (wf_store _ Hwf))
    as [s1 Hrun].
  assert (ExtHostEditorTabs._findExtHostTabGroupFromApi apiTabGroup s = (Ok (Some G), s1))
    as Hfind.
  { apply wp_eq. unfold ExtHostEditorTabs._findExtHostTabGroupFromApi. wp_go.
    by wp_use Hrun. }
  assert (inv (λ s', wf s' ∧ grows s s')
    (ExtHostEditorTabs._findExtHostTabGroupFromApi apiTabGroup)) as Hinv by grows_tac.
  destruct (Hinv s (conj Hwf (grows_refl s))) as [Hwf1 Hgrows1]. rewrite Hfind in Hwf1, Hgrows1.
  exists s1. by split_and!.
Qed.

Lemma grows_sent s s1 r : grows s s1 → fired (set_sent r s1) = fired s.
Proof. intros Hgrows. cbn. apply (ext_fired _ _ (grows_extends _ _ Hgrows)). Qed.

(** The loop of [_closeTabs] over objects that resolve: it returns the ids
    of their tabs, in order. *)
Lemma closeTabs_loop_ok s0 : wf s0 → ∀ apis s acc,
  wf s → grows s0 s → Forall (resolves_tab s0) apis →
  ∃ ids s1,
    for_of_push apis (λ tab,
      extHostTab ← ExtHostEditorTabs._findExtHostTabFromApi tab;
      match extHostTab with
      | None => throw TabCloseInvalidTab
      | Some extHostTab => ExtHostEditorTab.tabId extHostTab
      end) acc s = (Ok (acc ++ ids), s1)
    ∧ wf s1 ∧ grows s0 s1
    ∧ Forall2 (λ api id, ∃ tab t,
        tabs s0 !! tab = Some t ∧ Tab._apiObject t = Some api ∧ Tab.tabId t = id) apis ids.
Proof.
  intros Hwf0. induction apis as [|x apis IH]; intros s acc Hwf Hgrows Hres.
  - exists [], s. rewrite app_nil_r. split_and!; [done | done | done | constructor].
  - apply Forall_cons in Hres as [Hx Hres].
    pose proof (resolves_tab_grows _ _ _ Hgrows Hx) as Hxs.
    destruct Hx as (G & g & T & t & HG & Hg & HT & Ht & Hapi).
    destruct (findExtHostTabFromApi_found x s Hwf Hxs)
      as (tab & t' & s1 & Hfind & Hwf1 & Hgrows1 & Ht' & Hapi').
    destruct (grows_tab_memo _ _ Hgrows _ _ _ Ht Hapi) as (tT & HtT & HapiT).
    assert (tab = T) as ->.
    { pose proof (wf_tab_api _ Hwf _ _ _ Ht' Hapi') as Hobj.
      pose proof (wf_tab_api _ Hwf _ _ _ HtT HapiT) as HobjT.
      rewrite Hobj in HobjT. by injection HobjT. }
    destruct (extends_tab _ _ _ _ (grows_extends _ _ Hgrows) Ht) as (t0 & Ht0 & Hfields0).
    rewrite Ht' in Ht0. injection Ht0 as <-. injection Hfields0 as Hdto0 _ _ _.
    destruct (extends_tab _ _ _ _ (grows_extends _ _ Hgrows1) Ht') as (t1 & Ht1 & Hfields1).
    injection Hfields1 as Hdto1 _ _ _.
    destruct (IH s1 (acc ++ [Tab.tabId t]) Hwf1) as (ids & s2 & Hrest & Hwf2 & Hgrows2 & Hids);
      [by eapply grows_trans | done | ].
    exists (Tab.tabId t :: ids), s2. split_and!; [ | done | done | ].
    + apply wp_eq. cbn [for_of_push]. wp_go. wp_use Hfind. wp_go.
      unfold ExtHostEditorTab.tabId. wp_go.
      replace (Tab.tabId t1) with (Tab.tabId t)
        by (unfold Tab.tabId; by rewrite Hdto1, Hdto0).
      wp_use Hrest. by rewrite <- app_assoc.
    + constructor; [eauto | done].
Qed.

(** The loop of [_closeGroups] over objects that resolve. *)
Lemma closeGroups_loop_ok s0 : wf s0 → ∀ apis s acc,
  wf s → grows s0 s → Forall (resolves_group s0) apis →
  ∃ ids s1,
    for_of_push apis (λ group,
      extHostGroup ← ExtHostEditorTabs._findExtHostTabGroupFromApi group;
      match extHostGroup with
      | None => throw GroupCloseInvalidGroup
      | Some extHostGroup => ExtHostEditorTabGroup.groupId extHostGroup
      end) acc s = (Ok (acc ++ ids), s1)
    ∧ wf s1 ∧ grows s0 s1
    ∧ Forall2 (λ api id, ∃ group g,
        groups s0 !! group = Some g ∧ Group._apiObject g = Some api
        ∧ Group.groupId g = id) apis ids.
Proof.
  intros Hwf0. induction apis as [|x apis IH]; intros s acc Hwf Hgrows Hres.
  - exists [], s. rewrite app_nil_r. split_and!; [done | done | done | constructor].
  - apply Forall_cons in Hres as [Hx Hres].
    pose proof (resolves_group_grows _ _ _ Hgrows Hx) as Hxs.
    destruct Hx as (G & g & HG & Hg & Hapi).
    destruct (findExtHostTabGroupFromApi_found x s Hwf Hxs)
      as (group & g' & s1 & Hfind & Hwf1 & Hgrows1 & Hg' & Hapi').
    destruct (grows_group_memo _ _ Hgrows _ _ _ Hg Hapi) as (gG & HgG & HapiG).
    assert (group = G) as ->.
    { pose proof (wf_group_api _ Hwf _ _ _ Hg' Hapi') as Hobj.
      pose proof (wf_group_api _ Hwf _ _ _ HgG HapiG) as HobjG.
      rewrite Hobj in HobjG. by injection HobjG. }
    destruct (extends_group _ _ _ _ (grows_extends _ _ Hgrows) Hg) as (g0 & Hg0 & Hfields0).
    rewrite Hg' in Hg0. injection Hg0 as <-. injection Hfields0 as Hdto0 _ _.
    destruct (extends_group _ _ _ _ (grows_extends _ _ Hgrows1) Hg') as (g1 & Hg1 & Hfields1).
    injection Hfields1 as Hdto1 _ _.
    destruct (IH s1 (acc ++ [Group.groupId g]) Hwf1)
      as (ids & s2 & Hrest & Hwf2 & Hgrows2 & Hids); [by eapply grows_trans | done | ].
    exists (Group.groupId g :: ids), s2. split_and!; [ | done | done | ].
    + apply wp_eq. cbn [for_of_push]. wp_go. wp_use Hfind. wp_go.
      unfold ExtHostEditorTabGroup.groupId. wp_go.
      replace (Group.groupId g1) with (Group.groupId g)
        by (unfold Group.groupId; by rewrite Hdto1, Hdto0).
      wp_use Hrest. by rewrite <- app_assoc.
    + constructor; [eauto | done].
Qed.

(** [isTabGroup] on the public object of a group that is on the heap. *)
Lemma isTabGroup_group s api group g fr :
  wf s → objects s !! api = Some {| shape := TabGroupApi group; frozen := fr |} →
  groups s !! group = Some g →
  ∃ s1, ExtHostEditorTabs.isTabGroup api s = (Ok true, s1) ∧ wf s1 ∧ grows s s1.
Proof.
  intros Hwf Hobj Hg.
  destruct (tabs_apiObject_spec (Group._tabs g) s Hwf) as (objs & s1 & Hrun & Hwf1 & _).
  { eapply Forall_impl; [by apply (wf_group_tabs _ Hwf) | ].
    cbn. intros tab (t & Ht & _). eauto. }
  assert (ExtHostEditorTabs.isTabGroup api s = (Ok true, s1)) as Hcall.
  { apply wp_eq. unfold ExtHostEditorTabs.isTabGroup, ExtHostEditorTabGroup.tabs_getter,
      ExtHostEditorTabGroup.that, ExtHostEditorTabGroup.tabs.
    wp_go. wp_use Hrun. by wp_go. }
  assert (inv (λ s', wf s' ∧ grows s s') (ExtHostEditorTabs.isTabGroup api)) as Hinv
    by grows_tac.
  destruct (Hinv s (conj Hwf (grows_refl s))) as [_ Hgrows]. rewrite Hcall in Hgrows.
  by exists s1.
Qed.

(** X13: in a reachable state, [close] of one tab object or of a list of
    tab objects that all resolve returns what the main thread replies and
    sends exactly one request, the ids of the tabs of the objects in the
    order of the list.  No event fires, and the model changes by public
    objects only. *)
Theorem close_tabs_sends_ids s arg apis preserveFocus reply :
  reachable s →
  match arg with ExtHostEditorTabs.One o => [o] | ExtHostEditorTabs.Many os => os end = apis →
  apis ≠ [] → Forall (resolves_tab s) apis →
  ∃ ids s1,
    ExtHostEditorTabs.close arg preserveFocus reply s
    = (Ok reply, set_sent (sent s ++ [closeTab ids preserveFocus]) s1)
    ∧ grows s s1
    ∧ Forall2 (λ api id, ∃ tab t,
        tabs s !! tab = Some t ∧ Tab._apiObject t = Some api ∧ Tab.tabId t = id) apis ids.
Proof.
  intros Hreach Harg Hne Hres. apply reachable_wf in Hreach as Hwf.
  destruct (closeTabs_loop_ok s Hwf apis s [] Hwf (grows_refl s) Hres)
    as (ids & s1 & Hloop & Hwf1 & Hgrows & Hids).
  exists ids, s1. split_and!; [ | done | done].
  destruct apis as [|first rest]; [done | ].
  apply Forall_cons in Hres as [(G & g & T & t & HG & Hg & HT & Ht & Hapi) _].
  pose proof (wf_tab_api _ Hwf _ _ _ Ht Hapi) as Hobj.
  assert (ExtHostEditorTabs.isTabGroup first s = (Ok false, s)) as Htest.
  { apply wp_eq. unfold ExtHostEditorTabs.isTabGroup. by wp_go. }
  apply wp_eq. unfold ExtHostEditorTabs.close. rewrite Harg.
  apply wp_bind. wp_use Htest.
  unfold ExtHostEditorTabs._closeTabs. apply wp_bind. wp_use Hloop. wp_go.
  by rewrite (ext_sent _ _ (grows_extends _ _ Hgrows)).
Qed.

(** X13 at tab "b" of the example, alone and after tab "b" again. *)
Lemma close_tabs_sends_ids_witness :
  ∃ ids s1,
    ExtHostEditorTabs.close (ExtHostEditorTabs.Many [4; 4]) None true Scenario.after_open
    = (Ok true, set_sent (sent Scenario.after_open ++ [closeTab ids None]) s1).
Proof.
  destruct (close_tabs_sends_ids Scenario.after_open (ExtHostEditorTabs.Many [4; 4]) [4; 4]
    None true reachable_after_open eq_refl) as (ids & s1 & Hrun & _).
  - discriminate.
  - assert (resolves_tab Scenario.after_open 4) as Hres.
    { exists 0,
        (Group.mk (Some 2) (List.hd (IEditorTabGroupDto.mk true 0 [] 1) Scenario.snapshot)
           [1; 3] "a"), 3,
        (Tab.mk (Some 4) (Scenario.record "b" false)
           (Tab._initInput (Tab.new (Scenario.record "b" false) 0 0)) 0 0).
      split_and!.
      - apply elem_of_cons. by left.
      - vm_compute. reflexivity.
      - apply elem_of_cons. right. apply elem_of_cons. by left.
      - vm_compute. reflexivity.
      - reflexivity. }
    repeat constructor; exact Hres.
  - exists ids, s1. exact Hrun.
Defined.

(** X14: in a reachable state, [close] of one group object or of a list of
    group objects that all resolve returns what the main thread replies and
    sends exactly one request, the ids of the groups of the objects in the
    order of the list.  No event fires, and the model changes by public
    objects only. *)
Theorem close_groups_sends_ids s arg apis preserveFocus reply :
  reachable s →
  match arg with ExtHostEditorTabs.One o => [o] | ExtHostEditorTabs.Many os => os end = apis →
  apis ≠ [] → Forall (resolves_group s) apis →
  ∃ ids s1,
    ExtHostEditorTabs.close arg preserveFocus reply s
    = (Ok reply, set_sent (sent s ++ [closeGroup ids preserveFocus]) s1)
    ∧ grows s s1
    ∧ Forall2 (λ api id, ∃ group g,
        groups s !! group = Some g ∧ Group._apiObject g = Some api
        ∧ Group.groupId g = id) apis ids.
Proof.
  intros Hreach Harg Hne Hres. apply reachable_wf in Hreach as Hwf.
  destruct apis as [|first rest]; [done | ].
  pose proof Hres as Hall.
  apply Forall_cons in Hres as [(G & g & HG & Hg & Hapi) _].
  pose proof (wf_group_api _ Hwf _ _ _ Hg Hapi) as Hobj.
  destruct (isTabGroup_group _ _ _ _ _ Hwf Hobj Hg) as (s0 & Htest & Hwf0 & Hgrows0).
  destruct (closeGroups_loop_ok s Hwf (first :: rest) s0 [] Hwf0 Hgrows0 Hall)
    as (ids & s1 & Hloop & Hwf1 & Hgrows & Hids).
  exists ids, s1. split_and!; [ | done | done].
  apply wp_eq. unfold ExtHostEditorTabs.close. rewrite Harg.
  apply wp_bind. wp_use Htest.
  unfold ExtHostEditorTabs._closeGroups. apply wp_bind. wp_use Hloop. wp_go.
  by rewrite (ext_sent _ _ (grows_extends _ _ Hgrows)).
Qed.

(** X14 at the group of the example. *)
Lemma close_groups_sends_ids_witness :
  ∃ ids s1,
    ExtHostEditorTabs.close (ExtHostEditorTabs.One 2) (Some true) false Scenario.after_open
    = (Ok false, set_sent (sent Scenario.after_open ++ [closeGroup ids (Some true)]) s1).
Proof.
  destruct (close_groups_sends_ids Scenario.after_open (ExtHostEditorTabs.One 2) [2]
    (Some true) false reachable_after_open eq_refl) as (ids & s1 & Hrun & _).
  - discriminate.
  - repeat constructor.
    exists 0,
      (Group.mk (Some 2) (List.hd (IEditorTabGroupDto.mk true 0 [] 1) Scenario.snapshot)
         [1; 3] "a").
    split_and!.
    + apply elem_of_cons. by left.
    + vm_compute. reflexivity.
    + reflexivity.
  - exists ids, s1. exact Hrun.
Defined.

(** [move] of an object that does not resolve. *)
Lemma move_unresolved s api viewColumn index preserveFocus :
  wf s → api < next s → ¬ resolves_tab s api →
  ∃ s1, ExtHostEditorTabs.move api viewColumn index preserveFocus s
        = (Throw MoveInvalidTab, s1)
    ∧ sent s1 = sent s ∧ fired s1 = fired s.
Proof.
  intros Hwf Hlt Hunresolved.
  destruct (findExtHostTabFromApi_spec api s Hwf) as (r & s1 & Hfind & Hwf1 & Hext & Hr).
  destruct r as [tab|].
  - destruct (Hr tab eq_refl) as [_ Hres]. destruct Hunresolved.
    by eapply resolves_tab_back.
  - exists s1. split_and!.
    + apply wp_eq. unfold ExtHostEditorTabs.move. wp_go. wp_use Hfind. by wp_go.
    + apply (ext_sent _ _ Hext).
    + apply (ext_fired _ _ Hext).
Qed.



(** ** Where events and requests come from *)

(** X16: a notification of the main thread never sends a request, and a
    call of extension code (a read, [close], [move], an assignment to a
    property) never fires an event and changes neither the list of groups
    nor the active group id, whatever the state and whether the call
    returns or throws. *)
Theorem events_from_notifications_only c s :
  (is_notification c = true → sent (run c s).2 = sent s)
  ∧ (is_notification c = false →
     fired (run c s).2 = fired s
     ∧ _extHostTabGroups (run c s).2 = _extHostTabGroups s
     ∧ _activeGroupId (run c s).2 = _activeGroupId s).
Proof.
  split; intros Hc.
  - assert (inv (λ s', sent s' = sent s) (run c)) as Hinv
      by (destruct c; try done; inv_tac; done).
    by apply Hinv.
  - assert (inv (λ s', fired s' = fired s ∧ _extHostTabGroups s' = _extHostTabGroups s
                       ∧ _activeGroupId s' = _activeGroupId s) (run c)) as Hinv
      by (destruct c; try done; inv_tac; done).
    by apply Hinv.
Qed.

(** X16 at the open and at a close of the example. *)
Lemma events_from_notifications_only_witness :
  sent (run (AcceptTabOperation Scenario.open_b) Scenario.after_snapshot).2
  = sent Scenario.after_snapshot
  ∧ fired (run (CallClose (ExtHostEditorTabs.One 2) None true) Scenario.after_snapshot).2
    = fired Scenario.after_snapshot.
Proof.
  split.
  - apply (proj1 (events_from_notifications_only (AcceptTabOperation Scenario.open_b)
      Scenario.after_snapshot)). reflexivity.
  - apply (proj2 (events_from_notifications_only
      (CallClose (ExtHostEditorTabs.One 2) None true) Scenario.after_snapshot)). reflexivity.
Defined.

(** ** Public objects identify what they are of *)

(** X17: in a reachable state, a tab is listed by at most one group, two
    tabs never remember the same public object, two groups never remember
    the same public object, and no object is remembered by both a tab and a
    group. *)
Theorem objects_identify s :
  reachable s →
  (∀ group group' g g' tab,
     groups s !! group = Some g → groups s !! group' = Some g' →
     tab ∈ Group._tabs g → tab ∈ Group._tabs g' → group = group')
  ∧ (∀ tab tab' t t' api,
       tabs s !! tab = Some t → tabs s !! tab' = Some t' →
       Tab._apiObject t = Some api → Tab._apiObject t' = Some api → tab = tab')
  ∧ (∀ group group' g g' api,
       groups s !! group = Some g → groups s !! group' = Some g' →
       Group._apiObject g = Some api → Group._apiObject g' = Some api → group = group')
  ∧ (∀ tab t group g api,
       tabs s !! tab = Some t → groups s !! group = Some g →
       Tab._apiObject t = Some api → Group._apiObject g ≠ Some api).
Proof.
  intros Hreach. apply reachable_wf in Hreach as Hwf. split_and!.
  - intros group group' g g' tab Hg Hg' Hin Hin'.
    pose proof (wf_group_tabs _ Hwf _ _ Hg) as H. rewrite Forall_forall in H.
    pose proof (wf_group_tabs _ Hwf _ _ Hg') as H'. rewrite Forall_forall in H'.
    destruct (H _ Hin) as (t & Ht & <-). destruct (H' _ Hin') as (t' & Ht' & <-).
    congruence.
  - intros tab tab' t t' api Ht Ht' Hapi Hapi'.
    pose proof (wf_tab_api _ Hwf _ _ _ Ht Hapi) as Hobj.
    pose proof (wf_tab_api _ Hwf _ _ _ Ht' Hapi') as Hobj'. congruence.
  - intros group group' g g' api Hg Hg' Hapi Hapi'.
    pose proof (wf_group_api _ Hwf _ _ _ Hg Hapi) as Hobj.
    pose proof (wf_group_api _ Hwf _ _ _ Hg' Hapi') as Hobj'. congruence.
  - intros tab t group g api Ht Hg Hapi Hapi'.
    pose proof (wf_tab_api _ Hwf _ _ _ Ht Hapi) as Hobj.
    pose proof (wf_group_api _ Hwf _ _ _ Hg Hapi') as Hobj'. congruence.
Qed.

(** X17 in the example after the open: the tab "b" is listed by the group
    at location 0, and the object it remembers, at location 4, is not the
    one the group remembers. *)
Lemma objects_identify_witness :
  0 = 0
  ∧ Group._apiObject
      (Group.mk (Some 2) (List.hd (IEditorTabGroupDto.mk true 0 [] 1) Scenario.snapshot)
         [1; 3] "a") ≠ Some 4.
Proof.
  destruct (objects_identify Scenario.after_open reachable_after_open)
    as (Hlisted & _ & _ & Hdistinct).
  split.
  - apply (Hlisted 0 0
      (Group.mk (Some 2) (List.hd (IEditorTabGroupDto.mk true 0 [] 1) Scenario.snapshot)
         [1; 3] "a")
      (Group.mk (Some 2) (List.hd (IEditorTabGroupDto.mk true 0 [] 1) Scenario.snapshot)
         [1; 3] "a") 3).
    + vm_compute. reflexivity.
    + vm_compute. reflexivity.
    + apply elem_of_cons. right. apply elem_of_cons. by left.
    + apply elem_of_cons. right. apply elem_of_cons. by left.
  - apply (Hdistinct 3
      (Tab.mk (Some 4) (Scenario.record "b" false)
         (Tab._initInput (Tab.new (Scenario.record "b" false) 0 0)) 0 0) 0).
    + vm_compute. reflexivity.
    + vm_compute. reflexivity.
    + reflexivity.
Defined.

(** ** An update in place *)

(** X18: in a reachable state, an update whose record has the id of a tab
    of the group goes to the first such tab: its record becomes the record
    of the operation and its kind is derived anew, and it keeps the public
    object it remembers.  The group keeps its record and its list of tabs,
    every other tab and every other group stay as they are, and no object
    is made, no event fired and nothing sent by the group. *)
Theorem update_in_place s this g operation tab t :
  reachable s →
  groups s !! this = Some g →
  TabOperation.kind operation = TAB_UPDATE →
  tab ∈ Group._tabs g → tabs s !! tab = Some t →
  Tab.tabId t = IEditorTabDto.id (TabOperation.tabDto operation) →
  ∃ tab' t' s1 g1 t1,
    ExtHostEditorTabGroup.acceptTabOperation this operation s = (Ok tab', s1)
    ∧ tab' ∈ Group._tabs g ∧ tabs s !! tab' = Some t'
    ∧ Tab.tabId t' = IEditorTabDto.id (TabOperation.tabDto operation)
    ∧ groups s1 !! this = Some g1
    ∧ Group._tabs g1 = Group._tabs g ∧ Group._dto g1 = Group._dto g
    ∧ Group._apiObject g1 = Group._apiObject g
    ∧ tabs s1 !! tab' = Some t1
    ∧ Tab._dto t1 = TabOperation.tabDto operation
    ∧ Tab._input t1 = Tab._initInput t1
    ∧ Tab._apiObject t1 = Tab._apiObject t'
    ∧ (∀ l, l ≠ tab' → tabs s1 !! l = tabs s !! l)
    ∧ (∀ l, l ≠ this → groups s1 !! l = groups s !! l)
    ∧ objects s1 = objects s ∧ fired s1 = fired s ∧ sent s1 = sent s
    ∧ _extHostTabGroups s1 = _extHostTabGroups s.
Proof.
  intros Hreach Hg Hkind Hin Ht Hid. apply reachable_wf in Hreach as Hwf.
  destruct (find_tabId_exists (tabs s) (IEditorTabDto.id (TabOperation.tabDto operation))
              (Group._tabs g) tab t) as [tab' Hfind]; [ | done | done | done | ].
  { eapply Forall_impl; [by apply (wf_group_tabs _ Hwf) | ].
    cbn. intros x (tx & Hx & _). eauto. }
  destruct (find_tabId_Some _ _ _ _ Hfind) as (Hin' & t' & Ht' & Hid').
  eexists tab', t', _, _, _.
  split; [by apply (acceptTabOperation_update this operation s g tab' t') | ].
  cbn. rewrite !lookup_insert_eq.
  split_and!; try done.
  - intros l Hne. by rewrite lookup_insert_ne.
  - intros l Hne. by rewrite lookup_insert_ne.
Qed.

(** X18 in the example: the update of "a" after the open. *)
Lemma update_in_place_witness :
  ∃ tab' s1 g1,
    ExtHostEditorTabGroup.acceptTabOperation 0 Scenario.update_a Scenario.after_open
    = (Ok tab', s1)
    ∧ groups s1 !! 0 = Some g1 ∧ Group._tabs g1 = [1; 3].
Proof.
  destruct (update_in_place Scenario.after_open 0
    (Group.mk (Some 2) (List.hd (IEditorTabGroupDto.mk true 0 [] 1) Scenario.snapshot)
       [1; 3] "a") Scenario.update_a 1 (Tab.new (Scenario.record "a" true) 0 0)
    reachable_after_open)
    as (tab' & t' & s1 & g1 & t1 & Hrun & _ & _ & _ & Hg1 & Htabs & _).
  - vm_compute. reflexivity.
  - reflexivity.
  - apply elem_of_cons. by left.
  - vm_compute. reflexivity.
  - reflexivity.
  - exists tab', s1, g1. split; [exact Hrun | ]. split; [exact Hg1 | exact Htabs].
Defined.

(** ** Reading a list of objects twice *)

Lemma tabs_apiObject_memo ts : ∀ s,
  wf s → Forall (λ tab, is_Some (tabs s !! tab)) ts →
  ∃ objs s1,
    Array_map ExtHostEditorTab.apiObject ts s = (Ok objs, s1)
    ∧ wf s1 ∧ grows s s1
    ∧ Forall2 (λ tab obj, ∃ t1, tabs s1 !! tab = Some t1 ∧ Tab._apiObject t1 = Some obj)
        ts objs.
Proof.
  induction ts as [|tab ts IH]; intros s Hwf Hts.
  - exists [], s. split_and!; [done | done | apply grows_refl | constructor].
  - apply Forall_cons in Hts as [[t Ht] Hts].
    destruct (tab_apiObject_spec _ _ _ Hwf Ht) as (api & s1 & Hrun & Hwf1 & _ & _ & Hmemo & _).
    pose proof (grows_tab_apiObject s tab s (conj Hwf (grows_refl s))) as [_ Hgrows1].
    rewrite Hrun in Hgrows1. cbn in Hgrows1.
    destruct (IH s1 Hwf1) as (objs & s2 & Hrest & Hwf2 & Hgrows2 & Hobjs);
      [by eapply grows_tabs_is_Some | ].
    exists (api :: objs), s2. split_and!; [ | done | by eapply grows_trans | ].
    + apply wp_eq. cbn [Array_map]. wp_go. wp_use Hrun. wp_go. wp_use Hrest. by wp_go.
    + constructor; [ | done].
      destruct (tabs s1 !! tab) as [t1|] eqn:Ht1; [ | done]. injection Hmemo as Hmemo.
      by apply (grows_tab_memo _ _ Hgrows2 _ _ _ Ht1).
Qed.

Lemma tabs_apiObject_again s : ∀ ts objs,
  Forall2 (λ tab obj, ∃ t1, tabs s !! tab = Some t1 ∧ Tab._apiObject t1 = Some obj) ts objs →
  Array_map ExtHostEditorTab.apiObject ts s = (Ok objs, s).
Proof.
  induction 1 as [|tab obj ts objs (t1 & Ht1 & Hapi) _ IH]; [done | ].
  apply wp_eq. cbn [Array_map]. wp_go.
  wp_use (tab_apiObject_memoized tab t1 obj s Ht1 Hapi). wp_go. wp_use IH. by wp_go.
Qed.

Lemma groups_apiObject_memo gs : ∀ s,
  wf s → Forall (λ group, is_Some (groups s !! group)) gs →
  ∃ objs s1,
    Array_map ExtHostEditorTabGroup.apiObject gs s = (Ok objs, s1)
    ∧ wf s1 ∧ grows s s1
    ∧ Forall2 (λ group obj, ∃ g1, groups s1 !! group = Some g1
                              ∧ Group._apiObject g1 = Some obj) gs objs.
Proof.
  induction gs as [|group gs IH]; intros s Hwf Hgs.
  - exists [], s. split_and!; [done | done | apply grows_refl | constructor].
  - apply Forall_cons in Hgs as [[g Hg] Hgs].
    destruct (group_apiObject_spec _ _ _ Hwf Hg)
      as (api & s1 & Hrun & Hwf1 & _ & _ & Hmemo & _).
    pose proof (grows_group_apiObject s group s (conj Hwf (grows_refl s))) as [_ Hgrows1].
    rewrite Hrun in Hgrows1. cbn in Hgrows1.
    destruct (IH s1 Hwf1) as (objs & s2 & Hrest & Hwf2 & Hgrows2 & Hobjs);
      [by eapply grows_groups_is_Some | ].
    exists (api :: objs), s2. split_and!; [ | done | by eapply grows_trans | ].
    + apply wp_eq. cbn [Array_map]. wp_go. unfold ExtHostEditorTabGroup.apiObject.
      wp_use Hrun. wp_go. wp_use Hrest. by wp_go.
    + constructor; [ | done].
      destruct (groups s1 !! group) as [g1|] eqn:Hg1; [ | done]. injection Hmemo as Hmemo.
      by apply (grows_group_memo _ _ Hgrows2 _ _ _ Hg1).
Qed.

Lemma groups_apiObject_again s : ∀ gs objs,
  Forall2 (λ group obj, ∃ g1, groups s !! group = Some g1
                          ∧ Group._apiObject g1 = Some obj) gs objs →
  Array_map ExtHostEditorTabGroup.apiObject gs s = (Ok objs, s).
Proof.
  induction 1 as [|group obj gs objs (g1 & Hg1 & Hapi) _ IH]; [done | ].
  apply wp_eq. cbn [Array_map]. wp_go. unfold ExtHostEditorTabGroup.apiObject.
  wp_use (group_apiObject_memoized group g1 obj s Hg1 Hapi). wp_go. wp_use IH. by wp_go.
Qed.

(** X19: in a reachable state, [groups] returns one frozen public object
    per listed group, in the order of the list, and [tabs] of the public
    object of a group returns one frozen public object per tab of the
    group, in order.  Either read changes the model by public objects only,
    and read again it returns the same objects and changes nothing. *)
Theorem list_reads_return_same_objects s :
  reachable s →
  (∃ objs s1,
     ExtHostEditorTabs.groups_getter s = (Ok objs, s1)
     ∧ grows s s1
     ∧ Forall2 (λ group obj,
         objects s1 !! obj = Some {| shape := TabGroupApi group; frozen := true |})
         (_extHostTabGroups s) objs
     ∧ ExtHostEditorTabs.groups_getter s1 = (Ok objs, s1))
  ∧ (∀ obj group g fr,
       objects s !! obj = Some {| shape := TabGroupApi group; frozen := fr |} →
       groups s !! group = Some g →
       ∃ objs s1,
         ExtHostEditorTabGroup.tabs_getter obj s = (Ok objs, s1)
         ∧ grows s s1
         ∧ Forall2 (λ tab o,
             objects s1 !! o = Some {| shape := TabApi tab; frozen := true |})
             (Group._tabs g) objs
         ∧ ExtHostEditorTabGroup.tabs_getter obj s1 = (Ok objs, s1)).
Proof.
  intros Hreach. apply reachable_wf in Hreach as Hwf. split.
  - destruct (groups_apiObject_memo _ s Hwf (wf_store _ Hwf))
      as (objs & s1 & Hrun & Hwf1 & Hgrows & Hmemo).
    exists objs, s1. split_and!; [ | done | | ].
    + apply wp_eq. unfold ExtHostEditorTabs.groups_getter. wp_go. by wp_use Hrun.
    + eapply Forall2_impl; [exact Hmemo | ]. cbn. intros group obj (g1 & Hg1 & Hapi).
      by apply (wf_group_api _ Hwf1 _ _ _ Hg1).
    + apply wp_eq. unfold ExtHostEditorTabs.groups_getter. wp_go.
      rewrite (ext_extHostTabGroups _ _ (grows_extends _ _ Hgrows)).
      by wp_use (groups_apiObject_again s1 _ _ Hmemo).
  - intros obj group g fr Hobj Hg.
    destruct (tabs_apiObject_memo (Group._tabs g) s Hwf)
      as (objs & s1 & Hrun & Hwf1 & Hgrows & Hmemo).
    { eapply Forall_impl; [by apply (wf_group_tabs _ Hwf) | ].
      cbn. intros tab (t & Ht & _). eauto. }
    pose proof (grows_extends _ _ Hgrows) as Hext.
    destruct (extends_group _ _ _ _ Hext Hg) as (g1 & Hg1 & Hfields).
    injection Hfields as _ Htabs _.
    pose proof (ext_objects _ _ Hext _ _ Hobj) as Hobj1.
    exists objs, s1. split_and!; [ | done | | ].
    + apply wp_eq. unfold ExtHostEditorTabGroup.tabs_getter, ExtHostEditorTabGroup.that,
        ExtHostEditorTabGroup.tabs. wp_go. by wp_use Hrun.
    + eapply Forall2_impl; [exact Hmemo | ]. cbn. intros tab o (t1 & Ht1 & Hapi).
      by apply (wf_tab_api _ Hwf1 _ _ _ Ht1).
    + apply wp_eq. unfold ExtHostEditorTabGroup.tabs_getter, ExtHostEditorTabGroup.that,
        ExtHostEditorTabGroup.tabs. wp_go. rewrite Htabs.
      by wp_use (tabs_apiObject_again s1 _ _ Hmemo).
Qed.

(** X19 at the group of the example after the open. *)
Lemma list_reads_return_same_objects_witness :
  ∃ objs s1,
    ExtHostEditorTabGroup.tabs_getter 2 Scenario.after_open = (Ok objs, s1)
    ∧ ExtHostEditorTabGroup.tabs_getter 2 s1 = (Ok objs, s1).
Proof.
  destruct (proj2 (list_reads_return_same_objects Scenario.after_open reachable_after_open)
    2 0 (Group.mk (Some 2) (List.hd (IEditorTabGroupDto.mk true 0 [] 1) Scenario.snapshot)
           [1; 3] "a") true) as (objs & s1 & Hrun & _ & _ & Hagain).
  - reflexivity.
  - vm_compute. reflexivity.
  - exists objs, s1. split; [exact Hrun | exact Hagain].
Defined.

(** ** No group lists a tab twice *)

Lemma NoDup_splice {A} (l : list A) start deleteCount items :
  NoDup l → NoDup items → (∀ x, x ∈ items → x ∉ l) →
  NoDup (splice l start deleteCount items).2.
Proof.
  intros Hl Hitems Hfresh. unfold splice. cbv zeta. cbn [snd].
  set (k := relative_start (length l) start).
  assert (NoDup (take k l ++ drop k l)) as Hsplit by by rewrite take_drop.
  apply NoDup_app in Hsplit as (Htake & Hdisj & Hdrop).
  assert (drop (k + deleteCount) l ⊆ drop k l) as Hsub.
  { rewrite <- drop_drop. apply subseteq_drop. }
  apply NoDup_app. split_and!; [done | | ].
  - intros x Hx. rewrite elem_of_app. intros [Hi|Hd].
    + apply (Hfresh x Hi). by apply (subseteq_take k l).
    + apply (Hdisj x Hx). by apply Hsub.
  - apply NoDup_app. split_and!; [done | | ].
    + intros x Hx Hd. apply (Hfresh x Hx). by apply (subseteq_drop (k + deleteCount) l).
    + eapply sublist_NoDup; [exact Hl | apply sublist_drop].
Qed.

Lemma NoDup_insert_group (h : gmap loc Group.t) this g' :
  (∀ l g, h !! l = Some g → NoDup (Group._tabs g)) → NoDup (Group._tabs g') →
  ∀ l g, <[this := g']> h !! l = Some g → NoDup (Group._tabs g).
Proof.
  intros Hh Hg' l g. destruct (decide (l = this)) as [->|Hne].
  - rewrite lookup_insert_eq. by intros [= <-].
  - rewrite lookup_insert_ne by done. apply Hh.
Qed.

Lemma tabs_kept_refl s : tabs_kept s s.
Proof. intros group g Hg. eauto. Qed.

Lemma nodup_of_kept s s1 : tabs_kept s s1 → nodup_tabs s → nodup_tabs s1.
Proof.
  intros Hkept Hnd group g1 Hg1. destruct (Hkept _ _ Hg1) as (g & Hg & ->). by eapply Hnd.
Qed.

Lemma inv_nodup_of_kept {A} (m : M A) : (∀ s0, inv (tabs_kept s0) m) → inv nodup_tabs m.
Proof.
  intros H s Hnd. eapply nodup_of_kept; [ | exact Hnd]. apply H, tabs_kept_refl.
Qed.

Lemma inv_conj {A} (I J : State → Prop) (m : M A) :
  inv I m → inv J m → inv (λ s, I s ∧ J s) m.
Proof. intros HI HJ s [Hi Hj]. split; [by apply HI | by apply HJ]. Qed.

Lemma tabs_kept_update_group s0 this f :
  (∀ g, Group._tabs (f g) = Group._tabs g) → inv (tabs_kept s0) (update_group this f).
Proof.
  intros Hf. apply inv_of_wp. intros s Hkept. wp_go; [ | done].
  intros group g1. cbn. destruct (decide (group = this)) as [->|Hne].
  - rewrite lookup_insert_eq. intros [= <-]. rewrite Hf. by apply Hkept.
  - rewrite lookup_insert_ne by done. apply Hkept.
Qed.

Lemma tabs_kept_group_apiObject s0 this : inv (tabs_kept s0) (Group_apiObject this).
Proof.
  intros s Hkept. destruct (groups s !! this) as [g|] eqn:Hg.
  - destruct (Group._apiObject g) as [api|] eqn:Hapi.
    + by rewrite (group_apiObject_memoized _ _ _ _ Hg Hapi).
    + rewrite (group_apiObject_first _ _ _ Hg Hapi). cbn [snd].
      intros group g1. cbn. destruct (decide (group = this)) as [->|Hne].
      * rewrite lookup_insert_eq. intros [= <-]. cbn. by apply Hkept.
      * rewrite lookup_insert_ne by done. apply Hkept.
  - by rewrite (group_apiObject_stuck _ _ Hg).
Qed.

Ltac kept_step :=
  lazymatch goal with
  | |- inv _ (Group_apiObject _) => apply tabs_kept_group_apiObject
  | |- inv _ (ExtHostEditorTabGroup.apiObject _) => apply tabs_kept_group_apiObject
  | |- inv _ (update_group _ _) => apply tabs_kept_update_group; intros ?; done
  | |- inv _ (ExtHostEditorTab.apiObject _) => unfold ExtHostEditorTab.apiObject
  | |- inv _ (ExtHostEditorTab.acceptDtoUpdate _ _) => unfold ExtHostEditorTab.acceptDtoUpdate
  | |- inv _ (put_tab _ _) => unfold put_tab
  | |- inv _ (send _) => unfold send
  | |- inv _ (fire _) => unfold fire
  | |- inv _ (assign_property _) => unfold assign_property
  | |- inv _ (ExtHostEditorTabGroup.acceptGroupDtoUpdate _ _) =>
      unfold ExtHostEditorTabGroup.acceptGroupDtoUpdate
  | |- inv _ (ExtHostEditorTabs.find_group _) => unfold ExtHostEditorTabs.find_group
  | |- inv _ (ExtHostEditorTabs.has_groupId _ _) => unfold ExtHostEditorTabs.has_groupId
  | |- inv _ (ExtHostEditorTabs._closeTabs _ _ _) => unfold ExtHostEditorTabs._closeTabs
  | |- inv _ (ExtHostEditorTabs._closeGroups _ _ _) => unfold ExtHostEditorTabs._closeGroups
  | |- inv _ (ExtHostEditorTabs.close _ _ _) => unfold ExtHostEditorTabs.close
  | |- inv _ (ExtHostEditorTabs.move _ _ _ _) => unfold ExtHostEditorTabs.move
  | |- inv _ (ExtHostEditorTabs.tabGroups) => unfold ExtHostEditorTabs.tabGroups
  | |- inv _ (ExtHostEditorTabs.acceptTabGroupUpdate _) =>
      unfold ExtHostEditorTabs.acceptTabGroupUpdate
  | _ => grows_step
  end.

Ltac kept_tac :=
  repeat kept_step;
  try match goal with H : tabs_kept _ _ |- tabs_kept _ _ => exact H end.

(** The calls that leave every list of tabs as it is: all but a snapshot
    and a tab operation. *)
Lemma tabs_kept_run c s0 :
  match c with AcceptEditorTabModel _ | AcceptTabOperation _ => False | _ => True end →
  inv (tabs_kept s0) (run c).
Proof.
  destruct c; try done; intros _; cbn [run]; kept_tac.
Qed.

Lemma nodup_built dto s : nodup_tabs s → nodup_tabs (built dto s).
Proof.
  intros Hnd. unfold nodup_tabs, built. cbn.
  apply NoDup_insert_group; [exact Hnd | apply NoDup_seq].
Qed.

Lemma nodup_built_all tabGroups : ∀ s, nodup_tabs s → nodup_tabs (built_all tabGroups s).
Proof.
  induction tabGroups as [|dto tabGroups IH]; intros s Hnd; [done | ].
  cbn [built_all foldl]. by apply (IH (built dto s)), nodup_built.
Qed.

Lemma nodup_acceptEditorTabModel tabGroups :
  inv nodup_tabs (ExtHostEditorTabs.acceptEditorTabModel tabGroups).
Proof.
  unfold ExtHostEditorTabs.acceptEditorTabModel. apply inv_bind.
  - intros s Hnd. rewrite new_groups. by apply nodup_built_all.
  - intros gs. apply inv_nodup_of_kept. intros s0. kept_tac.
Qed.

Lemma nodup_group_acceptTabOperation this operation :
  inv (λ s, (wf s ∧ is_Some (groups s !! this)) ∧ nodup_tabs s)
    (ExtHostEditorTabGroup.acceptTabOperation this operation).
Proof.
  intros s [HI Hnd]. split; [by apply wf_group_acceptTabOperation | ].
  destruct HI as [Hwf [g Hg]].
  change (wp (ExtHostEditorTabGroup.acceptTabOperation this operation)
            (λ _ s1, nodup_tabs s1) s).
  unfold ExtHostEditorTabGroup.acceptTabOperation.
  destruct (decide (TabOperation.kind operation = TAB_OPEN));
    [ | destruct (decide (TabOperation.kind operation = TAB_CLOSE)) ].
  - unfold ExtHostEditorTab.new. wp_go.
    assert (NoDup (splice (Group._tabs g) (TabOperation.index operation) 0 [next s]).2)
      as Hspliced.
    { apply NoDup_splice; [by eapply Hnd | apply NoDup_singleton | ].
      intros x Hx Hin. apply list_elem_of_singleton in Hx as ->.
      pose proof (wf_group_tabs _ Hwf _ _ Hg) as Htabs. rewrite Forall_forall in Htabs.
      destruct (Htabs _ Hin) as (t & Ht & _).
      assert (next s < next s) by (apply (wf_tabs_below _ Hwf); eauto). lia. }
    destruct (IEditorTabDto.isActive _); unfold ExtHostEditorTab.tabId; wp_go.
    all: unfold nodup_tabs; cbn; repeat apply NoDup_insert_group; done.
  - assert (NoDup (splice (Group._tabs g) (TabOperation.index operation) 1 []).2)
      as Hspliced.
    { apply NoDup_splice; [by eapply Hnd | constructor | ].
      intros x Hx. by apply elem_of_nil in Hx. }
    unfold ExtHostEditorTab.tabId, activeTabId. wp_go.
    destruct (head _); wp_go.
    all: try case_bool_decide; wp_go.
    all: unfold nodup_tabs; cbn; repeat apply NoDup_insert_group; done.
  - apply (wp_of_inv nodup_tabs); [ | done].
    apply inv_nodup_of_kept. intros s0. kept_tac.
Qed.

Lemma nodup_acceptTabOperation operation :
  inv (λ s, wf s ∧ nodup_tabs s) (ExtHostEditorTabs.acceptTabOperation operation).
Proof.
  apply inv_of_wp. intros s [Hwf Hnd]. unfold ExtHostEditorTabs.acceptTabOperation.
  wp_go. wp_use find_group_run.
  destruct (find_groupId _ _ _) as [[group|]| |] eqn:Hfind; try by wp_go.
  destruct (find_groupId_Some _ _ _ _ Hfind) as (_ & g & Hg & _).
  wp_go. eapply wp_wand.
  - apply (wp_of_inv _ _ _ (nodup_group_acceptTabOperation group operation)). eauto.
  - cbn. intros r s1 [[Hwf1 _] Hnd1]. destruct r as [tab| |]; [ | done | done].
    apply wp_of_inv; [ | done].
    apply inv_conj; [wf_tac | apply inv_nodup_of_kept; intros s0; kept_tac].
Qed.

Lemma nodup_run c : inv (λ s, wf s ∧ nodup_tabs s) (run c).
Proof.
  destruct c.
  1: apply inv_conj; [apply wf_acceptEditorTabModel | apply nodup_acceptEditorTabModel].
  2: apply nodup_acceptTabOperation.
  all: apply inv_conj; [apply wf_run | apply inv_nodup_of_kept; intros s0 ].
  all: by apply tabs_kept_run.
Qed.

Lemma reachable_nodup s : reachable s → nodup_tabs s.
Proof.
  assert (reachable s → wf s ∧ nodup_tabs s) as H; [ | by intros [_ Hnd]%H].
  induction 1 as [|s c _ IH]; [ | by apply nodup_run].
  split; [apply wf_initial | ]. intros group g Hg. by cbn in Hg.
Qed.

(** X20: in a reachable state, no group lists a tab twice: the tabs of a
    group are distinct projections. *)
Theorem tabs_listed_once s group g :
  reachable s → groups s !! group = Some g → NoDup (Group._tabs g).
Proof. intros Hreach Hg. by eapply reachable_nodup. Qed.

(** X20 at the group of the example after the open. *)
Lemma tabs_listed_once_witness : NoDup [1; 3].
Proof.
  apply (tabs_listed_once Scenario.after_open 0
    (Group.mk (Some 2) (List.hd (IEditorTabGroupDto.mk true 0 [] 1) Scenario.snapshot)
       [1; 3] "a") reachable_after_open).
  vm_compute. reflexivity.
Defined.

(** ** A closed tab is stale *)

(** X21: in a reachable state, after [$acceptTabOperation] has closed the
    tab at an index of the group with the id of the operation, the public
    object that the tab remembered still exists but resolves to nothing:
    [close] of it throws and [move] of it throws, and nothing is sent. *)
Theorem closed_tab_is_stale s operation group g i tab t api :
  reachable s →
  ExtHostEditorTabs.find_group (TabOperation.groupId operation) s = (Ok (Some group), s) →
  groups s !! group = Some g →
  TabOperation.kind operation = TAB_CLOSE →
  Group._tabs g !! i = Some tab →
  TabOperation.index operation = Z.of_nat i
  ∨ TabOperation.index operation = (Z.of_nat i - Z.of_nat (length (Group._tabs g)))%Z →
  tabs s !! tab = Some t → Tab._apiObject t = Some api →
  ∃ s1,
    ExtHostEditorTabs.acceptTabOperation operation s = (Ok (), s1)
    ∧ objects s1 !! api = Some {| shape := TabApi tab; frozen := true |}
    ∧ ¬ resolves_tab s1 api
    ∧ (∀ preserveFocus reply, ∃ s2,
         ExtHostEditorTabs.close (ExtHostEditorTabs.One api) preserveFocus reply s1
         = (Throw TabCloseInvalidTab, s2) ∧ sent s2 = sent s1)
    ∧ (∀ viewColumn index preserveFocus, ∃ s2,
         ExtHostEditorTabs.move api viewColumn index preserveFocus s1
         = (Throw MoveInvalidTab, s2) ∧ sent s2 = sent s1).
Proof.
  intros Hreach Hfind Hg Hkind Htab Hindex Ht Hapi. apply reachable_wf in Hreach as Hwf.
  pose proof (reachable_nodup _ Hreach _ _ Hg) as Hnd.
  pose proof (group_close_at s group g operation i tab t Hg Hkind Htab Hindex Ht) as Hclose.
  set (g1 := Group.set_activeTabId
               (if bool_decide (Tab.tabId t = Group._activeTabId g) then ""
                else Group._activeTabId g)
               (Group.set_tabs (delete i (Group._tabs g)) g)) in Hclose.
  set (s1 := set_groups (<[group := g1]> (groups s)) s) in Hclose.
  assert (ExtHostEditorTabs.acceptTabOperation operation s = (Ok (), s1)) as Hrun.
  { apply wp_eq. unfold ExtHostEditorTabs.acceptTabOperation. apply wp_bind. wp_use Hfind.
    apply wp_bind. wp_use Hclose. rewrite decide_False by (intros H; by apply H). by wp_go. }
  assert (wf s1) as Hwf1.
  { pose proof (wf_acceptTabOperation operation s Hwf) as H. by rewrite Hrun in H. }
  pose proof (wf_tab_api _ Hwf _ _ _ Ht Hapi) as Hobj.
  assert (api < next s1) as Hlt by (apply (wf_objects_below _ Hwf); eauto).
  assert (¬ resolves_tab s1 api) as Hstale.
  { intros (G' & g' & T' & t' & HG' & Hg' & HT' & Ht' & Hapi'). cbn in HG', Hg', Ht'.
    assert (T' = tab) as ->.
    { pose proof (wf_tab_api _ Hwf _ _ _ Ht' Hapi') as Hobj'.
      rewrite Hobj in Hobj'. by injection Hobj'. }
    destruct (decide (G' = group)) as [->|Hne].
    - rewrite lookup_insert_eq in Hg'. injection Hg' as <-. cbn in HT'.
      apply list_elem_of_lookup in HT' as [j Hj].
      destruct (decide (j < i)).
      + rewrite list_lookup_delete_lt in Hj by done.
        pose proof (NoDup_lookup _ _ _ _ Hnd Hj Htab). lia.
      + rewrite list_lookup_delete_ge in Hj by lia.
        pose proof (NoDup_lookup _ _ _ _ Hnd Hj Htab). lia.
    - rewrite lookup_insert_ne in Hg' by done.
      pose proof (wf_group_tabs _ Hwf _ _ Hg') as H'. rewrite Forall_forall in H'.
      destruct (H' _ HT') as (tx & Hx & Hgetter).
      pose proof (wf_group_tabs _ Hwf _ _ Hg) as H. rewrite Forall_forall in H.
      destruct (H tab (list_elem_of_lookup_2 _ _ _ Htab)) as (ty & Hy & Hgetter').
      congruence. }
  exists s1. split_and!; [done | done | done | | ].
  - intros preserveFocus reply.
    destruct (closeTabs_loop [api] s1 [] Hwf1) as (r & s2 & Hloop & Hext & Hr).
    rewrite (Hr api) in Hloop; [ | by left | done | done].
    exists s2. split; [ | by apply ext_sent].
    assert (ExtHostEditorTabs.isTabGroup api s1 = (Ok false, s1)) as Htest.
    { apply wp_eq. unfold ExtHostEditorTabs.isTabGroup. by wp_go. }
    apply wp_eq. unfold ExtHostEditorTabs.close. apply wp_bind. wp_use Htest.
    unfold ExtHostEditorTabs._closeTabs. apply wp_bind. by wp_use Hloop.
  - intros viewColumn index preserveFocus.
    destruct (move_unresolved s1 api viewColumn index preserveFocus Hwf1 Hlt Hstale)
      as (s2 & Hmove & Hsent & _).
    by exists s2.
Qed.

(** X21 in the example: the close of tab "a", whose public object is at
    location 5. *)
Lemma closed_tab_is_stale_witness :
  ∃ s1,
    ExtHostEditorTabs.acceptTabOperation Scenario.close_0 Scenario.after_update = (Ok (), s1)
    ∧ ¬ resolves_tab s1 5.
Proof.
  destruct (closed_tab_is_stale Scenario.after_update Scenario.close_0 0
    (Group.mk (Some 2) (List.hd (IEditorTabGroupDto.mk true 0 [] 1) Scenario.snapshot)
       [1; 3] "") 0 1
    (Tab.mk (Some 5) (Scenario.record "a" false)
       (Tab._initInput (Tab.new (Scenario.record "a" false) 0 0)) 0 0) 5
    reachable_after_update) as (s1 & Hrun & _ & Hstale & _).
  - vm_compute. reflexivity.
  - vm_compute. reflexivity.
  - reflexivity.
  - reflexivity.
  - left. reflexivity.
  - vm_compute. reflexivity.
  - reflexivity.
  - exists s1. split; [exact Hrun | exact Hstale].
Defined.

(** ** The objects of the module are frozen *)

Lemma frozen_run c :
  inv (λ s, ∀ l o, objects s !! l = Some o → made_by_module o = true → frozen o = true)
    (run c).
Proof.
  destruct c; inv_tac; cbn.
  all: try done.
  all: let x := fresh "x" in let o := fresh "o" in
       let Hx := fresh "Hx" in let Hm := fresh "Hm" in
       intros x o Hx Hm; apply lookup_insert_Some in Hx as [[_ <-]|[_ Hx]];
       [done | by eauto].
Qed.

Lemma reachable_frozen s :
  reachable s →
  ∀ l o, objects s !! l = Some o → made_by_module o = true → frozen o = true.
Proof. induction 1 as [|s c _ IH]; [done | by apply frozen_run]. Qed.

Lemma tabGroups_memoized s obj :
  _apiObject s = Some obj → ExtHostEditorTabs.tabGroups s = (Ok obj, s).
Proof.
  intros Hmemo. apply wp_eq. unfold ExtHostEditorTabs.tabGroups. wp_go.
  rewrite Hmemo. by wp_go.
Qed.

Lemma tabGroups_first s :
  _apiObject s = None →
  ExtHostEditorTabs.tabGroups s
  = (Ok (next s),
     set_apiObject (Some (next s))
       (set_objects (<[next s := {| shape := TabGroupsApi; frozen := true |}]> (objects s))
          (set_next (S (next s)) s))).
Proof.
  intros Hmemo. apply wp_eq. unfold ExtHostEditorTabs.tabGroups. wp_go.
  rewrite Hmemo. by wp_go.
Qed.

Lemma void_state {A} (m : M A) s : (void m s).2 = (m s).2.
Proof. unfold void, mbind, M_bind. by destruct (m s) as [[a| |] s1]. Qed.

Lemma reachable_tabGroups s :
  reachable s →
  ∀ obj, _apiObject s = Some obj →
    objects s !! obj = Some {| shape := TabGroupsApi; frozen := true |}.
Proof.
  induction 1 as [|s c Hreach IH]; [done | ]. intros obj.
  pose proof (reachable_wf _ Hreach) as Hwf.
  assert ((∀ a, inv (λ s', _apiObject s' = a) (run c)) ∨ c = GetTabGroups) as [Hkept| ->].
  { destruct c; first [ by right | left; intros a; inv_tac; done ]. }
  - rewrite (Hkept (_apiObject s) s eq_refl). intros Hmemo.
    apply object_stable; [done | ]. by apply IH.
  - cbn [run]. rewrite void_state.
    destruct (_apiObject s) as [memo|] eqn:Hold.
    + rewrite (tabGroups_memoized _ _ Hold). cbn. rewrite Hold. apply IH.
    + rewrite (tabGroups_first _ Hold). cbn. intros [= <-]. apply lookup_insert_eq.
Qed.

(** X22: every public object the module has made is frozen, whether it is
    still in use or stale: in a reachable state, an assignment to a
    property of an object of a tab, of a group or of the [tabGroups] object
    is a [TypeError] and changes nothing. *)
Theorem module_objects_are_frozen s obj o :
  reachable s → objects s !! obj = Some o → made_by_module o = true →
  frozen o = true ∧ assign_property obj s = (Throw TypeError, s).
Proof.
  intros Hreach Hobj Hmade.
  pose proof (reachable_frozen _ Hreach _ _ Hobj Hmade) as Hfrozen.
  split; [done | ]. apply wp_eq. unfold assign_property. wp_go. by rewrite Hfrozen.
Qed.

(** X22 at the object of the group of the example. *)
Lemma module_objects_are_frozen_witness :
  assign_property 2 Scenario.after_close = (Throw TypeError, Scenario.after_close).
Proof.
  apply (module_objects_are_frozen Scenario.after_close 2
    {| shape := TabGroupApi 0; frozen := true |} reachable_after_close).
  - vm_compute. reflexivity.
  - reflexivity.
Defined.

(** X23: in a reachable state, [tabGroups] returns a frozen object that is
    made at the first read only: the model changes by at most that object,
    and every later read returns the same object and changes nothing. *)
Theorem tabGroups_once s :
  reachable s →
  ∃ obj s1,
    ExtHostEditorTabs.tabGroups s = (Ok obj, s1)
    ∧ grows s s1
    ∧ (_apiObject s = Some obj ∧ s1 = s ∨ _apiObject s = None ∧ obj = next s)
    ∧ objects s1 !! obj = Some {| shape := TabGroupsApi; frozen := true |}
    ∧ ExtHostEditorTabs.tabGroups s1 = (Ok obj, s1).
Proof.
  intros Hreach. pose proof (reachable_wf _ Hreach) as Hwf.
  destruct (grows_tabGroups s s (conj Hwf (grows_refl s))) as [_ Hgrows].
  destruct (_apiObject s) as [memo|] eqn:Hold.
  - exists memo, s. rewrite (tabGroups_memoized _ _ Hold) in Hgrows |- *.
    split_and!; [done | done | by left | by apply reachable_tabGroups | done].
  - eexists _, _. rewrite (tabGroups_first _ Hold) in Hgrows |- *.
    split_and!; [done | done | by right | apply lookup_insert_eq | ].
    by apply tabGroups_memoized.
Qed.

(** X23 on a new instance. *)
Lemma tabGroups_once_witness :
  ∃ obj s1,
    ExtHostEditorTabs.tabGroups initial = (Ok obj, s1)
    ∧ ExtHostEditorTabs.tabGroups s1 = (Ok obj, s1).
Proof.
  destruct (tabGroups_once initial reachable_initial) as (obj & s1 & Hrun & _ & _ & _ & Hagain).
  exists obj, s1. split; [exact Hrun | exact Hagain].
Defined.
